(** * driller's Tracer (tracer/tracer.py): a shallow embedding

    The tracer follows a concrete basic-block trace (obtained from QEMU)
    with angr's symbolic path group.  The Python object [self] becomes the
    record [Tracer]; the methods become computations in a small state and
    exception monad over a [World] made of the tracer object and the
    symbolic engine's store of state objects.  The symbolic engine (angr,
    simuvex, claripy, cle) is not part of the repository: it appears as the
    interface [Engine]. *)

From Stdlib Require Import ZArith Lia Ascii.
From coqutil Require Import Byte Word.LittleEndianList.
From stdpp Require Import gmap strings list functions.

Local Open Scope Z_scope.

(** ** Part I: definitions *)

(** *** Python runtime *)

Module Py.

(** Exceptions that the methods of the tracer raise or let through. *)
Inductive exn : Type :=
| TracerEnvironmentError
| TracerMisfollowError
| TracerDynamicTraceOOBError
| IndexError
| ValueError
| StructError.

#[global] Instance exn_eq_dec : EqDecision exn.
Proof. solve_decision. Defined.

(** [l[i]]: a negative index counts from the end; out of range is an
    [IndexError], here [None]. *)
Definition index {A : Type} (l : list A) (i : Z) : option A :=
  let n := Z.of_nat (length l) in
  if decide (0 ≤ i) then l !! Z.to_nat i
  else if decide (- n ≤ i) then l !! Z.to_nat (n + i)
  else None.

(** Outcome of running a method: it returns, it raises, or the model ran
    out of fuel before the method's loop ended. *)
Inductive result (A : Type) : Type :=
| Returns (a : A)
| Raises (e : exn)
| OutOfFuel.
#[global] Arguments Returns {A} a.
#[global] Arguments Raises {A} e.
#[global] Arguments OutOfFuel {A}.

End Py.
Export Py.

#[global] Instance byte_eq_dec : EqDecision byte.
Proof.
  intros a b. destruct (decide (byte.unsigned a = byte.unsigned b)) as [e|n].
  - left. apply byte.unsigned_inj, e.
  - right. congruence.
Defined.

(** *** The symbolic engine's data *)

(** claripy expressions, as far as the tracer builds and rewrites them. *)
Inductive expr : Type :=
| BoolV (b : bool)
| BVV (value : Z) (bits : Z)
| FileLoad (fd : Z) (pos : Z) (len : Z)
| BVS (name : string) (bits : Z)
| Eq (a b : expr)
| Ne (a b : expr)
| ULT (a b : expr)
| Add (a b : expr)
| Not (a : expr)
| And (a b : expr)
| Or (a b : expr).

#[global] Instance expr_eq_dec : EqDecision expr.
Proof. solve_decision. Defined.

(** Modelled from the spec: claripy's [c.replace(old, new)] is missing (an
    external library); the spec calls it a structural replacement of a term
    by another.  The search is top-down and does not look into [new]. *)
Fixpoint replace (c old new : expr) : expr :=
  if decide (c = old) then new
  else match c with
       | Eq a b => Eq (replace a old new) (replace b old new)
       | Ne a b => Ne (replace a old new) (replace b old new)
       | ULT a b => ULT (replace a old new) (replace b old new)
       | Add a b => Add (replace a old new) (replace b old new)
       | Not a => Not (replace a old new)
       | And a b => And (replace a old new) (replace b old new)
       | Or a b => Or (replace a old new) (replace b old new)
       | BoolV _ | BVV _ _ | FileLoad _ _ _ | BVS _ _ => c
       end.

(** [state.se.true] *)
Definition se_true : expr := BoolV true.

(** A simuvex file object: the tracer only moves its read position. *)
Record SimFile : Type := mkSimFile {
  file_fd : Z;
  file_pos : Z
}.

(** Modelled from the spec: simuvex's [SimFile.read] is missing; it returns
    "the engine's 1-byte symbolic read at stream position i" and moves the
    position forward. *)
Definition file_read (f : SimFile) (length : Z) : expr * SimFile :=
  (FileLoad (file_fd f) (file_pos f) length,
   {| file_fd := file_fd f; file_pos := file_pos f + length |}).

(** [stdin.seek(pos)] *)
Definition file_seek (f : SimFile) (pos : Z) : SimFile :=
  {| file_fd := file_fd f; file_pos := pos |}.

(** A simuvex state object.  [cached] stands for the solver's caches that
    [downsize] may throw away. *)
Record SimState : Type := mkSimState {
  se_constraints : list expr;
  posix_stdin : SimFile;
  cached : list expr
}.

(** State objects are mutable and shared between the tracer, its paths and
    the caller: they live in a store, and a path points to its state. *)
Definition loc : Type := positive.

Record Path : Type := mkPath {
  addr : Z;
  state : loc
}.

#[global] Instance Path_eq_dec : EqDecision Path.
Proof. solve_decision. Defined.

Abbreviation Store := (loc → SimState).

(** angr's PathGroup, created with [immutable=True]: every operation
    returns a new group, so a group is a value: the dictionary of its
    stashes. *)
Abbreviation PathGroup := (gmap string (list Path)).

Module PG.

(** [pg.<stash>]; a stash that was never filled is empty. *)
Definition stash_of (pg : PathGroup) (name : string) : list Path :=
  pg !!! name.

Definition active (pg : PathGroup) : list Path := stash_of pg "active".
Definition missed (pg : PathGroup) : list Path := stash_of pg "missed".
Definition unsat (pg : PathGroup) : list Path := stash_of pg "unsat".
Definition crashed (pg : PathGroup) : list Path := stash_of pg "crashed".

(** Modelled from the spec: angr's stash primitives are missing; "moving
    a path between stashes is the only mutation primitive":
    [partition(state, predicate, from, to)] and [drop(state, stash)]. *)
Definition move (f : Path → bool) (from_stash to_stash : string)
    (pg : PathGroup) : PathGroup :=
  let to_move := List.filter f (stash_of pg from_stash) in
  let to_keep := List.filter (λ p, negb (f p)) (stash_of pg from_stash) in
  let pg1 := <[from_stash := to_keep]> pg in
  <[to_stash := stash_of pg1 to_stash ++ to_move]> pg1.

(** [pg.stash(from_stash=.., to_stash=..)]: all paths of a stash *)
Definition stash (from_stash to_stash : string) (pg : PathGroup) : PathGroup :=
  move (λ _, true) from_stash to_stash pg.

(** [pg.stash_not_addr(a, to_stash=..)], from 'active' *)
Definition stash_not_addr (a : Z) (to_stash : string) (pg : PathGroup) : PathGroup :=
  move (λ p, negb (bool_decide (addr p = a))) "active" to_stash pg.

(** Modelled from the spec: angr's [pg.drop(stash=..)] is missing; it
    discards the paths of the stash. *)
Definition drop (name : string) (pg : PathGroup) : PathGroup :=
  <[name := []]> pg.

End PG.

(** The loader's project, as far as the tracer uses it. *)
Record Project : Type := mkProject {
  entry : Z;
  memory_backer : gmap Z (list byte);
  register_backer : gmap string Z
}.

(** The calls into angr, simuvex and cle.  The engine is free in what it
    does; [downsize] only touches the caches. *)
Class Engine : Type := {
  (** [angr.Project(cle.Loader(binary, main_opts=..))]: the entry point *)
  project_entry : string → gmap Z (list byte) → gmap string Z → Z;
  (** [project.factory.entry_state(..)] *)
  factory_entry_state : Project → Store → loc * Store;
  (** [project.factory.path_group(entry_state, immutable=True, save_unsat=True)] *)
  factory_path_group : Project → loc → Store → PathGroup * Store;
  (** [pg.step()] *)
  pg_step : PathGroup → Store → PathGroup * Store;
  (** [state.downsize()] *)
  downsize : SimState → SimState;
  downsize_constraints : ∀ s, se_constraints (downsize s) = se_constraints s;
  downsize_stdin : ∀ s, posix_stdin (downsize s) = posix_stdin s
}.

(** The calls into the operating system and the emulator. *)
Class Host : Type := {
  (** [os.path.dirname(__file__)] *)
  module_dir : string;
  (** [os.access(path, os.X_OK)] *)
  os_access_X_OK : string → bool;
  (** [os.path.isfile(path)] *)
  os_path_isfile : string → bool;
  (** running [qemu -d exec -D logfile binary] on an input: the value of
      [p.wait()] and what the log file holds afterwards *)
  qemu_exec_trace : string → string → list byte → Z * string;
  (** running [qemu -predump backingfile binary]: what the file holds *)
  qemu_predump : string → string → list byte;
  (** [int(s, 16)]; [None] is a [ValueError] *)
  int_base16 : string → option Z
}.

(** *** The tracer object *)

Record Tracer : Type := mkTracer {
  binary : string;
  input : list byte;
  preconstrain : bool;
  base : string;
  driller_qemu : string;
  crash_mode : bool;
  trace : list Z;
  preconstraints : list expr;
  bb_cnt : Z;
  previous : option Z;
  path_group : PathGroup
}.

Record World : Type := mkWorld {
  self : Tracer;
  store : Store
}.

(** *** State and exception monad *)

(** A method run on a state [S]: the outcome and the state it leaves; an
    exception keeps the changes made before it was raised. *)
Definition ST (S A : Type) : Type := S → result A * S.

#[global] Instance ST_ret {S : Type} : MRet (ST S) := λ A a s, (Returns a, s).

#[global] Instance ST_bind {S : Type} : MBind (ST S) := λ A B f m s,
  match m s with
  | (Returns a, s') => f a s'
  | (Raises e, s') => (Raises e, s')
  | (OutOfFuel, s') => (OutOfFuel, s')
  end.

Definition raise {S A : Type} (e : exn) : ST S A := λ s, (Raises e, s).

Definition out_of_fuel {S A : Type} : ST S A := λ s, (OutOfFuel, s).

(** [try: m except e: handler] *)
Definition try_except {S A : Type} (m : ST S A) (e : exn) (handler : ST S A) : ST S A :=
  λ s, match m s with
       | (Raises e', s') => if decide (e' = e) then handler s' else (Raises e', s')
       | r => r
       end.

Abbreviation M := (ST World).

Definition get_self : M Tracer := λ w, (Returns (self w), w).

Definition modify_self (f : Tracer → Tracer) : M unit :=
  λ w, (Returns tt, {| self := f (self w); store := store w |}).

(** [l[i]] inside a method *)
Definition getitem {A : Type} (l : list A) (i : Z) : M A :=
  match index l i with
  | Some x => mret x
  | None => raise IndexError
  end.

Definition set_bb_cnt (n : Z) (t : Tracer) : Tracer :=
  {| binary := binary t; input := input t; preconstrain := preconstrain t;
     base := base t; driller_qemu := driller_qemu t;
     crash_mode := crash_mode t; trace := trace t;
     preconstraints := preconstraints t; bb_cnt := n;
     previous := previous t; path_group := path_group t |}.

Definition set_previous (p : option Z) (t : Tracer) : Tracer :=
  {| binary := binary t; input := input t; preconstrain := preconstrain t;
     base := base t; driller_qemu := driller_qemu t;
     crash_mode := crash_mode t; trace := trace t;
     preconstraints := preconstraints t; bb_cnt := bb_cnt t; previous := p;
     path_group := path_group t |}.

Definition set_path_group (pg : PathGroup) (t : Tracer) : Tracer :=
  {| binary := binary t; input := input t; preconstrain := preconstrain t;
     base := base t; driller_qemu := driller_qemu t;
     crash_mode := crash_mode t; trace := trace t;
     preconstraints := preconstraints t; bb_cnt := bb_cnt t;
     previous := previous t; path_group := pg |}.

Definition set_preconstraints (pcs : list expr) (t : Tracer) : Tracer :=
  {| binary := binary t; input := input t; preconstrain := preconstrain t;
     base := base t; driller_qemu := driller_qemu t;
     crash_mode := crash_mode t; trace := trace t; preconstraints := pcs;
     bb_cnt := bb_cnt t; previous := previous t;
     path_group := path_group t |}.

Definition set_crash_mode (b : bool) (t : Tracer) : Tracer :=
  {| binary := binary t; input := input t; preconstrain := preconstrain t;
     base := base t; driller_qemu := driller_qemu t; crash_mode := b;
     trace := trace t; preconstraints := preconstraints t;
     bb_cnt := bb_cnt t; previous := previous t;
     path_group := path_group t |}.

Definition set_trace (tr : list Z) (t : Tracer) : Tracer :=
  {| binary := binary t; input := input t; preconstrain := preconstrain t;
     base := base t; driller_qemu := driller_qemu t;
     crash_mode := crash_mode t; trace := tr;
     preconstraints := preconstraints t; bb_cnt := bb_cnt t;
     previous := previous t; path_group := path_group t |}.

(** *** EXPOSED: next_branch and run *)

Section Stepper.
Context `{E : Engine}.

(** [self.path_group = self.path_group.step()] *)
Definition step_path_group : M unit := λ w,
  let '(pg, st) := pg_step (path_group (self w)) (store w) in
  (Returns tt, {| self := set_path_group pg (self w); store := st |}).

(** One turn of the [while] loop of [next_branch] (lines 83-115), with
    [current = self.path_group.active[0]]. *)
Definition sync_step (current : Path) : M unit :=
  t ← get_self;
  expected ← getitem (trace t) (bb_cnt t);
  (if decide (addr current = expected) then
     modify_self (set_bb_cnt (bb_cnt t + 1))
   else if decide (Some (addr current) = previous t) then
     mret tt
   else
     raise TracerMisfollowError);;
  modify_self (set_previous (Some (addr current)));;
  step_path_group;;
  t ← get_self;
  (if preconstrain t then
     modify_self (set_path_group (PG.stash "unsat" "active" (path_group t)))
   else mret tt);;
  t ← get_self;
  modify_self (set_path_group (PG.drop "unsat" (path_group t))).

(** [while len(self.path_group.active) == 1: ...] *)
Fixpoint sync_loop (fuel : nat) : M unit :=
  t ← get_self;
  match PG.active (path_group t) with
  | [current] =>
      match fuel with
      | O => out_of_fuel
      | S fuel' => sync_step current;; sync_loop fuel'
      end
  | _ => mret tt
  end.

(** The rest of [next_branch] (lines 117-126). *)
Definition take_branch : M PathGroup :=
  t ← get_self;
  target ← getitem (trace t) (bb_cnt t);
  modify_self (set_path_group (PG.stash_not_addr target "missed" (path_group t)));;
  t ← get_self;
  let rpg := path_group t in
  modify_self (set_path_group (PG.drop "missed" (path_group t)));;
  mret rpg.

Definition next_branch (fuel : nat) : M PathGroup :=
  sync_loop fuel;; take_branch.

(** What one turn of the loop of [run] does to the loop. *)
Inductive flow : Type :=
| Continue (branches : PathGroup)
| Break (branches : PathGroup).

(** The body of the loop of [run] (lines 139-149): the [try] and its
    [except IndexError]; without crash mode the handler does nothing and
    [branches] stays as it was. *)
Definition run_turn (fuel : nat) (branches : PathGroup) : M flow :=
  try_except
    (b ← next_branch fuel; mret (Continue b))
    IndexError
    (t ← get_self;
     if crash_mode t then
       _ ← getitem (trace t) (bb_cnt t - 1);
       mret (Break (PG.stash "active" "crashed" (path_group t)))
     else mret (Continue branches)).

(** [while len(branches.active): ...]; [calls] bounds the turns of this
    loop, [fuel] the turns of the loop inside each [next_branch]. *)
Fixpoint run_loop (fuel calls : nat) (branches : PathGroup) : M PathGroup :=
  match PG.active branches with
  | [] => mret branches
  | _ :: _ =>
      match calls with
      | O => out_of_fuel
      | S calls' =>
          f ← run_turn fuel branches;
          match f with
          | Continue b => run_loop fuel calls' b
          | Break b => mret b
          end
      end
  end.

Definition run (fuel : nat) : M PathGroup :=
  branches ← next_branch fuel;
  run_loop fuel fuel branches.

End Stepper.

(** *** EXPOSED: remove_preconstraints *)

Definition set_se_constraints (cs : list expr) (s : SimState) : SimState :=
  {| se_constraints := cs; posix_stdin := posix_stdin s; cached := cached s |}.

Definition set_posix_stdin (f : SimFile) (s : SimState) : SimState :=
  {| se_constraints := se_constraints s; posix_stdin := f; cached := cached s |}.

(** Modelled from the spec: simuvex's [state.add_constraints(c)] is
    missing; it "applies the constraint to the engine's constraint
    store". *)
Definition add_constraints (c : expr) (s : SimState) : SimState :=
  set_se_constraints (se_constraints s ++ [c]) s.

(** Modelled from the spec: simuvex's [state.BVV(b)] for a character [b]
    is missing; it is "the concrete byte value", a value of 8 bits. *)
Definition state_BVV (b : byte) : expr := BVV (byte.unsigned b) 8.

(** The inner loop of [remove_preconstraints]:
    [for pc in self.preconstraints: c = c.replace(pc, true)] *)
Definition replace_all (pcs : list expr) (c : expr) : expr :=
  foldl (λ c pc, replace c pc se_true) c pcs.

Section RemovePreconstraints.
Context `{E : Engine}.

(** Changes the state object of [path] in the store, so that every holder
    of the path sees the new constraints; returns nothing. *)
Definition remove_preconstraints (path : Path) : M unit := λ w,
  if negb (preconstrain (self w)) then (Returns tt, w)
  else
    let st := store w (state path) in
    let new_constraints :=
      map (replace_all (preconstraints (self w))) (se_constraints st) in
    let st := set_se_constraints new_constraints st in
    let st := downsize st in
    (Returns tt, {| self := self w; store := <[state path := st]> (store w) |}).

End RemovePreconstraints.

(** *** SETUP *)

(** [os.path.join(a, b)] on POSIX *)
Definition os_path_join (a b : string) : string :=
  if String.prefix "/" b then b
  else if decide (a = "")%string then b
  else if decide (String.get (String.length a - 1) a = Some "/"%char)
       then (a +:+ b)%string
       else (a +:+ "/" +:+ b)%string.

Section Setup.
Context `{H : Host}.

Definition _sane (t : Tracer) : bool :=
  let sane := true in
  let sane :=
    if negb (os_access_X_OK (binary t)) then
      if os_path_isfile (binary t) then false else false
    else sane in
  let sane :=
    if negb (os_access_X_OK (driller_qemu t)) then
      if os_path_isfile (driller_qemu t) then false else false
    else sane in
  sane.

End Setup.

(** *** DYNAMIC TRACING *)

(** [signal.SIGSEGV] and [signal.SIGILL] (Linux) *)
Definition SIGSEGV : Z := 11.
Definition SIGILL : Z := 4.

(** [s.split(sep)] for a separator of one character *)
Fixpoint str_split (sep : ascii) (s : string) : list string :=
  match s with
  | EmptyString => [EmptyString]
  | String c s' =>
      if decide (c = sep) then EmptyString :: str_split sep s'
      else match str_split sep s' with
           | h :: t => String c h :: t
           | [] => [String c EmptyString]
           end
  end.

(** [try: self.trace[self.bb_cnt] except IndexError: ...]; the method has
    no [return] of the block, so it yields [None] whenever it returns. *)
Definition _current_bb : M (option Z) :=
  t ← get_self;
  try_except (_ ← getitem (trace t) (bb_cnt t); mret None)
             IndexError
             (if crash_mode t then mret None
              else raise TracerDynamicTraceOOBError).

Section DynamicTrace.
Context `{H : Host}.

(** One item of the list comprehension of [_dynamic_trace]:
    [int(v.split('[')[1].split(']')[0], 16)] *)
Definition trace_line_addr (v : string) : M Z :=
  after ← getitem (str_split "["%char v) 1;
  inside ← getitem (str_split "]"%char after) 0;
  match int_base16 inside with
  | Some a => mret a
  | None => raise ValueError
  end.

Fixpoint trace_addrs (lines : list string) : M (list Z) :=
  match lines with
  | [] => mret []
  | v :: rest =>
      if String.prefix "Trace" v then
        a ← trace_line_addr v;
        addrs ← trace_addrs rest;
        mret (a :: addrs)
      else trace_addrs rest
  end.

Definition _dynamic_trace : M (list Z) :=
  t ← get_self;
  let '(ret, log) := qemu_exec_trace (driller_qemu t) (binary t) (input t) in
  (if decide (ret < 0) then
     if decide (Z.abs ret = SIGSEGV ∨ Z.abs ret = SIGILL) then
       modify_self (set_crash_mode true)
     else mret tt
   else mret tt);;
  trace_addrs (str_split "010"%char log).

End DynamicTrace.

(** *** The predump file *)

Abbreviation Reader := (ST (list byte)).

(** [f.read(n)]: at most [n] bytes, fewer at the end of the file *)
Definition f_read (n : Z) : Reader (list byte) :=
  λ f, (Returns (take (Z.to_nat n) f), drop (Z.to_nat n) f).

(** [struct.unpack(fmt, bs)[0]] for the little-endian unsigned formats
    ["B"], ["<I"] and ["<Q"] of 1, 4 and 8 bytes; a string of another
    length is a [struct.error]. *)
Definition unpack (size : nat) (bs : list byte) : Reader Z :=
  if decide (length bs = size) then mret (le_combine bs)
  else raise StructError.

Definition read_unpack (size : nat) : Reader Z :=
  bs ← f_read (Z.of_nat size); unpack size bs.

(** ["REGS"] *)
Definition REGS : list byte := [Byte.x52; Byte.x45; Byte.x47; Byte.x53].

Abbreviation Regs := (gmap string Z).
Abbreviation Memory := (gmap Z (list byte)).

(** [regs[name] = struct.unpack("<I", f.read(4))[0]] *)
Definition reg_I (name : string) (regs : Regs) : Reader Regs :=
  v ← read_unpack 4; mret (<[name := v]> regs).

(** [regs[name] = struct.unpack("B", f.read(1))[0]] *)
Definition reg_B (name : string) (regs : Regs) : Reader Regs :=
  v ← read_unpack 1; mret (<[name := v]> regs).

(** [regs[name] = struct.unpack("<Q", f.read(8))[0]] and then
    [regs[name] |= struct.unpack("<Q", f.read(8))[0] << 64] *)
Definition reg_QQ (name : string) (regs : Regs) : Reader Regs :=
  lo ← read_unpack 8;
  let regs := <[name := lo]> regs in
  hi ← read_unpack 8;
  mret (<[name := Z.lor (regs !!! name) (Z.shiftl hi 64)]> regs).

(** The [else] branch of the loop of [_load_backed] (lines 270-350). *)
Definition read_regs (regs : Regs) : Reader Regs :=
  regs ← reg_I "eax" regs;
  regs ← reg_I "ebx" regs;
  regs ← reg_I "ecx" regs;
  regs ← reg_I "edx" regs;
  regs ← reg_I "esi" regs;
  regs ← reg_I "edi" regs;
  regs ← reg_I "ebp" regs;
  regs ← reg_I "esp" regs;
  regs ← reg_I "d" regs;
  eip ← read_unpack 4;
  let regs := <["eip" := eip - 2]> regs in
  regs ← reg_QQ "st0" regs;
  regs ← reg_QQ "st1" regs;
  regs ← reg_QQ "st2" regs;
  regs ← reg_QQ "st3" regs;
  regs ← reg_QQ "st4" regs;
  regs ← reg_QQ "st5" regs;
  regs ← reg_QQ "st6" regs;
  regs ← reg_QQ "st7" regs;
  regs ← reg_B "fpu_t0" regs;
  regs ← reg_B "fpu_t1" regs;
  regs ← reg_B "fpu_t2" regs;
  regs ← reg_B "fpu_t3" regs;
  regs ← reg_B "fpu_t4" regs;
  regs ← reg_B "fpu_t5" regs;
  regs ← reg_B "fpu_t6" regs;
  regs ← reg_B "fpu_t7" regs;
  regs ← reg_I "ftop" regs;
  regs ← reg_I "mxcsr" regs;
  regs ← reg_QQ "xmm0" regs;
  regs ← reg_QQ "xmm1" regs;
  regs ← reg_QQ "xmm2" regs;
  regs ← reg_QQ "xmm3" regs;
  regs ← reg_QQ "xmm4" regs;
  regs ← reg_QQ "xmm5" regs;
  regs ← reg_QQ "xmm6" regs;
  reg_QQ "xmm7" regs.

(** [while len(regs) == 0: ...] over the open file (lines 261-350) *)
Fixpoint parse_predump (fuel : nat) (memory : Memory) (regs : Regs)
    : Reader (Memory * Regs) :=
  if decide (size regs = 0%nat) then
    match fuel with
    | O => out_of_fuel
    | S fuel' =>
        tag ← f_read 4;
        if decide (tag ≠ REGS) then
          start ← unpack 4 tag;
          end_ ← read_unpack 4;
          length ← read_unpack 4;
          content ← f_read length;
          parse_predump fuel' (<[start := content]> memory) regs
        else
          regs ← read_regs regs;
          parse_predump fuel' memory regs
    end
  else mret (memory, regs).

(** The parse of a whole file.  Every turn of the loop reads from the file
    or fails, so the length of the file bounds the turns. *)
Definition load_predump (file : list byte) : result (Memory * Regs) :=
  fst (parse_predump (S (length file)) ∅ ∅ file).

Section Prepare.
Context `{H : Host} `{E : Engine}.

Definition _load_backed : M Project :=
  t ← get_self;
  match load_predump (qemu_predump (driller_qemu t) (binary t)) with
  | Returns (memory, regs) =>
      mret {| entry := project_entry (binary t) memory regs;
              memory_backer := memory;
              register_backer := regs |}
  | Raises e => raise e
  | OutOfFuel => out_of_fuel
  end.

(** *** SYMBOLIC TRACING *)

(** The body of the loop of [_preconstrain_state], for one byte [b] of
    the input. *)
Definition preconstrain_byte (entry_state : loc) (b : byte) : M unit := λ w,
  let st := store w entry_state in
  let '(sym, stdin) := file_read (posix_stdin st) 1 in
  let c := Eq sym (state_BVV b) in
  let t := set_preconstraints (preconstraints (self w) ++ [c]) (self w) in
  let st := set_posix_stdin stdin st in
  let st := add_constraints c st in
  (Returns tt, {| self := t; store := <[entry_state := st]> (store w) |}).

Fixpoint preconstrain_bytes (entry_state : loc) (bs : list byte) : M unit :=
  match bs with
  | [] => mret tt
  | b :: bs' =>
      preconstrain_byte entry_state b;; preconstrain_bytes entry_state bs'
  end.

Definition stdin_seek (entry_state : loc) (pos : Z) : M unit := λ w,
  let st := store w entry_state in
  let st := set_posix_stdin (file_seek (posix_stdin st) pos) st in
  (Returns tt, {| self := self w; store := <[entry_state := st]> (store w) |}).

Definition _preconstrain_state (entry_state : loc) : M unit :=
  t ← get_self;
  preconstrain_bytes entry_state (input t);;
  stdin_seek entry_state 0.

(** [while self.trace[self.bb_cnt] != target: self.bb_cnt += 1] *)
Fixpoint windup (fuel : nat) (target : Z) : M unit :=
  t ← get_self;
  a ← getitem (trace t) (bb_cnt t);
  if decide (a ≠ target) then
    match fuel with
    | O => out_of_fuel
    | S fuel' =>
        modify_self (set_bb_cnt (bb_cnt t + 1));; windup fuel' target
    end
  else mret tt.

Definition engine {A : Type} (f : Store → A * Store) : M A := λ w,
  let '(a, st) := f (store w) in
  (Returns a, {| self := self w; store := st |}).

(** The loop of the windup stops at the latest when the counter leaves
    the trace, which bounds its turns. *)
Definition _prepare_paths : M PathGroup :=
  project ← _load_backed;
  entry_state ← engine (factory_entry_state project);
  t ← get_self;
  windup (Z.to_nat (Z.of_nat (length (trace t)) - bb_cnt t)) (entry project + 2);;
  t ← get_self;
  (if preconstrain t then _preconstrain_state entry_state else mret tt);;
  pg ← engine (factory_path_group project entry_state);
  engine (pg_step pg).

(** The object before [__init__] has assigned the attributes that it
    computes. *)
Definition new_tracer (binary : string) (input : list byte)
    (preconstrain : bool) : Tracer :=
  let base := os_path_join module_dir ".." in
  {| binary := binary; input := input; preconstrain := preconstrain;
     base := base;
     driller_qemu :=
       os_path_join (os_path_join base "driller-qemu") "driller-qemu-cgc";
     crash_mode := false; trace := []; preconstraints := [];
     bb_cnt := 0; previous := None; path_group := ∅ |}.

Definition init_body : M unit :=
  t ← get_self;
  (if negb (_sane t) then raise TracerEnvironmentError else mret tt);;
  modify_self (set_crash_mode false);;
  tr ← _dynamic_trace;
  modify_self (set_trace tr);;
  modify_self (set_preconstraints []);;
  modify_self (set_bb_cnt 0);;
  modify_self (set_previous None);;
  pg ← _prepare_paths;
  modify_self (set_path_group pg).

(** [Tracer(binary, input, preconstrain)] in a store [st] *)
Definition __init__ (binary : string) (input : list byte)
    (preconstrain : bool) (st : Store) : result unit * World :=
  init_body {| self := new_tracer binary input preconstrain; store := st |}.

End Prepare.

(** *** A small engine and host to run the methods on *)

Module Toy.

(** An engine that walks a control-flow graph [succ]: every active path
    is replaced by one path per successor of its block, a path without
    successors deadends. *)
Definition step (succ : Z → list Z) (pg : PathGroup) (st : Store)
    : PathGroup * Store :=
  let act := PG.active pg in
  let next := flat_map (λ p, map (λ a, mkPath a (state p)) (succ (addr p))) act in
  let dead := List.filter (λ p, bool_decide (succ (addr p) = [])) act in
  (<["active" := next]>
     (<["deadended" := PG.stash_of pg "deadended" ++ dead]> pg), st).

Definition blank : SimState :=
  {| se_constraints := []; posix_stdin := {| file_fd := 0; file_pos := 0 |};
     cached := [] |}.

Definition clear_cache (s : SimState) : SimState :=
  {| se_constraints := se_constraints s; posix_stdin := posix_stdin s;
     cached := [] |}.

#[local] Instance engine (succ : Z → list Z) : Engine := {|
  project_entry := λ _ _ regs, regs !!! "eip";
  factory_entry_state := λ _ st, (1%positive, <[1%positive := blank]> st);
  factory_path_group := λ prj l st, ({["active" := [mkPath (entry prj) l]]}, st);
  pg_step := step succ;
  downsize := clear_cache;
  downsize_constraints := λ _, eq_refl;
  downsize_stdin := λ _, eq_refl
|}.

Definition empty_store : Store := λ _, blank.

Definition tracer (crash : bool) (tr : list Z) (cnt : Z) (prev : option Z)
    (pg : PathGroup) : Tracer :=
  {| binary := "bin"; input := []; preconstrain := true;
     base := ".."; driller_qemu := "../driller-qemu/driller-qemu-cgc";
     crash_mode := crash; trace := tr; preconstraints := [];
     bb_cnt := cnt; previous := prev; path_group := pg |}.

Definition world (crash : bool) (tr : list Z) (cnt : Z) (prev : option Z)
    (pg : PathGroup) : World :=
  {| self := tracer crash tr cnt prev pg; store := empty_store |}.

Definition at_addrs (addrs : list Z) : PathGroup :=
  {["active" := map (λ a, mkPath a 1%positive) addrs]}.

(** 0x100 branches to 0x200, 0x300 and 0x500; 0x200 goes on to 0x400,
    which exits; 0x300 goes to 0x600. *)
Definition cfg (a : Z) : list Z :=
  if decide (a = 0x100) then [0x200; 0x300; 0x500]
  else if decide (a = 0x200) then [0x400]
  else if decide (a = 0x300) then [0x600]
  else [].

(** The tracer at block 0x100 of [cfg], following the trace
    0x100, 0x200, 0x400. *)
Definition w_branch : World :=
  world false [0x100; 0x200; 0x400] 0 None (at_addrs [0x100]).

(** The trace ends inside 0x200, after the branch at 0x100. *)
Definition w_exhaust : World :=
  world false [0x100; 0x200] 0 None (at_addrs [0x100]).

(** The same run, but the emulator reported a crash. *)
Definition w_crash : World :=
  world true [0x100; 0x200] 0 None (at_addrs [0x100]).

(** The trace leaves 0x200 for a block that the engine does not reach. *)
Definition w_misfollow : World :=
  world false [0x200; 0x999] 0 None (at_addrs [0x200]).

(** A crash in the first block, before any branch. *)
Definition w_crash_first : World :=
  world true [0x200] 0 None (at_addrs [0x200]).

(** The program runs 0x200, 0x400 and exits, and so does the trace. *)
Definition w_exit : World :=
  world false [0x200; 0x400] 0 None (at_addrs [0x200]).

(** A host for the toy engine.  The emulator reports a segmentation
    violation; its log names three blocks, the first one before the entry
    point of the program; the predump file holds one memory record and
    the registers, all zero but for the instruction pointer. *)
Definition hex_digit (c : ascii) : option Z :=
  let n := Z.of_nat (nat_of_ascii c) in
  if decide (48 ≤ n ≤ 57) then Some (n - 48)
  else if decide (97 ≤ n ≤ 102) then Some (n - 87)
  else if decide (65 ≤ n ≤ 70) then Some (n - 55)
  else None.

Fixpoint hex_value (acc : Z) (s : string) : option Z :=
  match s with
  | EmptyString => Some acc
  | String c s' =>
      match hex_digit c with
      | Some d => hex_value (16 * acc + d) s'
      | None => None
      end
  end.

Definition int16 (s : string) : option Z :=
  if decide (s = EmptyString) then None else hex_value 0 s.

Definition nl : string := String "010"%char EmptyString.

Definition log : string :=
  ("Trace 0x7f0000 [08048000] " +:+ nl +:+
   "Linking TBs 0x7f0000 [08048000] index 0 -> 0x7f0040 [08048080]" +:+ nl +:+
   "Trace 0x7f0040 [08048080] " +:+ nl +:+
   "Trace 0x7f0080 [08048100] " +:+ nl)%string.

Definition dump : list byte :=
  le_split 4 0x1000 ++ le_split 4 0x1002 ++ le_split 4 2
  ++ [Byte.x90; Byte.x90]
  ++ REGS ++ repeat Byte.x00 36 ++ le_split 4 0x08048080
  ++ repeat Byte.x00 272.

#[local] Instance host : Host := {|
  module_dir := "tracer";
  os_access_X_OK := λ _, true;
  os_path_isfile := λ _, true;
  qemu_exec_trace := λ _ _ _, (-11, log);
  qemu_predump := λ _ _, dump;
  int_base16 := int16
|}.

(** The program of the dump: from the entry point to 0x08048080, a branch
    there, and on from 0x08048100. *)
Definition cfg_boot (a : Z) : list Z :=
  if decide (a = 0x0804807e) then [0x08048080]
  else if decide (a = 0x08048080) then [0x08048100; 0x08048200]
  else if decide (a = 0x08048100) then [0x08048300]
  else [].

(** The same program, but 0x08048100 exits, and the emulator reports a
    normal exit: the trace ends where the program ends. *)
Definition cfg_exit (a : Z) : list Z :=
  if decide (a = 0x0804807e) then [0x08048080]
  else if decide (a = 0x08048080) then [0x08048100; 0x08048200]
  else [].

#[local] Instance host_exit : Host := {|
  module_dir := "tracer";
  os_access_X_OK := λ _, true;
  os_path_isfile := λ _, true;
  qemu_exec_trace := λ _ _ _, (0, log);
  qemu_predump := λ _ _, dump;
  int_base16 := int16
|}.

(** The tracer built for that program and the input "AB". *)
Definition w_built : World :=
  (@__init__ host_exit (engine cfg_exit)
     "bin" [Byte.x41; Byte.x42] true empty_store).2.

Definition with_input (bs : list byte) (pcs : list expr) (w : World) : World :=
  {| self :=
       {| binary := binary (self w); input := bs;
          preconstrain := preconstrain (self w);
          base := base (self w); driller_qemu := driller_qemu (self w);
          crash_mode := crash_mode (self w); trace := trace (self w);
          preconstraints := pcs; bb_cnt := bb_cnt (self w);
          previous := previous (self w);
          path_group := path_group (self w) |};
     store := store w |}.

(** A tracer for the input "AB", before its entry state is
    preconstrained. *)
Definition w_input : World :=
  with_input [Byte.x41; Byte.x42] [] w_branch.

(** The same tracer later on: its path holds the two preconstraints and
    two constraints of the program. *)
Definition w_constrained : World :=
  let pc0 := Eq (FileLoad 0 0 1) (BVV 65 8) in
  let pc1 := Eq (FileLoad 0 1 1) (BVV 66 8) in
  {| self := self (with_input [Byte.x41; Byte.x42] [pc0; pc1] w_branch);
     store := <[1%positive :=
                  {| se_constraints :=
                       [pc0; pc1; ULT (FileLoad 0 2 1) (BVV 10 8);
                        Or (Not pc0) (Eq (BVS "x" 8) (BVV 1 8))];
                     posix_stdin := {| file_fd := 0; file_pos := 2 |};
                     cached := [pc0] |}]> empty_store |}.

End Toy.

(** *** Notions used in the properties *)

Section Notions.
Context `{E : Engine}.

(** What follows the comparison in one turn of the loop (lines 107-115):
    record the address, step, put the unsat paths back when the input
    was preconstrained, drop the unsat stash. *)
Definition after_compare (current : Path) (t : Tracer) (st : Store) : World :=
  let t := set_previous (Some (addr current)) t in
  let '(pg, st) := pg_step (path_group t) st in
  let pg := if preconstrain t then PG.stash "unsat" "active" pg else pg in
  {| self := set_path_group (PG.drop "unsat" pg) t; store := st |}.

End Notions.

(** What no method changes once the object is built, and the counter only
    grows. *)
Definition advances (w w' : World) : Prop :=
  crash_mode (self w') = crash_mode (self w)
  ∧ trace (self w') = trace (self w)
  ∧ preconstrain (self w') = preconstrain (self w)
  ∧ bb_cnt (self w) ≤ bb_cnt (self w').

(** The cursor is inside the trace or just past its end, the trace is not
    empty, and [previous], once set, is the block of the trace just before
    the cursor.  This holds when [__init__] is done and is kept by
    [next_branch] and [run]. *)
Definition tracer_ok (w : World) : Prop :=
  0 ≤ bb_cnt (self w) ≤ Z.of_nat (length (trace (self w)))
  ∧ trace (self w) ≠ []
  ∧ ∀ a, previous (self w) = Some a →
         index (trace (self w)) (bb_cnt (self w) - 1) = Some a.

(** The constraint that [_preconstrain_state] builds for the byte [b] at
    offset [i] of the input read from the file [fd]. *)
Definition preconstraint (fd : Z) (i : nat) (b : byte) : expr :=
  Eq (FileLoad fd (Z.of_nat i) 1) (BVV (byte.unsigned b) 8).

(** A constraint of that shape: a load from a file set equal to a value. *)
Definition is_byte_equality (c : expr) : Prop :=
  ∃ fd pos len value bits, c = Eq (FileLoad fd pos len) (BVV value bits).

(** One memory record of a predump file. *)
Record MemEntry : Type := mkMemEntry {
  me_start : Z;
  me_end : Z;
  me_content : list byte
}.

(** The record as the emulator writes it: start, end and length as 32-bit
    little-endian words, then the bytes. *)
Definition encode_entry (e : MemEntry) : list byte :=
  le_split 4 (me_start e) ++ le_split 4 (me_end e)
  ++ le_split 4 (Z.of_nat (length (me_content e))) ++ me_content e.

(** The start and the length fit their words, and the start is not the
    word that spells "REGS", which marks the register block. *)
Definition entry_ok (e : MemEntry) : Prop :=
  0 ≤ me_start e < 2 ^ 32
  ∧ me_start e ≠ le_combine REGS
  ∧ Z.of_nat (length (me_content e)) < 2 ^ 32.

(** The memory overlay of a list of records, written over [memory] in the
    order of the file: a later record replaces an earlier one with the
    same start. *)
Definition overlay (memory : Memory) (es : list MemEntry) : Memory :=
  foldl (λ m e, <[me_start e := me_content e]> m) memory es.

(** The register block has 312 bytes. *)
Definition regs_size : nat := 312.

(** A reader that only moves forward in the file, and has no loop. *)
Definition forward {A : Type} (m : Reader A) : Prop :=
  ∀ f, (length (m f).2 ≤ length f)%nat ∧ (m f).1 ≠ OutOfFuel.

(** *** More notions used in the properties *)

(** The tracer sits on one path whose block is the block it saw last and
    is not the block that the trace expects: the situation that the loop
    of [next_branch] lets pass as a second visit of a block. *)
Definition repeating (current : Path) (w : World) : Prop :=
  PG.active (path_group (self w)) = [current]
  ∧ PG.unsat (path_group (self w)) = []
  ∧ previous (self w) = Some (addr current)
  ∧ ∃ expected, index (trace (self w)) (bb_cnt (self w)) = Some expected
                ∧ addr current ≠ expected.

Module ToyX.

(** An engine like [Toy.step] that judges the successors listed in
    [infeasible] unsatisfiable: their paths go to the 'unsat' stash. *)
Definition step_unsat (succ : Z → list Z) (infeasible : list Z)
    (pg : PathGroup) (st : Store) : PathGroup * Store :=
  let act := PG.active pg in
  let next := flat_map (λ p, map (λ a, mkPath a (state p)) (succ (addr p))) act in
  let sat := List.filter (λ p, negb (bool_decide (addr p ∈ infeasible))) next in
  let unsat := List.filter (λ p, bool_decide (addr p ∈ infeasible)) next in
  (<["active" := sat]>
     (<["unsat" := PG.stash_of pg "unsat" ++ unsat]> pg), st).

#[local] Instance engine_unsat (succ : Z → list Z) (infeasible : list Z)
    : Engine := {|
  project_entry := λ _ _ regs, regs !!! "eip";
  factory_entry_state := λ _ st, (1%positive, <[1%positive := Toy.blank]> st);
  factory_path_group := λ prj l st, ({["active" := [mkPath (entry prj) l]]}, st);
  pg_step := step_unsat succ infeasible;
  downsize := Toy.clear_cache;
  downsize_constraints := λ _, eq_refl;
  downsize_stdin := λ _, eq_refl
|}.

(** 0x200 has the two successors 0x400 and 0x410. *)
Definition cfg_fork (a : Z) : list Z :=
  if decide (a = 0x200) then [0x400; 0x410] else [].

(** A block that is its own successor, as a path waiting in a system
    call looks to the tracer. *)
Definition cfg_loop (a : Z) : list Z := [a].

(** The tracer on the looping block 0x100, which it has matched already;
    the trace goes on to 0x200. *)
Definition w_loop : World :=
  {| self := Toy.tracer false [0x100; 0x200] 1 (Some 0x100)
               (<["unsat" := []]> (Toy.at_addrs [0x100]));
     store := Toy.empty_store |}.

(** At 0x100 of [Toy.cfg] with a trace that names a block which is none
    of its successors. *)
Definition w_off_trace : World :=
  Toy.world false [0x100; 0x999; 0x200] 0 None (Toy.at_addrs [0x100]).

(** A host on which neither the binary nor the emulator can be
    executed. *)
#[local] Instance host_missing : Host := {|
  module_dir := "tracer";
  os_access_X_OK := λ _, false;
  os_path_isfile := λ _, false;
  qemu_exec_trace := λ _ _ _, (0, Toy.log);
  qemu_predump := λ _ _, Toy.dump;
  int_base16 := Toy.int16
|}.

(** A log whose second block line has lost its brackets, and one whose
    second block line has no number between them. *)
Definition log_no_bracket : string :=
  ("Trace 0x7f0000 [08048000] " +:+ Toy.nl +:+
   "Trace 0x7f0040" +:+ Toy.nl +:+
   "Trace 0x7f0080 [08048100] " +:+ Toy.nl)%string.

Definition log_bad_hex : string :=
  ("Trace 0x7f0000 [08048000] " +:+ Toy.nl +:+
   "Trace 0x7f0040 [zz] " +:+ Toy.nl +:+
   "Trace 0x7f0080 [08048100] " +:+ Toy.nl)%string.

Definition host_log (log : string) : Host := {|
  module_dir := "tracer";
  os_access_X_OK := λ _, true;
  os_path_isfile := λ _, true;
  qemu_exec_trace := λ _ _ _, (0, log);
  qemu_predump := λ _ _, Toy.dump;
  int_base16 := Toy.int16
|}.

End ToyX.

(** The attributes of the tracer that [__init__] computes and that say
    what is traced: all of them but the cursor, [previous] and the path
    group. *)
Definition setup (t : Tracer)
    : string * list byte * bool * string * string * bool * list Z * list expr :=
  (binary t, input t, preconstrain t, base t, driller_qemu t,
   crash_mode t, trace t, preconstraints t).

(** *** The log of the emulator *)

(** The character [c] occurs in [s]. *)
Fixpoint occurs (c : ascii) (s : string) : bool :=
  match s with
  | EmptyString => false
  | String c' s' => bool_decide (c' = c) || occurs c s'
  end.

Definition newline : ascii := "010"%char.

(** The text of lines that each end in a newline, and then [tail]. *)
Definition lines_then (lines : list string) (tail : string) : string :=
  foldr (λ l acc, (l +:+ String newline acc)%string) tail lines.

(** A line of the log: a line that names a block, with the text before
    the bracket, between the brackets and after them, or another line. *)
Inductive LogLine : Type :=
| TraceLine (pre inside post : string)
| OtherLine (text : string).

Definition render (l : LogLine) : string :=
  match l with
  | TraceLine pre inside post =>
      ("Trace" +:+ pre +:+ "[" +:+ inside +:+ "]" +:+ post)%string
  | OtherLine text => text
  end.

(** The brackets of a block line are the first ones of the line, no other
    line starts with "Trace", and no line holds a newline. *)
Definition line_ok (l : LogLine) : Prop :=
  match l with
  | TraceLine pre inside post =>
      occurs "["%char pre = false
      ∧ occurs "["%char inside = false
      ∧ occurs "]"%char inside = false
      ∧ occurs newline (render l) = false
  | OtherLine text =>
      String.prefix "Trace" text = false ∧ occurs newline text = false
  end.

(** The text between the brackets of the block lines, in the order of the
    lines. *)
Definition hex_of (l : LogLine) : list string :=
  match l with
  | TraceLine _ inside _ => [inside]
  | OtherLine _ => []
  end.

(** Where the registers are in the register block, as the reads of
    [_load_backed] lay it out: the name, the offset of the first byte and
    the number of bytes of each register. *)
Definition reg_layout : list (string * nat * nat) :=
  [("eax", 0, 4); ("ebx", 4, 4); ("ecx", 8, 4); ("edx", 12, 4);
   ("esi", 16, 4); ("edi", 20, 4); ("ebp", 24, 4); ("esp", 28, 4);
   ("d", 32, 4); ("eip", 36, 4);
   ("st0", 40, 16); ("st1", 56, 16); ("st2", 72, 16); ("st3", 88, 16);
   ("st4", 104, 16); ("st5", 120, 16); ("st6", 136, 16); ("st7", 152, 16);
   ("fpu_t0", 168, 1); ("fpu_t1", 169, 1); ("fpu_t2", 170, 1);
   ("fpu_t3", 171, 1); ("fpu_t4", 172, 1); ("fpu_t5", 173, 1);
   ("fpu_t6", 174, 1); ("fpu_t7", 175, 1);
   ("ftop", 176, 4); ("mxcsr", 180, 4);
   ("xmm0", 184, 16); ("xmm1", 200, 16); ("xmm2", 216, 16);
   ("xmm3", 232, 16); ("xmm4", 248, 16); ("xmm5", 264, 16);
   ("xmm6", 280, 16); ("xmm7", 296, 16)]%nat.

(** The value of a register: the little-endian number in its bytes, and
    2 less for the instruction pointer. *)
Definition reg_value (rb : list byte) (name : string) (off size : nat) : Z :=
  let raw := le_combine (take size (drop off rb)) in
  if decide (name = "eip") then raw - 2 else raw.

(** The registers of a register block, by the layout. *)
Definition regs_of (rb : list byte) : Regs :=
  list_to_map
    ((λ '(name, off, size), (name, reg_value rb name off size)) <$> reg_layout).

(** A reader that takes exactly [n] bytes: it returns with the file moved
    on by [n] bytes when the file has them, and raises [struct.error]
    when it has not. *)
Definition consumes {A : Type} (n : nat) (m : Reader A) : Prop :=
  ∀ f, if decide (n ≤ length f)%nat
       then ∃ a, m f = (Returns a, drop n f)
       else (m f).1 = Raises StructError.

(** ** Part II: properties *)

(** *** The monad *)

Ltac unfold_monad :=
  unfold mbind, ST_bind, mret, ST_ret, get_self, modify_self, raise,
    out_of_fuel, getitem, try_except in *.

Lemma bind_returns {S A B : Type} (m : ST S A) (k : A → ST S B) s a s' :
  m s = (Returns a, s') → (m ≫= k) s = k a s'.
Proof. intros Hm. unfold mbind, ST_bind. by rewrite Hm. Qed.

Lemma bind_raises {S A B : Type} (m : ST S A) (k : A → ST S B) s e s' :
  m s = (Raises e, s') → (m ≫= k) s = (Raises e, s').
Proof. intros Hm. unfold mbind, ST_bind. by rewrite Hm. Qed.

Lemma bind_out_of_fuel {S A B : Type} (m : ST S A) (k : A → ST S B) s s' :
  m s = (OutOfFuel, s') → (m ≫= k) s = (OutOfFuel, s').
Proof. intros Hm. unfold mbind, ST_bind. by rewrite Hm. Qed.

(** Inversion of a bind that returns. *)
Lemma bind_returns_inv {S A B : Type} (m : ST S A) (k : A → ST S B) s b s2 :
  (m ≫= k) s = (Returns b, s2) →
  ∃ a s1, m s = (Returns a, s1) ∧ k a s1 = (Returns b, s2).
Proof.
  unfold mbind, ST_bind. destruct (m s) as [[a| |] s1]; intros Hk; try done.
  by exists a, s1.
Qed.

(** *** Stashes *)

Section StashFacts.
Implicit Types (pg : PathGroup) (p : Path).

Lemma stash_of_insert pg k l : PG.stash_of (<[k := l]> pg) k = l.
Proof. unfold PG.stash_of. by rewrite lookup_total_insert_eq. Qed.

Lemma stash_of_insert_ne pg k k' l :
  k ≠ k' → PG.stash_of (<[k := l]> pg) k' = PG.stash_of pg k'.
Proof. intros. unfold PG.stash_of. by rewrite lookup_total_insert_ne. Qed.

Lemma stash_of_drop pg k : PG.stash_of (PG.drop k pg) k = [].
Proof. apply stash_of_insert. Qed.

Lemma stash_of_drop_ne pg k k' :
  k ≠ k' → PG.stash_of (PG.drop k pg) k' = PG.stash_of pg k'.
Proof. apply stash_of_insert_ne. Qed.

Lemma stash_of_move_from pg f src dst :
  src ≠ dst →
  PG.stash_of (PG.move f src dst pg) src
  = List.filter (λ p, negb (f p)) (PG.stash_of pg src).
Proof.
  intros. unfold PG.move.
  by rewrite stash_of_insert_ne, stash_of_insert.
Qed.

Lemma stash_of_move_to pg f src dst :
  src ≠ dst →
  PG.stash_of (PG.move f src dst pg) dst
  = PG.stash_of pg dst ++ List.filter f (PG.stash_of pg src).
Proof.
  intros. unfold PG.move.
  by rewrite stash_of_insert, stash_of_insert_ne.
Qed.

Lemma stash_of_move_other pg f src dst k :
  k ≠ src → k ≠ dst →
  PG.stash_of (PG.move f src dst pg) k = PG.stash_of pg k.
Proof.
  intros. unfold PG.move.
  by rewrite !stash_of_insert_ne.
Qed.

End StashFacts.

(** *** next_branch: one turn of the loop *)

Section NextBranch.
Context `{E : Engine}.
Implicit Types (w : World) (current : Path).

Lemma sync_step_match w current :
  index (trace (self w)) (bb_cnt (self w)) = Some (addr current) →
  sync_step current w
  = (Returns tt,
     after_compare current
       (set_bb_cnt (bb_cnt (self w) + 1) (self w)) (store w)).
Proof.
  intros Hi. unfold sync_step, after_compare, step_path_group.
  unfold_monad. rewrite Hi. simpl.
  rewrite decide_True by done. simpl.
  destruct (pg_step _ _) as [pg st]. simpl.
  by destruct (preconstrain (self w)).
Qed.

Lemma sync_step_repeat w current expected :
  index (trace (self w)) (bb_cnt (self w)) = Some expected →
  addr current ≠ expected →
  previous (self w) = Some (addr current) →
  sync_step current w
  = (Returns tt, after_compare current (self w) (store w)).
Proof.
  intros Hi Hne Hprev. unfold sync_step, after_compare, step_path_group.
  unfold_monad. rewrite Hi. simpl.
  rewrite decide_False by done. rewrite decide_True by done. simpl.
  destruct w as [t st]. simpl in *.
  destruct (pg_step _ _) as [pg st']. simpl.
  by destruct (preconstrain t).
Qed.

Lemma sync_step_misfollow w current expected :
  index (trace (self w)) (bb_cnt (self w)) = Some expected →
  addr current ≠ expected →
  previous (self w) ≠ Some (addr current) →
  sync_step current w = (Raises TracerMisfollowError, w).
Proof.
  intros Hi Hne Hprev. unfold sync_step. unfold_monad. rewrite Hi. simpl.
  rewrite decide_False by done. by rewrite decide_False by done.
Qed.

Lemma sync_step_oob w current :
  index (trace (self w)) (bb_cnt (self w)) = None →
  sync_step current w = (Raises IndexError, w).
Proof. intros Hi. unfold sync_step. unfold_monad. by rewrite Hi. Qed.

Lemma after_compare_bb_cnt current t st :
  bb_cnt (self (after_compare current t st)) = bb_cnt t.
Proof. unfold after_compare. simpl. by destruct (pg_step _ _). Qed.

Lemma after_compare_previous current t st :
  previous (self (after_compare current t st)) = Some (addr current).
Proof. unfold after_compare. simpl. by destruct (pg_step _ _). Qed.

Lemma after_compare_trace current t st :
  trace (self (after_compare current t st)) = trace t.
Proof. unfold after_compare. simpl. by destruct (pg_step _ _). Qed.

Lemma after_compare_crash_mode current t st :
  crash_mode (self (after_compare current t st)) = crash_mode t.
Proof. unfold after_compare. simpl. by destruct (pg_step _ _). Qed.

(** The loop of [next_branch] with one active path runs its body and
    goes round again. *)
Lemma next_branch_unfold fuel w current :
  PG.active (path_group (self w)) = [current] →
  next_branch (S fuel) w
  = match sync_step current w with
    | (Returns _, w') => next_branch fuel w'
    | (Raises e, w') => (Raises e, w')
    | (OutOfFuel, w') => (OutOfFuel, w')
    end.
Proof.
  intros Hact. unfold next_branch. simpl sync_loop.
  unfold mbind at 1 2. unfold ST_bind at 1 2. unfold get_self at 1.
  rewrite Hact. unfold mbind at 1. unfold ST_bind at 1.
  by destruct (sync_step current w) as [[[]| |] w'].
Qed.

(** C1: while exactly one path is active, one turn of the loop of
    [next_branch] compares the path's address with [trace[bb_cnt]]: on a
    match [bb_cnt] grows by exactly 1; otherwise, when the address is
    [previous], [bb_cnt] stays; otherwise [TracerMisfollowError] is
    raised at once, nothing is stepped and the tracer is left as it was.
    In the two cases that go on, [previous] becomes the current address,
    and [next_branch] continues from there. *)
Theorem next_branch_compare w current expected :
  PG.active (path_group (self w)) = [current] →
  index (trace (self w)) (bb_cnt (self w)) = Some expected →
  (addr current = expected →
     ∃ w', sync_step current w = (Returns tt, w')
           ∧ bb_cnt (self w') = bb_cnt (self w) + 1
           ∧ previous (self w') = Some (addr current)
           ∧ ∀ fuel, next_branch (S fuel) w = next_branch fuel w')
  ∧ (addr current ≠ expected → previous (self w) = Some (addr current) →
     ∃ w', sync_step current w = (Returns tt, w')
           ∧ bb_cnt (self w') = bb_cnt (self w)
           ∧ previous (self w') = Some (addr current)
           ∧ ∀ fuel, next_branch (S fuel) w = next_branch fuel w')
  ∧ (addr current ≠ expected → previous (self w) ≠ Some (addr current) →
     sync_step current w = (Raises TracerMisfollowError, w)
     ∧ ∀ fuel, next_branch (S fuel) w = (Raises TracerMisfollowError, w)).
Proof.
  intros Hact Hi. split_and!.
  - intros <-. eexists. split; [by apply sync_step_match|].
    rewrite after_compare_bb_cnt, after_compare_previous. split_and!; try done.
    intros fuel. rewrite (next_branch_unfold _ _ _ Hact).
    by rewrite sync_step_match.
  - intros Hne Hprev. eexists. split; [by eapply sync_step_repeat|].
    rewrite after_compare_bb_cnt, after_compare_previous. split_and!; try done.
    intros fuel. rewrite (next_branch_unfold _ _ _ Hact).
    by erewrite sync_step_repeat.
  - intros Hne Hprev. split; [by eapply sync_step_misfollow|].
    intros fuel. rewrite (next_branch_unfold _ _ _ Hact).
    by erewrite sync_step_misfollow.
Qed.

End NextBranch.

(** Three turns of the loop on the toy engine: a match, a repeat of the
    previous block, and a misfollow. *)
Lemma next_branch_compare_witness :
  let E := Toy.engine Toy.cfg in
  let p := mkPath 0x100 1%positive in
  (∃ w', sync_step p (Toy.world false [0x100; 0x200] 0 None (Toy.at_addrs [0x100]))
         = (Returns tt, w')
         ∧ bb_cnt (self w') = 0 + 1 ∧ previous (self w') = Some 0x100)
  ∧ (∃ w', sync_step p (Toy.world false [0x100; 0x200] 1 (Some 0x100) (Toy.at_addrs [0x100]))
           = (Returns tt, w')
           ∧ bb_cnt (self w') = 1 ∧ previous (self w') = Some 0x100)
  ∧ (∀ fuel,
       next_branch (S fuel) (Toy.world false [0x100; 0x200] 1 None (Toy.at_addrs [0x100]))
       = (Raises TracerMisfollowError,
          Toy.world false [0x100; 0x200] 1 None (Toy.at_addrs [0x100]))).
Proof.
  intros E p. split_and!.
  - destruct (next_branch_compare
                (Toy.world false [0x100; 0x200] 0 None (Toy.at_addrs [0x100]))
                p 0x100 eq_refl eq_refl) as (Hm & _ & _).
    destruct (Hm eq_refl) as (w' & ? & ? & ? & _). by exists w'.
  - destruct (next_branch_compare
                (Toy.world false [0x100; 0x200] 1 (Some 0x100) (Toy.at_addrs [0x100]))
                p 0x200 eq_refl eq_refl) as (_ & Hr & _).
    destruct (Hr ltac:(done) eq_refl) as (w' & ? & ? & ? & _). by exists w'.
  - destruct (next_branch_compare
                (Toy.world false [0x100; 0x200] 1 None (Toy.at_addrs [0x100]))
                p 0x200 eq_refl eq_refl) as (_ & _ & Hx).
    apply Hx; done.
Defined.

(** *** What the methods leave alone *)

#[local] Instance advances_refl : Reflexive advances.
Proof. intros w. unfold advances. split_and!; (done || lia). Qed.

#[local] Instance advances_trans : Transitive advances.
Proof.
  intros w1 w2 w3 (? & ? & ? & ?) (? & ? & ? & ?).
  unfold advances. split_and!; (congruence || lia).
Qed.

Lemma advances_bind {A B : Type} (m : M A) (k : A → M B) :
  (∀ w, advances w (m w).2) → (∀ a w, advances w (k a w).2) →
  ∀ w, advances w ((m ≫= k) w).2.
Proof.
  intros Hm Hk w. unfold mbind, ST_bind. specialize (Hm w).
  destruct (m w) as [[a| |] w1]; simpl in *; try done.
  by etrans; [|apply Hk].
Qed.

Lemma advances_try_except {A : Type} (m handler : M A) e :
  (∀ w, advances w (m w).2) → (∀ w, advances w (handler w).2) →
  ∀ w, advances w (try_except m e handler w).2.
Proof.
  intros Hm Hh w. unfold try_except. specialize (Hm w).
  destruct (m w) as [[a|e'|] w1]; simpl in *; try done.
  destruct (decide (e' = e)); [|done].
  by etrans; [|apply Hh].
Qed.

Lemma advances_getitem {A : Type} (l : list A) i w :
  advances w (getitem l i w).2.
Proof. unfold getitem. by destruct (index l i). Qed.

Lemma advances_set_path_group w pg :
  advances w {| self := set_path_group pg (self w); store := store w |}.
Proof. unfold advances. simpl. split_and!; (done || lia). Qed.

Section Advances.
Context `{E : Engine}.
Implicit Types (w : World) (current : Path).

Lemma advances_after_compare current t st w :
  crash_mode t = crash_mode (self w) → trace t = trace (self w) →
  preconstrain t = preconstrain (self w) → bb_cnt (self w) ≤ bb_cnt t →
  advances w (after_compare current t st).
Proof.
  intros. unfold advances, after_compare. simpl.
  by destruct (pg_step _ _).
Qed.

Lemma advances_sync_step current w : advances w (sync_step current w).2.
Proof.
  destruct (index (trace (self w)) (bb_cnt (self w))) as [expected|] eqn:Hi.
  - destruct (decide (addr current = expected)) as [<-|Hne].
    { rewrite sync_step_match by done. simpl.
      apply advances_after_compare; simpl; (done || lia). }
    destruct (decide (previous (self w) = Some (addr current))).
    + erewrite sync_step_repeat by done. simpl.
      apply advances_after_compare; simpl; (done || lia).
    + by erewrite sync_step_misfollow.
  - by rewrite sync_step_oob.
Qed.

Lemma advances_sync_loop fuel w : advances w (sync_loop fuel w).2.
Proof.
  revert w. induction fuel as [|fuel IH]; intros w; simpl;
    unfold mbind at 1, ST_bind at 1, get_self at 1;
    destruct (PG.active _) as [|current [|]]; try done.
  apply advances_bind; [apply advances_sync_step|auto].
Qed.

Lemma advances_take_branch w : advances w (take_branch w).2.
Proof.
  unfold take_branch. unfold_monad.
  destruct (index _ _); simpl; [|done].
  unfold advances. simpl. split_and!; (done || lia).
Qed.

Lemma advances_next_branch fuel w : advances w (next_branch fuel w).2.
Proof.
  unfold next_branch. apply advances_bind.
  - apply advances_sync_loop.
  - intros _. apply advances_take_branch.
Qed.

Lemma advances_run_turn fuel branches w :
  advances w (run_turn fuel branches w).2.
Proof.
  unfold run_turn. apply advances_try_except.
  - apply advances_bind; [apply advances_next_branch|done].
  - clear w. intros w. unfold mbind at 1, ST_bind at 1, get_self at 1.
    destruct (crash_mode (self w)); [|done].
    apply advances_bind; [apply advances_getitem|done].
Qed.

Lemma advances_run_loop fuel calls branches w :
  advances w (run_loop fuel calls branches w).2.
Proof.
  revert branches w. induction calls as [|calls IH]; intros branches w; simpl;
    destruct (PG.active branches); try done.
  apply advances_bind; [apply advances_run_turn|].
  intros [b|b] w'; [apply IH|done].
Qed.

Lemma advances_run fuel w : advances w (run fuel w).2.
Proof.
  unfold run. apply advances_bind; [apply advances_next_branch|].
  intros b w'. apply advances_run_loop.
Qed.

Lemma advances_remove_preconstraints path w :
  advances w (remove_preconstraints path w).2.
Proof.
  unfold remove_preconstraints. by destruct (preconstrain (self w)).
Qed.

Lemma advances_current_bb w : advances w (_current_bb w).2.
Proof.
  unfold _current_bb. unfold_monad.
  destruct (index _ _); simpl; [done|].
  by destruct (crash_mode (self w)).
Qed.

End Advances.

(** *** Construction: the windup *)

Lemma index_Some_lt {A : Type} (l : list A) i x :
  index l i = Some x → i < Z.of_nat (length l).
Proof.
  unfold index. destruct (decide (0 ≤ i)); [|lia].
  intros Hl%lookup_lt_Some. lia.
Qed.

Lemma index_nonneg {A : Type} (l : list A) i :
  0 ≤ i → index l i = l !! Z.to_nat i.
Proof. intros. unfold index. by rewrite decide_True. Qed.

Lemma index_past_end {A : Type} (l : list A) i :
  Z.of_nat (length l) ≤ i → index l i = None.
Proof.
  intros. rewrite index_nonneg by lia. apply lookup_ge_None. lia.
Qed.

Section Construction.
Context `{H : Host} `{E : Engine}.
Implicit Types (w : World).

Lemma advances_set_bb_cnt w n :
  bb_cnt (self w) ≤ n →
  advances w {| self := set_bb_cnt n (self w); store := store w |}.
Proof. intros. unfold advances. simpl. split_and!; (done || lia). Qed.

Lemma windup_unfold fuel target w :
  windup fuel target w
  = match index (trace (self w)) (bb_cnt (self w)) with
    | None => (Raises IndexError, w)
    | Some a =>
        if decide (a ≠ target) then
          match fuel with
          | O => (OutOfFuel, w)
          | S fuel' =>
              windup fuel' target
                {| self := set_bb_cnt (bb_cnt (self w) + 1) (self w);
                   store := store w |}
          end
        else (Returns tt, w)
    end.
Proof.
  destruct fuel; simpl; unfold_monad;
    destruct (index _ _); simpl; try done; by destruct (decide _).
Qed.

Lemma advances_windup fuel target w : advances w (windup fuel target w).2.
Proof.
  revert w. induction fuel as [|fuel IH]; intros w; rewrite windup_unfold;
    destruct (index _ _); try done; destruct (decide _); try done.
  etrans; [|apply IH]. apply advances_set_bb_cnt. lia.
Qed.

(** The windup is total: with the fuel that [_prepare_paths] gives it, it
    returns or raises [IndexError]. *)
Lemma windup_total fuel target w :
  Z.of_nat (length (trace (self w))) - bb_cnt (self w) ≤ Z.of_nat fuel →
  (windup fuel target w).1 ≠ OutOfFuel.
Proof.
  revert w. induction fuel as [|fuel IH]; intros w Hf; rewrite windup_unfold;
    destruct (index _ _) eqn:Hi; try done; destruct (decide _); try done.
  - apply index_Some_lt in Hi. lia.
  - apply IH. simpl. lia.
Qed.

Lemma advances_engine {A : Type} (f : Store → A * Store) w :
  advances w (engine f w).2.
Proof. unfold engine. by destruct (f (store w)). Qed.

Lemma load_backed_world w : (_load_backed w).2 = w.
Proof.
  unfold _load_backed. unfold_monad.
  by destruct (load_predump _) as [[? ?]| |].
Qed.

Lemma advances_preconstrain_bytes entry_state bs w :
  advances w (preconstrain_bytes entry_state bs w).2.
Proof.
  revert w. induction bs as [|b bs IH]; intros w; simpl; [done|].
  apply advances_bind; [|auto].
  clear. intros w. unfold preconstrain_byte. simpl.
  unfold advances. simpl. split_and!; (done || lia).
Qed.

Lemma advances_preconstrain_state entry_state w :
  advances w (_preconstrain_state entry_state w).2.
Proof.
  unfold _preconstrain_state. unfold mbind at 1, ST_bind at 1, get_self at 1.
  apply advances_bind; [apply advances_preconstrain_bytes|].
  intros _ w'. unfold stdin_seek, advances. simpl. split_and!; (done || lia).
Qed.

Lemma advances_prepare_paths w : advances w (_prepare_paths w).2.
Proof.
  unfold _prepare_paths. apply advances_bind.
  { intros w'. by rewrite load_backed_world. }
  clear w. intros project w. apply advances_bind; [apply advances_engine|].
  clear w. intros entry_state w.
  unfold mbind at 1, ST_bind at 1, get_self at 1.
  generalize (Z.to_nat (Z.of_nat (length (trace (self w))) - bb_cnt (self w))).
  intros fuel. revert w.
  apply advances_bind; [apply advances_windup|].
  intros _ w. unfold mbind at 1, ST_bind at 1, get_self at 1.
  destruct (preconstrain (self w)); revert w.
  - apply advances_bind; [apply advances_preconstrain_state|].
    intros _. apply advances_bind; [apply advances_engine|].
    intros pg w'. apply advances_engine.
  - apply advances_bind; [done|].
    intros _. apply advances_bind; [apply advances_engine|].
    intros pg w'. apply advances_engine.
Qed.

(** C9: the cursor [bb_cnt] never decreases: whatever the outcome of the
    windup at construction, of [next_branch] or of [run] (a return, an
    exception, or a loop still running), [bb_cnt] afterwards is at least
    what it was before. *)
Theorem bb_cnt_monotone :
  (∀ fuel target w, bb_cnt (self w) ≤ bb_cnt (self (windup fuel target w).2))
  ∧ (∀ w, bb_cnt (self w) ≤ bb_cnt (self (_prepare_paths w).2))
  ∧ (∀ fuel w, bb_cnt (self w) ≤ bb_cnt (self (next_branch fuel w).2))
  ∧ (∀ fuel w, bb_cnt (self w) ≤ bb_cnt (self (run fuel w).2)).
Proof.
  split_and!; intros.
  - apply advances_windup.
  - apply advances_prepare_paths.
  - apply advances_next_branch.
  - apply advances_run.
Qed.

End Construction.

(** *** next_branch: taking the branch *)

Section TakeBranch.
Context `{E : Engine}.
Implicit Types (w : World) (pg rpg : PathGroup) (p : Path).

(** The loop of [next_branch] only ends with no or several active paths. *)
Lemma sync_loop_exit fuel w w1 :
  sync_loop fuel w = (Returns tt, w1) →
  length (PG.active (path_group (self w1))) ≠ 1%nat.
Proof.
  revert w. induction fuel as [|fuel IH]; intros w; simpl;
    unfold mbind at 1, ST_bind at 1, get_self at 1;
    destruct (PG.active (path_group (self w))) as [|current [|]] eqn:Hact;
    try done; try (intros [= <-]; by rewrite Hact).
  intros (_ & w2 & _ & Hloop)%bind_returns_inv. eauto.
Qed.

Lemma take_branch_returns w target :
  index (trace (self w)) (bb_cnt (self w)) = Some target →
  let rpg := PG.stash_not_addr target "missed" (path_group (self w)) in
  take_branch w
  = (Returns rpg,
     {| self := set_path_group (PG.drop "missed" rpg) (self w);
        store := store w |}).
Proof.
  intros Hi. unfold take_branch. unfold_monad. rewrite Hi. simpl.
  by destruct w as [[] ?].
Qed.

Lemma take_branch_oob w :
  index (trace (self w)) (bb_cnt (self w)) = None →
  take_branch w = (Raises IndexError, w).
Proof. intros Hi. unfold take_branch. unfold_monad. by rewrite Hi. Qed.

(** [next_branch] once its loop has ended in [w1]. *)
Lemma next_branch_exit fuel w w1 target :
  sync_loop fuel w = (Returns tt, w1) →
  index (trace (self w1)) (bb_cnt (self w1)) = Some target →
  let rpg := PG.stash_not_addr target "missed" (path_group (self w1)) in
  next_branch fuel w
  = (Returns rpg,
     {| self := set_path_group (PG.drop "missed" rpg) (self w1);
        store := store w1 |}).
Proof.
  intros Hloop Hi. unfold next_branch.
  rewrite (bind_returns _ _ _ _ _ Hloop). by apply take_branch_returns.
Qed.

Lemma active_stash_not_addr pg target :
  PG.active (PG.stash_not_addr target "missed" pg)
  = List.filter (λ p, bool_decide (addr p = target)) (PG.active pg).
Proof.
  unfold PG.active, PG.stash_not_addr.
  rewrite stash_of_move_from by done.
  apply List.filter_ext. intros p. by rewrite negb_involutive.
Qed.

Lemma missed_stash_not_addr pg target :
  PG.missed (PG.stash_not_addr target "missed" pg)
  = PG.missed pg
    ++ List.filter (λ p, negb (bool_decide (addr p = target))) (PG.active pg).
Proof.
  unfold PG.missed, PG.stash_not_addr. by rewrite stash_of_move_to.
Qed.

Lemma elem_of_filter_bool (f : Path → bool) (l : list Path) p :
  p ∈ List.filter f l ↔ p ∈ l ∧ f p = true.
Proof. rewrite !list_elem_of_In. apply List.filter_In. Qed.

(** C4: when the loop of [next_branch] has ended at a branch point, the
    active paths whose address is not [trace[bb_cnt]] are moved to the
    'missed' stash and that stash is then dropped from the tracer's own
    path group: its 'active' stash keeps exactly the paths at
    [trace[bb_cnt]], its 'missed' stash is empty, the other stashes are
    untouched, and a moved path, which was in no other stash, is in no
    stash of the tracer's path group afterwards. *)
Theorem next_branch_prunes fuel w w1 target :
  sync_loop fuel w = (Returns tt, w1) →
  (1 < length (PG.active (path_group (self w1))))%nat →
  index (trace (self w1)) (bb_cnt (self w1)) = Some target →
  ∃ rpg w',
    next_branch fuel w = (Returns rpg, w')
    ∧ let pg := path_group (self w1) in
      let pg' := path_group (self w') in
      PG.missed rpg
      = PG.missed pg
        ++ List.filter (λ p, negb (bool_decide (addr p = target))) (PG.active pg)
      ∧ pg' = PG.drop "missed" rpg
      ∧ PG.active pg'
        = List.filter (λ p, bool_decide (addr p = target)) (PG.active pg)
      ∧ (∀ p, p ∈ PG.active pg' → addr p = target)
      ∧ PG.missed pg' = []
      ∧ (∀ k, k ≠ "active" → k ≠ "missed" →
           PG.stash_of pg' k = PG.stash_of pg k)
      ∧ (∀ p, p ∈ PG.active pg → addr p ≠ target →
           (∀ k, k ≠ "active" → k ≠ "missed" → p ∉ PG.stash_of pg k) →
           ∀ k, p ∉ PG.stash_of pg' k).
Proof.
  intros Hloop _ Hi. eexists _, _. split; [by apply next_branch_exit|].
  simpl.
  assert (Hact : PG.active (PG.drop "missed"
                   (PG.stash_not_addr target "missed" (path_group (self w1))))
                 = List.filter (λ p, bool_decide (addr p = target))
                     (PG.active (path_group (self w1)))).
  { unfold PG.active at 1. rewrite stash_of_drop_ne by done.
    apply active_stash_not_addr. }
  assert (Hother : ∀ k, k ≠ "active" → k ≠ "missed" →
            PG.stash_of (PG.drop "missed"
              (PG.stash_not_addr target "missed" (path_group (self w1)))) k
            = PG.stash_of (path_group (self w1)) k).
  { intros k ? ?. rewrite stash_of_drop_ne by done.
    unfold PG.stash_not_addr. by rewrite stash_of_move_other. }
  split_and!.
  - apply missed_stash_not_addr.
  - done.
  - done.
  - intros p. rewrite Hact. intros [_ Hp]%elem_of_filter_bool.
    by apply bool_decide_eq_true in Hp.
  - apply stash_of_drop.
  - done.
  - intros p Hp Hne Hdisj k.
    destruct (decide (k = "missed")) as [->|Hm].
    { rewrite stash_of_drop. apply not_elem_of_nil. }
    destruct (decide (k = "active")) as [->|Ha].
    { fold (PG.active (PG.drop "missed"
              (PG.stash_not_addr target "missed" (path_group (self w1))))).
      rewrite Hact.
      intros [_ Hq]%elem_of_filter_bool. by apply bool_decide_eq_true in Hq. }
    rewrite Hother by done. by apply Hdisj.
Qed.

(** C10: the path group that [next_branch] returns at a branch point is
    the one from before the 'missed' stash is dropped: every active path
    that the trace did not take is in the 'missed' stash of the returned
    group, while the tracer's own path group is the returned one with
    'missed' emptied, so the same paths are not in its 'missed' stash nor
    in its 'active' stash. *)
Theorem next_branch_returns_missed fuel w w1 target :
  sync_loop fuel w = (Returns tt, w1) →
  (1 < length (PG.active (path_group (self w1))))%nat →
  index (trace (self w1)) (bb_cnt (self w1)) = Some target →
  ∃ rpg w',
    next_branch fuel w = (Returns rpg, w')
    ∧ rpg = PG.stash_not_addr target "missed" (path_group (self w1))
    ∧ path_group (self w') = PG.drop "missed" rpg
    ∧ (∀ p, p ∈ PG.active (path_group (self w1)) → addr p ≠ target →
         p ∈ PG.missed rpg
         ∧ (p ∉ PG.missed (path_group (self w')))
         ∧ (p ∉ PG.active (path_group (self w'))))
    ∧ PG.active rpg = PG.active (path_group (self w')).
Proof.
  intros Hloop _ Hi. eexists _, _. split; [by apply next_branch_exit|].
  simpl. split_and!; try done.
  - intros p Hp Hne. split_and!.
    + rewrite missed_stash_not_addr. apply elem_of_app. right.
      apply elem_of_filter_bool. split; [done|].
      by rewrite bool_decide_eq_false_2.
    + unfold PG.missed. rewrite stash_of_drop. apply not_elem_of_nil.
    + unfold PG.active. rewrite stash_of_drop_ne by done.
      fold (PG.active (PG.stash_not_addr target "missed" (path_group (self w1)))).
      rewrite active_stash_not_addr.
      intros [_ Hq]%elem_of_filter_bool. by apply bool_decide_eq_true in Hq.
  - unfold PG.active. by rewrite stash_of_drop_ne.
Qed.

End TakeBranch.

(** The branch at 0x100 of the toy graph, with the trace going to 0x200:
    the paths at 0x300 and 0x500 leave the tracer's path group. *)
Lemma next_branch_prunes_witness :
  let E := Toy.engine Toy.cfg in
  ∃ rpg w',
    next_branch 5 Toy.w_branch = (Returns rpg, w')
    ∧ PG.active (path_group (self w')) = [mkPath 0x200 1%positive]
    ∧ PG.missed (path_group (self w')) = []
    ∧ PG.missed rpg = [mkPath 0x300 1%positive; mkPath 0x500 1%positive].
Proof.
  intros E.
  destruct (next_branch_prunes 5 Toy.w_branch (sync_loop 5 Toy.w_branch).2 0x200)
    as (rpg & w' & Hnb & Hmissed & _ & Hact & _ & Hempty & _).
  - vm_compute. reflexivity.
  - apply Nat.ltb_lt. vm_compute. reflexivity.
  - vm_compute. reflexivity.
  - exists rpg, w'. split_and!; [done| | |].
    + rewrite Hact. vm_compute. reflexivity.
    + done.
    + rewrite Hmissed. vm_compute. reflexivity.
Defined.

(** The same branch: the returned group still holds the two paths not
    taken in 'missed', the tracer's own group does not. *)
Lemma next_branch_returns_missed_witness :
  let E := Toy.engine Toy.cfg in
  ∃ rpg w',
    next_branch 5 Toy.w_branch = (Returns rpg, w')
    ∧ mkPath 0x300 1%positive ∈ PG.missed rpg
    ∧ mkPath 0x500 1%positive ∈ PG.missed rpg
    ∧ (mkPath 0x300 1%positive ∉ PG.missed (path_group (self w')))
    ∧ (mkPath 0x500 1%positive ∉ PG.missed (path_group (self w'))).
Proof.
  intros E.
  destruct (next_branch_returns_missed 5 Toy.w_branch
              (sync_loop 5 Toy.w_branch).2 0x200)
    as (rpg & w' & Hnb & _ & _ & Hmoved & _).
  - vm_compute. reflexivity.
  - apply Nat.ltb_lt. vm_compute. reflexivity.
  - vm_compute. reflexivity.
  - exists rpg, w'.
    destruct (Hmoved (mkPath 0x300 1%positive)) as (? & ? & _).
    { vm_compute. apply list_elem_of_In. simpl. tauto. }
    { done. }
    destruct (Hmoved (mkPath 0x500 1%positive)) as (? & ? & _).
    { vm_compute. apply list_elem_of_In. simpl. tauto. }
    { done. }
    done.
Defined.

(** *** Fuel: more of it never changes an outcome *)

Section Fuel.
Context `{E : Engine}.
Implicit Types (w : World) (pg branches : PathGroup).

Lemma sync_loop_unfold fuel w :
  sync_loop fuel w
  = match PG.active (path_group (self w)) with
    | [current] =>
        match fuel with
        | O => (OutOfFuel, w)
        | S fuel' =>
            match sync_step current w with
            | (Returns _, w') => sync_loop fuel' w'
            | (Raises e, w') => (Raises e, w')
            | (OutOfFuel, w') => (OutOfFuel, w')
            end
        end
    | _ => (Returns tt, w)
    end.
Proof.
  destruct fuel; simpl; unfold mbind at 1, ST_bind at 1, get_self at 1;
    destruct (PG.active _) as [|current [|]]; try done.
Qed.

Lemma sync_loop_mono n m w r w' :
  sync_loop n w = (r, w') → r ≠ OutOfFuel → (n ≤ m)%nat →
  sync_loop m w = (r, w').
Proof.
  revert m w. induction n as [|n IH]; intros m w; rewrite !sync_loop_unfold;
    destruct (PG.active _) as [|current [|]]; try done.
  - by intros [= <- <-].
  - intros Hn Hr Hle. destruct m as [|m]; [lia|].
    destruct (sync_step current w) as [[[]| |] w1]; try done.
    apply IH; [done..|lia].
Qed.

Lemma next_branch_mono n m w r w' :
  next_branch n w = (r, w') → r ≠ OutOfFuel → (n ≤ m)%nat →
  next_branch m w = (r, w').
Proof.
  unfold next_branch, mbind, ST_bind. intros Hn Hr Hle.
  destruct (sync_loop n w) as [[[]|e|] w1] eqn:Hloop.
  - by rewrite (sync_loop_mono n m w _ _ Hloop).
  - injection Hn as <- <-. by rewrite (sync_loop_mono n m w _ _ Hloop).
  - by injection Hn as <- <-.
Qed.

Lemma run_turn_unfold fuel branches w :
  run_turn fuel branches w
  = match next_branch fuel w with
    | (Returns b, w') => (Returns (Continue b), w')
    | (Raises e, w') =>
        if decide (e = IndexError) then
          if crash_mode (self w') then
            match index (trace (self w')) (bb_cnt (self w') - 1) with
            | Some _ =>
                (Returns (Break (PG.stash "active" "crashed"
                                   (path_group (self w')))), w')
            | None => (Raises IndexError, w')
            end
          else (Returns (Continue branches), w')
        else (Raises e, w')
    | (OutOfFuel, w') => (OutOfFuel, w')
    end.
Proof.
  unfold run_turn, try_except. unfold mbind at 1, ST_bind at 1.
  destruct (next_branch fuel w) as [[b|e|] w1]; try done.
  destruct (decide (e = IndexError)); [|done].
  unfold_monad. destruct (crash_mode (self w1)); [|done].
  by destruct (index _ _).
Qed.

Lemma run_turn_mono n m branches w r w' :
  run_turn n branches w = (r, w') → r ≠ OutOfFuel → (n ≤ m)%nat →
  run_turn m branches w = (r, w').
Proof.
  rewrite !run_turn_unfold. intros Hn Hr Hle.
  destruct (next_branch n w) as [[b|e|] w1] eqn:Hnb.
  - by rewrite (next_branch_mono n m w _ _ Hnb).
  - by rewrite (next_branch_mono n m w _ _ Hnb).
  - by injection Hn as <- <-.
Qed.

Lemma run_loop_mono n m c d branches w r w' :
  run_loop n c branches w = (r, w') → r ≠ OutOfFuel →
  (n ≤ m)%nat → (c ≤ d)%nat →
  run_loop m d branches w = (r, w').
Proof.
  revert d branches w. induction c as [|c IH]; intros d branches w; simpl.
  - destruct (PG.active branches) eqn:Hact.
    + intros Hr _ _ _. destruct d; simpl; by rewrite Hact.
    + by intros [= <- <-].
  - destruct (PG.active branches) eqn:Hact.
    + intros Hr _ _ _. destruct d; simpl; by rewrite Hact.
    + intros Hn Hr Hnm Hcd. destruct d as [|d]; [lia|]. simpl. rewrite Hact.
      revert Hn. unfold mbind, ST_bind.
      destruct (run_turn n branches w) as [[[b|b]|e|] w1] eqn:Hturn;
        intros Hn.
      * rewrite (run_turn_mono n m _ _ _ _ Hturn) by done.
        apply IH; [done..|lia].
      * by rewrite (run_turn_mono n m _ _ _ _ Hturn).
      * by rewrite (run_turn_mono n m _ _ _ _ Hturn).
      * by injection Hn as <- <-.
Qed.

(** Once [run] returns or raises with some fuel, it does the same with
    any larger fuel. *)
Lemma run_mono n m w r w' :
  run n w = (r, w') → r ≠ OutOfFuel → (n ≤ m)%nat → run m w = (r, w').
Proof.
  unfold run, mbind, ST_bind. intros Hn Hr Hle.
  destruct (next_branch n w) as [[b|e|] w1] eqn:Hnb.
  - rewrite (next_branch_mono n m w _ _ Hnb) by done.
    by apply (run_loop_mono n m n m).
  - by rewrite (next_branch_mono n m w _ _ Hnb).
  - by injection Hn as <- <-.
Qed.

End Fuel.

(** *** The end of the trace *)

Section Exhaustion.
Context `{E : Engine}.
Implicit Types (w : World) (pg branches : PathGroup).

(** With the cursor past the end of the trace [next_branch] raises
    [IndexError] and changes nothing (or the model has no fuel to enter
    the loop). *)
Lemma next_branch_exhausted fuel w :
  index (trace (self w)) (bb_cnt (self w)) = None →
  next_branch fuel w = (Raises IndexError, w)
  ∨ next_branch fuel w = (OutOfFuel, w).
Proof.
  intros Hi. unfold next_branch, mbind, ST_bind. rewrite sync_loop_unfold.
  destruct (PG.active _) as [|current [|]].
  - left. by apply take_branch_oob.
  - destruct fuel; [by right|]. left. by rewrite sync_step_oob.
  - left. by apply take_branch_oob.
Qed.

(** Without crash mode the handler in [run] does nothing, [branches] is
    still the old group, and the loop calls [next_branch] again, for
    ever. *)
Lemma run_loop_exhausted fuel calls branches w :
  index (trace (self w)) (bb_cnt (self w)) = None →
  crash_mode (self w) = false →
  PG.active branches ≠ [] →
  run_loop fuel calls branches w = (OutOfFuel, w).
Proof.
  intros Hi Hcrash Hact. induction calls as [|calls IH]; simpl;
    destruct (PG.active branches); try done.
  unfold mbind, ST_bind. rewrite run_turn_unfold.
  destruct (next_branch_exhausted fuel w Hi) as [-> | ->]; [|done].
  rewrite decide_True by done. by rewrite Hcrash.
Qed.

(** An [IndexError] out of [next_branch] is the end of the trace. *)
Lemma sync_loop_raises fuel w e w' :
  sync_loop fuel w = (Raises e, w') →
  (e = IndexError ∧ index (trace (self w')) (bb_cnt (self w')) = None)
  ∨ e = TracerMisfollowError.
Proof.
  revert w. induction fuel as [|fuel IH]; intros w; rewrite sync_loop_unfold;
    destruct (PG.active _) as [|current [|]]; try done.
  destruct (index (trace (self w)) (bb_cnt (self w))) as [expected|] eqn:Hi.
  - destruct (decide (addr current = expected)) as [<-|Hne].
    { rewrite sync_step_match by done. apply IH. }
    destruct (decide (previous (self w) = Some (addr current))).
    + erewrite sync_step_repeat by done. apply IH.
    + erewrite sync_step_misfollow by done. intros [= <- <-]. by right.
  - rewrite sync_step_oob by done. intros [= <- <-]. by left.
Qed.

Lemma next_branch_raises fuel w e w' :
  next_branch fuel w = (Raises e, w') →
  (e = IndexError ∧ index (trace (self w')) (bb_cnt (self w')) = None)
  ∨ e = TracerMisfollowError.
Proof.
  unfold next_branch, mbind, ST_bind.
  destruct (sync_loop fuel w) as [[[]|e1|] w1] eqn:Hloop; try done.
  - destruct (index (trace (self w1)) (bb_cnt (self w1))) eqn:Hi.
    + by erewrite take_branch_returns.
    + rewrite take_branch_oob by done. intros [= <- <-]. by left.
  - intros [= <- <-]. by eapply sync_loop_raises.
Qed.

End Exhaustion.

(** *** run *)

Section Run.
Context `{E : Engine}.
Implicit Types (w : World) (pg branches : PathGroup).

Lemma run_loop_unfold fuel calls branches w :
  run_loop fuel calls branches w
  = match PG.active branches with
    | [] => (Returns branches, w)
    | _ :: _ =>
        match calls with
        | O => (OutOfFuel, w)
        | S calls' =>
            match run_turn fuel branches w with
            | (Returns (Continue b), w') => run_loop fuel calls' b w'
            | (Returns (Break b), w') => (Returns b, w')
            | (Raises e, w') => (Raises e, w')
            | (OutOfFuel, w') => (OutOfFuel, w')
            end
        end
    end.
Proof.
  destruct calls; simpl; destruct (PG.active branches); try done.
  unfold mbind, ST_bind.
  by destruct (run_turn fuel branches w) as [[[b|b]| |] w1].
Qed.

(** An exception of the first call of [next_branch] leaves [run]: that
    call is outside the [try]. *)
Lemma run_first_call_raises fuel w e w' :
  next_branch fuel w = (Raises e, w') → run fuel w = (Raises e, w').
Proof. intros Hnb. unfold run. by apply bind_raises. Qed.

(** The end of the trace in a later call, outside crash mode: the
    [IndexError] is caught and dropped, and [run] never comes back. *)
Lemma run_swallows fuel w b w1 w2 m :
  next_branch fuel w = (Returns b, w1) →
  PG.active b ≠ [] →
  next_branch fuel w1 = (Raises IndexError, w2) →
  crash_mode (self w2) = false →
  (fuel ≤ m)%nat →
  (run m w).1 = OutOfFuel.
Proof.
  intros Hfirst Hact Hsecond Hcrash Hle. unfold run.
  rewrite (bind_returns _ _ _ _ _
             (next_branch_mono fuel m _ _ _ Hfirst ltac:(done) Hle)).
  rewrite run_loop_unfold. destruct (PG.active b) eqn:Hb; [done|].
  destruct m as [|m]; [done|].
  rewrite run_turn_unfold.
  rewrite (next_branch_mono fuel (S m) _ _ _ Hsecond ltac:(done) Hle).
  rewrite decide_True by done. rewrite Hcrash.
  destruct (next_branch_raises _ _ _ _ Hsecond) as [[_ Hi]|]; [|done].
  rewrite run_loop_exhausted; [done..|]. by rewrite Hb.
Qed.

End Run.

(** C2, on the toy engine.  Past the end of the trace and outside crash
    mode, only [_current_bb], which nothing calls, raises
    [TracerDynamicTraceOOBError].  [next_branch] raises the plain
    [IndexError].  [run] lets it through when it comes from its first
    call, also in crash mode and also when the program has just exited at
    the last block of the trace; from a later call it catches it, does
    nothing with it outside crash mode, and loops for ever: so it does for
    the tracer built for a program that branches once and then exits
    where its trace ends. *)
Theorem trace_exhaustion_on_toy :
  let E := Toy.engine Toy.cfg in
  let w_end := (next_branch 2 Toy.w_exit).2 in
  (index (trace (self w_end)) (bb_cnt (self w_end)) = None
   ∧ crash_mode (self w_end) = false
   ∧ (_current_bb w_end).1 = Raises TracerDynamicTraceOOBError
   ∧ ∀ fuel, (next_branch fuel w_end).1 = Raises IndexError)
  ∧ (∀ fuel, (run (2 + fuel) Toy.w_exit).1 = Raises IndexError)
  ∧ (∀ fuel, (run (2 + fuel) Toy.w_crash_first).1 = Raises IndexError)
  ∧ (∀ fuel, (run fuel Toy.w_exhaust).1 = OutOfFuel)
  ∧ ((@__init__ Toy.host_exit (Toy.engine Toy.cfg_exit)
        "bin" [Byte.x41; Byte.x42] true Toy.empty_store).1 = Returns tt
     ∧ crash_mode (self Toy.w_built) = false
     ∧ trace (self Toy.w_built) = [0x08048000; 0x08048080; 0x08048100]
     ∧ ∀ fuel, (@run (Toy.engine Toy.cfg_exit) fuel Toy.w_built).1 = OutOfFuel).
Proof.
  intros E w_end. split_and!.
  - vm_compute. reflexivity.
  - vm_compute. reflexivity.
  - vm_compute. reflexivity.
  - intros fuel. destruct fuel; vm_compute; reflexivity.
  - intros fuel.
    erewrite run_first_call_raises; [done|].
    eapply (next_branch_mono 2); [|done|lia]. vm_compute. reflexivity.
  - intros fuel.
    erewrite run_first_call_raises; [done|].
    eapply (next_branch_mono 2); [|done|lia]. vm_compute. reflexivity.
  - intros fuel. destruct (decide (2 ≤ fuel)%nat) as [Hle|Hlt].
    + eapply (run_swallows 2); [| | | |exact Hle].
      * vm_compute. reflexivity.
      * vm_compute. done.
      * vm_compute. reflexivity.
      * vm_compute. reflexivity.
    + destruct fuel as [|[|fuel]]; [vm_compute; reflexivity..|lia].
  - vm_compute. reflexivity.
  - vm_compute. reflexivity.
  - vm_compute. reflexivity.
  - intros fuel. destruct (decide (2 ≤ fuel)%nat) as [Hle|Hlt].
    + eapply (run_swallows 2); [| | | |exact Hle].
      * vm_compute. reflexivity.
      * vm_compute. done.
      * vm_compute. reflexivity.
      * vm_compute. reflexivity.
    + destruct fuel as [|[|fuel]]; [vm_compute; reflexivity..|lia].
Qed.

(** *** The cursor stays in step with the trace *)

Lemma index_last_block (l : list Z) :
  l ≠ [] → is_Some (index l (Z.of_nat (length l) - 1)).
Proof.
  intros Hl. rewrite index_nonneg.
  - apply lookup_lt_is_Some. destruct l; [done|]. simpl. lia.
  - destruct l; [done|]. simpl. lia.
Qed.

Lemma filter_all {A : Type} (l : list A) : List.filter (λ _, true) l = l.
Proof. induction l; simpl; congruence. Qed.

Lemma filter_none {A : Type} (l : list A) :
  List.filter (λ _, negb true) l = [].
Proof. by induction l. Qed.

Lemma active_stash_crashed (pg : PathGroup) :
  PG.active (PG.stash "active" "crashed" pg) = [].
Proof.
  unfold PG.active, PG.stash. rewrite stash_of_move_from by done.
  apply filter_none.
Qed.

Lemma crashed_stash_crashed (pg : PathGroup) :
  PG.crashed (PG.stash "active" "crashed" pg) = PG.crashed pg ++ PG.active pg.
Proof.
  unfold PG.crashed, PG.active, PG.stash. rewrite stash_of_move_to by done.
  by rewrite filter_all.
Qed.

Section InStep.
Context `{E : Engine}.
Implicit Types (w : World) (pg branches : PathGroup) (current : Path).

Lemma tracer_ok_path_group w pg :
  tracer_ok w →
  tracer_ok {| self := set_path_group pg (self w); store := store w |}.
Proof. done. Qed.

Lemma tracer_ok_sync_step current w :
  tracer_ok w → tracer_ok (sync_step current w).2.
Proof.
  intros (Hrange & Hne & Hprev).
  destruct (index (trace (self w)) (bb_cnt (self w))) as [expected|] eqn:Hi.
  - destruct (decide (addr current = expected)) as [<-|Hdiff].
    { rewrite sync_step_match by done. unfold tracer_ok. simpl.
      rewrite after_compare_bb_cnt, after_compare_previous, after_compare_trace.
      simpl. apply index_Some_lt in Hi as Hlt. split_and!; [lia..|done|].
      intros a [= <-]. by replace (bb_cnt (self w) + 1 - 1) with (bb_cnt (self w)) by lia. }
    destruct (decide (previous (self w) = Some (addr current))) as [Hrep|].
    + erewrite sync_step_repeat by done. unfold tracer_ok. simpl.
      rewrite after_compare_bb_cnt, after_compare_previous, after_compare_trace.
      split_and!; [lia..|done|].
      intros a [= <-]. by apply Hprev.
    + by erewrite sync_step_misfollow.
  - by rewrite sync_step_oob.
Qed.

Lemma tracer_ok_sync_loop fuel w :
  tracer_ok w → tracer_ok (sync_loop fuel w).2.
Proof.
  revert w. induction fuel as [|fuel IH]; intros w Hok;
    rewrite sync_loop_unfold;
    destruct (PG.active _) as [|current [|]]; try done.
  pose proof (tracer_ok_sync_step current w Hok) as Hstep.
  destruct (sync_step current w) as [[[]| |] w1]; try done.
  by apply IH.
Qed.

Lemma tracer_ok_next_branch fuel w :
  tracer_ok w → tracer_ok (next_branch fuel w).2.
Proof.
  intros Hok. unfold next_branch, mbind, ST_bind.
  pose proof (tracer_ok_sync_loop fuel w Hok) as Hloop.
  destruct (sync_loop fuel w) as [[[]| |] w1]; try done.
  destruct (index (trace (self w1)) (bb_cnt (self w1))) eqn:Hi.
  - by erewrite take_branch_returns.
  - by rewrite take_branch_oob.
Qed.

Lemma tracer_ok_run_turn fuel branches w :
  tracer_ok w → tracer_ok (run_turn fuel branches w).2.
Proof.
  intros Hok. rewrite run_turn_unfold.
  pose proof (tracer_ok_next_branch fuel w Hok) as Hnb.
  destruct (next_branch fuel w) as [[b|e|] w1]; try done.
  destruct (decide _); [|done].
  destruct (crash_mode _); [|done]. by destruct (index _ _).
Qed.

Lemma tracer_ok_run_loop fuel calls branches w :
  tracer_ok w → tracer_ok (run_loop fuel calls branches w).2.
Proof.
  revert branches w. induction calls as [|calls IH]; intros branches w Hok;
    rewrite run_loop_unfold; destruct (PG.active branches); try done.
  pose proof (tracer_ok_run_turn fuel branches w Hok) as Hturn.
  destruct (run_turn fuel branches w) as [[[b|b]| |] w1]; try done.
  by apply IH.
Qed.

Lemma tracer_ok_run fuel w : tracer_ok w → tracer_ok (run fuel w).2.
Proof.
  intros Hok. unfold run, mbind, ST_bind.
  pose proof (tracer_ok_next_branch fuel w Hok) as Hnb.
  destruct (next_branch fuel w) as [[b|e|] w1]; try done.
  by apply tracer_ok_run_loop.
Qed.

(** Where a group returned by the loop of [run] comes from: the loop was
    not entered, or the last call of [next_branch] returned it, or that
    call ran off the trace in crash mode. *)
Lemma run_loop_returns fuel calls branches w r w' :
  run_loop fuel calls branches w = (Returns r, w') →
  PG.active r = []
  ∧ ((r = branches ∧ w' = w)
     ∨ (∃ w0, next_branch fuel w0 = (Returns r, w'))
     ∨ (crash_mode (self w') = true
        ∧ r = PG.stash "active" "crashed" (path_group (self w'))
        ∧ ∃ w0, next_branch fuel w0 = (Raises IndexError, w'))).
Proof.
  revert branches w. induction calls as [|calls IH]; intros branches w;
    rewrite run_loop_unfold; destruct (PG.active branches) eqn:Hact;
    try done; try (intros [= <- <-]; by auto).
  rewrite run_turn_unfold.
  destruct (next_branch fuel w) as [[b|e|] w1] eqn:Hnb; [| |done].
  - intros Hrest. destruct (IH _ _ Hrest) as (Hr & [[-> ->]|Hlater]); eauto.
  - destruct (decide (e = IndexError)) as [->|]; [|done].
    destruct (crash_mode (self w1)) eqn:Hcrash.
    + destruct (index _ _); [|done]. intros [= <- <-].
      split; [apply active_stash_crashed|]. right. right. eauto.
    + intros Hrest. destruct (IH _ _ Hrest) as (Hr & [[-> ->]|Hlater]).
      * by rewrite Hact in Hr.
      * eauto.
Qed.

(** The crash stop happens: in crash mode, when a later call of
    [next_branch] runs off the trace, [run] leaves its loop with the
    active paths put into 'crashed'. *)
Lemma run_loop_crash fuel calls branches w w' :
  tracer_ok w →
  PG.active branches ≠ [] →
  next_branch fuel w = (Raises IndexError, w') →
  crash_mode (self w') = true →
  run_loop fuel (S calls) branches w
  = (Returns (PG.stash "active" "crashed" (path_group (self w'))), w')
  ∧ bb_cnt (self w') = Z.of_nat (length (trace (self w'))).
Proof.
  intros Hok Hact Hnb Hcrash.
  pose proof (tracer_ok_next_branch fuel w Hok) as (Hrange & Hne & _).
  rewrite Hnb in Hrange, Hne. simpl in Hrange, Hne.
  destruct (next_branch_raises _ _ _ _ Hnb) as [[_ Hi]|]; [|done].
  assert (bb_cnt (self w') = Z.of_nat (length (trace (self w')))) as Hend.
  { destruct (decide (bb_cnt (self w') < Z.of_nat (length (trace (self w'))))) as [Hlt|]; [|lia].
    rewrite index_nonneg in Hi by lia. apply lookup_ge_None in Hi. lia. }
  split; [|done].
  rewrite run_loop_unfold. destruct (PG.active branches); [done|].
  rewrite run_turn_unfold, Hnb. rewrite decide_True by done. rewrite Hcrash.
  rewrite Hend. by destruct (index_last_block _ Hne) as [a ->].
Qed.

End InStep.

(** What [run] does where the trace does not run out.  [run] calls
    [next_branch] and calls it again
    while the group last returned has active paths; when a call returns a
    group without active paths, [run] returns that group.  A
    [TracerMisfollowError] of a call leaves [run].  When a call after the
    first runs off the trace in crash mode, [run] stops and returns the
    tracer's path group with its active paths moved to 'crashed'; the
    cursor is then at the end of the trace and [previous], the last
    matched block, is [trace[bb_cnt-1]].  So every group that [run]
    returns has no active path. *)
Theorem run_stops `{E : Engine} :
  (∀ fuel w r w',
     tracer_ok w → run fuel w = (Returns r, w') →
     PG.active r = [] ∧ tracer_ok w'
     ∧ ((∃ w0, next_branch fuel w0 = (Returns r, w'))
        ∨ (crash_mode (self w') = true
           ∧ r = PG.stash "active" "crashed" (path_group (self w'))
           ∧ PG.crashed r
             = PG.crashed (path_group (self w'))
               ++ PG.active (path_group (self w'))
           ∧ bb_cnt (self w') = Z.of_nat (length (trace (self w')))
           ∧ ∀ a, previous (self w') = Some a →
                  index (trace (self w')) (bb_cnt (self w') - 1) = Some a)))
  ∧ (∀ fuel w b w1,
       next_branch fuel w = (Returns b, w1) →
       run fuel w = run_loop fuel fuel b w1)
  ∧ (∀ fuel calls branches w,
       PG.active branches = [] →
       run_loop fuel calls branches w = (Returns branches, w))
  ∧ (∀ fuel calls branches w b w1,
       PG.active branches ≠ [] →
       next_branch fuel w = (Returns b, w1) →
       run_loop fuel (S calls) branches w = run_loop fuel calls b w1)
  ∧ (∀ fuel w w',
       next_branch fuel w = (Raises TracerMisfollowError, w') →
       run fuel w = (Raises TracerMisfollowError, w'))
  ∧ (∀ fuel calls branches w w',
       PG.active branches ≠ [] →
       next_branch fuel w = (Raises TracerMisfollowError, w') →
       run_loop fuel (S calls) branches w = (Raises TracerMisfollowError, w'))
  ∧ (∀ fuel calls branches w w',
       tracer_ok w →
       PG.active branches ≠ [] →
       next_branch fuel w = (Raises IndexError, w') →
       crash_mode (self w') = true →
       run_loop fuel (S calls) branches w
       = (Returns (PG.stash "active" "crashed" (path_group (self w'))), w')).
Proof.
  split_and!.
  - intros fuel w r w' Hok Hrun.
    pose proof (tracer_ok_run fuel w Hok) as Hok'. rewrite Hrun in Hok'.
    simpl in Hok'. revert Hrun. unfold run, mbind, ST_bind.
    destruct (next_branch fuel w) as [[b|e|] w1] eqn:Hnb; [|done..].
    intros (Hr & Hfrom)%run_loop_returns. split_and!; [done..|].
    destruct Hfrom as [[-> ->]|[Hlast|(Hcrash & -> & w0 & Hoff)]]; [eauto..|].
    right. split_and!; [done..|apply crashed_stash_crashed| |apply Hok'].
    destruct (next_branch_raises _ _ _ _ Hoff) as [[_ Hi]|]; [|done].
    destruct Hok' as (Hrange & _ & _).
    destruct (decide (bb_cnt (self w') < Z.of_nat (length (trace (self w')))));
      [|lia].
    rewrite index_nonneg in Hi by lia. apply lookup_ge_None in Hi. lia.
  - intros fuel w b w1 Hnb. unfold run. by apply bind_returns.
  - intros fuel calls branches w Hact. rewrite run_loop_unfold. by rewrite Hact.
  - intros fuel calls branches w b w1 Hact Hnb. rewrite run_loop_unfold.
    destruct (PG.active branches); [done|]. by rewrite run_turn_unfold, Hnb.
  - intros fuel w w' Hnb. by apply run_first_call_raises.
  - intros fuel calls branches w w' Hact Hnb. rewrite run_loop_unfold.
    destruct (PG.active branches); [done|]. by rewrite run_turn_unfold, Hnb.
  - intros fuel calls branches w w' Hok Hact Hnb Hcrash.
    by apply run_loop_crash.
Qed.

(** The crash run of the toy engine: after the branch at 0x100 the trace
    ends in 0x200; [run] returns with the path of the tracer in
    'crashed'. *)
Lemma run_stops_witness :
  let E := Toy.engine Toy.cfg in
  ∃ r w',
    run 5 Toy.w_crash = (Returns r, w')
    ∧ PG.active r = []
    ∧ PG.crashed r = [mkPath 0x400 1%positive]
    ∧ previous (self w') = Some 0x200
    ∧ index (trace (self w')) (bb_cnt (self w') - 1) = Some 0x200.
Proof.
  intros E.
  assert (tracer_ok Toy.w_crash) as Hok.
  { unfold tracer_ok. simpl. split_and!; [lia|lia|done|done]. }
  set (w' := (run 5 Toy.w_crash).2).
  set (r := PG.stash "active" "crashed" (path_group (self w'))).
  assert (run 5 Toy.w_crash = (Returns r, w')) as Hrun.
  { vm_compute. reflexivity. }
  destruct run_stops as (Hreturns & _).
  destruct (Hreturns 5%nat Toy.w_crash r w' Hok Hrun)
    as (Hnone & (_ & _ & Hprev) & _).
  exists r, w'. split_and!.
  - exact Hrun.
  - exact Hnone.
  - vm_compute. reflexivity.
  - vm_compute. reflexivity.
  - apply Hprev. vm_compute. reflexivity.
Defined.

(** [run] raises when the engine leaves the trace.  On the toy graph the
    path goes from 0x200 to 0x400 while the trace names another block. *)
Lemma run_raises_misfollow :
  (@run (Toy.engine Toy.cfg) 2 Toy.w_misfollow).1
  = Raises TracerMisfollowError.
Proof. vm_compute. reflexivity. Qed.

Lemma run_misfollow_any_fuel fuel :
  (@run (Toy.engine Toy.cfg) (2 + fuel) Toy.w_misfollow).1
  = Raises TracerMisfollowError.
Proof.
  erewrite (run_mono 2); [done| |done|lia].
  vm_compute. reflexivity.
Qed.

(** C3, on the toy engine.  [run] does stop on a crash when the trace runs
    out in a call of [next_branch] after the first: the active path goes
    to 'crashed' and [previous] is [trace[bb_cnt-1]].  It does not when the
    trace runs out in the first call, which is outside the [try]: the
    [IndexError] leaves [run], with the crash flag set as well as when the
    program has exited where its trace ends and its path is deadended.
    With the flag unset and the trace running out in a later call, [run]
    drops the error and calls [next_branch] again without end.  And when
    the last step of a crashing run leaves no active path, the group
    that [run] returns has nothing in 'crashed'. *)
Theorem run_exhaustion_on_toy :
  let E := Toy.engine Toy.cfg in
  let w_end := (next_branch 2 Toy.w_exit).2 in
  let w_crash_branch :=
    Toy.world true [0x100; 0x200; 0x400] 0 None (Toy.at_addrs [0x100]) in
  (∃ r w',
     run 5 Toy.w_crash = (Returns r, w')
     ∧ crash_mode (self Toy.w_crash) = true
     ∧ PG.active r = []
     ∧ PG.crashed r = [mkPath 0x400 1%positive]
     ∧ previous (self w') = index (trace (self w')) (bb_cnt (self w') - 1))
  ∧ (tracer_ok Toy.w_crash_first
     ∧ crash_mode (self Toy.w_crash_first) = true
     ∧ ∀ fuel, (run (2 + fuel) Toy.w_crash_first).1 = Raises IndexError)
  ∧ (tracer_ok Toy.w_exit
     ∧ crash_mode (self Toy.w_exit) = false
     ∧ PG.active (path_group (self w_end)) = []
     ∧ PG.stash_of (path_group (self w_end)) "deadended"
       = [mkPath 0x400 1%positive]
     ∧ ∀ fuel, (run (2 + fuel) Toy.w_exit).1 = Raises IndexError)
  ∧ (tracer_ok Toy.w_exhaust
     ∧ crash_mode (self Toy.w_exhaust) = false
     ∧ ∀ fuel, (run fuel Toy.w_exhaust).1 = OutOfFuel)
  ∧ (∃ r w',
       run 5 w_crash_branch = (Returns r, w')
       ∧ PG.active r = []
       ∧ PG.crashed r = []
       ∧ PG.stash_of r "deadended" = [mkPath 0x400 1%positive]).
Proof.
  intros E w_end w_crash_branch.
  assert (∀ tr, tr ≠ [] → ∀ crash pg,
            tracer_ok (Toy.world crash tr 0 None pg)) as Hfresh.
  { intros tr Htr crash pg. unfold tracer_ok. simpl. split_and!; [lia|lia|done|done]. }
  split_and!.
  - exists (PG.stash "active" "crashed"
              (path_group (self (run 5 Toy.w_crash).2))),
      (run 5 Toy.w_crash).2.
    split_and!; vm_compute; reflexivity.
  - by apply Hfresh.
  - reflexivity.
  - intros fuel.
    erewrite run_first_call_raises; [done|].
    eapply (next_branch_mono 2); [|done|lia]. vm_compute. reflexivity.
  - by apply Hfresh.
  - reflexivity.
  - vm_compute. reflexivity.
  - vm_compute. reflexivity.
  - intros fuel.
    erewrite run_first_call_raises; [done|].
    eapply (next_branch_mono 2); [|done|lia]. vm_compute. reflexivity.
  - by apply Hfresh.
  - reflexivity.
  - intros fuel. destruct (decide (2 ≤ fuel)%nat) as [Hle|Hlt].
    + eapply (run_swallows 2); [| | | |exact Hle].
      * vm_compute. reflexivity.
      * vm_compute. done.
      * vm_compute. reflexivity.
      * vm_compute. reflexivity.
    + destruct fuel as [|[|fuel]]; [vm_compute; reflexivity..|lia].
  - exists (PG.stash "active" "crashed"
              (path_group (self (run 5 w_crash_branch).2))),
      (run 5 w_crash_branch).2.
    split_and!; vm_compute; reflexivity.
Qed.

(** *** Preconstraints *)

Lemma replace_true pc : replace se_true pc se_true = se_true.
Proof. unfold se_true. simpl. by destruct (decide _). Qed.

Lemma replace_all_true pcs : replace_all pcs se_true = se_true.
Proof.
  unfold replace_all. induction pcs as [|pc pcs IH]; cbn [foldl]; [done|].
  by rewrite replace_true.
Qed.

Lemma replace_byte_equality c pc :
  is_byte_equality c → is_byte_equality pc →
  replace c pc se_true = if decide (c = pc) then se_true else c.
Proof.
  intros (fd & pos & len & v & bits & ->) (fd' & pos' & len' & v' & bits' & ->).
  cbn [replace]. destruct (decide _); [done|].
  by repeat (destruct (decide _); [done|]).
Qed.

(** A constraint that is one of the preconstraints is rewritten to true,
    and another equality on a byte is left as it is. *)
Lemma replace_all_byte_equality pcs c :
  Forall is_byte_equality pcs → is_byte_equality c →
  replace_all pcs c = if decide (c ∈ pcs) then se_true else c.
Proof.
  unfold replace_all. intros Hpcs. revert c.
  induction Hpcs as [|pc pcs Hpc Hpcs IH]; intros c Hc; cbn [foldl].
  { by rewrite decide_False by apply not_elem_of_nil. }
  rewrite replace_byte_equality by done.
  destruct (decide (c = pc)) as [->|Hne].
  - rewrite decide_True by apply list_elem_of_here.
    apply replace_all_true.
  - rewrite IH by done.
    destruct (decide (c ∈ pcs)) as [Hin|Hnin].
    + rewrite decide_True; [done|]. by apply list_elem_of_further.
    + rewrite decide_False; [done|].
      intros [->|Hin]%elem_of_cons; done.
Qed.

(** C7: [remove_preconstraints(path)] does nothing at all when the tracer
    was built without preconstraining.  Otherwise it returns nothing and
    changes the state object of the path where it is: each constraint of
    the path is replaced, at its place in the list, by the constraint in
    which every preconstraint, taken in order, has been replaced by the
    true value wherever it occurs; no other state object and nothing of
    the tracer changes. *)
Theorem remove_preconstraints_spec `{E : Engine} (path : Path) (w : World) :
  (preconstrain (self w) = false →
     remove_preconstraints path w = (Returns tt, w))
  ∧ (preconstrain (self w) = true →
     ∃ w',
       remove_preconstraints path w = (Returns tt, w')
       ∧ self w' = self w
       ∧ se_constraints (store w' (state path))
         = map (λ c, foldl (λ c pc, replace c pc (BoolV true)) c
                       (preconstraints (self w)))
             (se_constraints (store w (state path)))
       ∧ (∀ i c, se_constraints (store w (state path)) !! i = Some c →
            se_constraints (store w' (state path)) !! i
            = Some (replace_all (preconstraints (self w)) c))
       ∧ posix_stdin (store w' (state path))
         = posix_stdin (store w (state path))
       ∧ (∀ l, l ≠ state path → store w' l = store w l)).
Proof.
  unfold remove_preconstraints. split.
  - by intros ->.
  - intros ->. simpl. eexists. split; [done|]. simpl.
    rewrite fn_lookup_insert, downsize_constraints, downsize_stdin. simpl.
    split_and!; try done.
    + intros i c Hi. by rewrite list_lookup_fmap, Hi.
    + intros l Hl. by rewrite fn_lookup_insert_ne.
Qed.

Section Preconstrain.
Context `{H : Host} `{E : Engine}.
Implicit Types (w : World) (entry_state : loc).

(** The loop of [_preconstrain_state] from any read position [pos]: byte
    [i] of [bs] is tied to the load at [pos + i]. *)
Lemma preconstrain_bytes_spec entry_state bs w :
  let st := store w entry_state in
  let fd := file_fd (posix_stdin st) in
  let pos := file_pos (posix_stdin st) in
  let added :=
    imap (λ i b, Eq (FileLoad fd (pos + Z.of_nat i) 1)
                    (BVV (byte.unsigned b) 8)) bs in
  ∃ w',
    preconstrain_bytes entry_state bs w = (Returns tt, w')
    ∧ self w' = set_preconstraints (preconstraints (self w) ++ added) (self w)
    ∧ se_constraints (store w' entry_state) = se_constraints st ++ added
    ∧ posix_stdin (store w' entry_state)
      = {| file_fd := fd; file_pos := pos + Z.of_nat (length bs) |}
    ∧ (∀ l, l ≠ entry_state → store w' l = store w l).
Proof.
  revert w. induction bs as [|b bs IH]; intros w; simpl.
  - exists w. rewrite !app_nil_r, Z.add_0_r.
    split_and!; try done.
    + by destruct w as [[] ?].
    + by destruct (posix_stdin _).
  - set (w1 := (preconstrain_byte entry_state b w).2).
    destruct (IH w1) as (w' & Hrun & Hself & Hcs & Hstdin & Hframe).
    exists w'. split.
    { unfold mbind, ST_bind. by change (preconstrain_byte entry_state b w)
        with (Returns tt, w1). }
    subst w1. simpl in *. rewrite fn_lookup_insert in *. simpl in *.
    rewrite Z.add_0_r.
    assert (imap (λ i b0, Eq (FileLoad (file_fd (posix_stdin (store w entry_state)))
                                (file_pos (posix_stdin (store w entry_state)) + 1
                                 + Z.of_nat i) 1) (BVV (byte.unsigned b0) 8)) bs
            = imap ((λ i b0, Eq (FileLoad (file_fd (posix_stdin (store w entry_state)))
                                (file_pos (posix_stdin (store w entry_state))
                                 + Z.of_nat i) 1) (BVV (byte.unsigned b0) 8)) ∘ S) bs)
      as Hshift.
    { apply imap_ext. intros i x _. simpl. do 2 f_equal. lia. }
    rewrite Hshift in *. split_and!.
    + rewrite Hself. unfold set_preconstraints. simpl.
      by rewrite <-app_assoc.
    + rewrite Hcs. by rewrite <-app_assoc.
    + rewrite Hstdin. f_equal. lia.
    + intros l Hl. rewrite Hframe by done. by rewrite fn_lookup_insert_ne.
Qed.

(** C6: preconstraining an entry state whose stdin is at position 0
    returns, and adds exactly one constraint per byte of the input: the
    constraint at offset [i] says that the 1-byte load from stdin at
    position [i] equals [input[i]]; these constraints are appended, in the
    order of the offsets, to the tracer's list of preconstraints and to
    the constraints of the state; at the end stdin is back at position
    0. *)
Theorem preconstrain_state_spec entry_state w :
  file_pos (posix_stdin (store w entry_state)) = 0 →
  let fd := file_fd (posix_stdin (store w entry_state)) in
  let added := imap (preconstraint fd) (input (self w)) in
  ∃ w',
    _preconstrain_state entry_state w = (Returns tt, w')
    ∧ length added = length (input (self w))
    ∧ (∀ i b, input (self w) !! i = Some b →
         added !! i
         = Some (Eq (FileLoad fd (Z.of_nat i) 1) (BVV (byte.unsigned b) 8)))
    ∧ preconstraints (self w') = preconstraints (self w) ++ added
    ∧ se_constraints (store w' entry_state)
      = se_constraints (store w entry_state) ++ added
    ∧ file_pos (posix_stdin (store w' entry_state)) = 0
    ∧ (∀ l, l ≠ entry_state → store w' l = store w l).
Proof.
  intros Hpos fd added.
  destruct (preconstrain_bytes_spec entry_state (input (self w)) w)
    as (w1 & Hrun & Hself & Hcs & Hstdin & Hframe).
  rewrite Hpos in *.
  assert (imap (λ i b, Eq (FileLoad (file_fd (posix_stdin (store w entry_state)))
                             (0 + Z.of_nat i) 1) (BVV (byte.unsigned b) 8))
               (input (self w)) = added) as Hadded.
  { apply imap_ext. intros i x _. unfold preconstraint. do 2 f_equal. }
  rewrite Hadded in *.
  eexists. split.
  { unfold _preconstrain_state. unfold mbind at 1, ST_bind at 1, get_self at 1.
    rewrite (bind_returns _ _ _ _ _ Hrun). reflexivity. }
  simpl. rewrite fn_lookup_insert. simpl. split_and!.
  - apply length_imap.
  - intros i b Hi. unfold added. by rewrite list_lookup_imap, Hi.
  - by rewrite Hself.
  - done.
  - done.
  - intros l Hl. rewrite fn_lookup_insert_ne by done. by apply Hframe.
Qed.

End Preconstrain.

(** Preconstraining the input "AB" on the toy engine. *)
Lemma preconstrain_state_spec_witness :
  ∃ w',
    _preconstrain_state 1%positive Toy.w_input = (Returns tt, w')
    ∧ preconstraints (self w')
      = [Eq (FileLoad 0 0 1) (BVV 65 8); Eq (FileLoad 0 1 1) (BVV 66 8)]
    ∧ se_constraints (store w' 1%positive)
      = [Eq (FileLoad 0 0 1) (BVV 65 8); Eq (FileLoad 0 1 1) (BVV 66 8)]
    ∧ file_pos (posix_stdin (store w' 1%positive)) = 0.
Proof.
  destruct (preconstrain_state_spec 1%positive Toy.w_input eq_refl)
    as (w' & Hrun & _ & _ & Hpcs & Hcs & Hpos & _).
  exists w'. split_and!; [done| | |done].
  - rewrite Hpcs. vm_compute. reflexivity.
  - rewrite Hcs. vm_compute. reflexivity.
Defined.

(** Removing the two preconstraints from a path of the toy engine. *)
Lemma remove_preconstraints_spec_witness :
  let E := Toy.engine Toy.cfg in
  ∃ w',
    remove_preconstraints (mkPath 0x200 1%positive) Toy.w_constrained
    = (Returns tt, w')
    ∧ se_constraints (store w' 1%positive)
      = [BoolV true; BoolV true; ULT (FileLoad 0 2 1) (BVV 10 8);
         Or (Not (BoolV true)) (Eq (BVS "x" 8) (BVV 1 8))].
Proof.
  intros E.
  destruct (remove_preconstraints_spec (mkPath 0x200 1%positive) Toy.w_constrained)
    as (_ & Henabled).
  destruct (Henabled eq_refl) as (w' & Hrun & _ & Hcs & _).
  exists w'. split; [done|].
  simpl in Hcs. rewrite Hcs. vm_compute. reflexivity.
Defined.

(** *** Construction: crash mode *)

Section CrashMode.
Context `{H : Host} `{E : Engine}.
Implicit Types (w : World).

Lemma trace_line_addr_world v w : (trace_line_addr v w).2 = w.
Proof.
  unfold trace_line_addr. unfold_monad.
  destruct (index _ 1); [|done]. simpl.
  destruct (index _ 0); [|done]. simpl.
  by destruct (int_base16 _).
Qed.

Lemma trace_addrs_world lines w : (trace_addrs lines w).2 = w.
Proof.
  induction lines as [|v lines IH]; simpl; [done|].
  destruct (String.prefix _ _); [|done].
  unfold mbind, ST_bind.
  pose proof (trace_line_addr_world v w) as Hline.
  destruct (trace_line_addr v w) as [[a| |] w1]; simpl in Hline; subst w1;
    try done.
  destruct (trace_addrs lines w) as [[addrs| |] w1]; simpl in IH; by subst w1.
Qed.

Lemma trace_addrs_world_snd lines w :
  trace_addrs lines w = ((trace_addrs lines w).1, w).
Proof.
  rewrite <-(trace_addrs_world lines w) at 3. by destruct (trace_addrs lines w).
Qed.

(** Trace capture sets the flag when the exit status of the emulator says
    so, and otherwise leaves it as it is. *)
Lemma dynamic_trace_crash_mode w :
  let ret := (qemu_exec_trace (driller_qemu (self w)) (binary (self w))
                (input (self w))).1 in
  crash_mode (self (_dynamic_trace w).2)
  = crash_mode (self w)
    || bool_decide (ret < 0 ∧ (Z.abs ret = SIGSEGV ∨ Z.abs ret = SIGILL)).
Proof.
  unfold _dynamic_trace. unfold mbind at 1, ST_bind at 1, get_self at 1.
  destruct (qemu_exec_trace _ _ _) as [ret log]. simpl.
  unfold mbind, ST_bind.
  destruct (decide (ret < 0)) as [Hneg|Hpos].
  - destruct (decide (Z.abs ret = SIGSEGV ∨ Z.abs ret = SIGILL)) as [Hsig|Hsig].
    + unfold modify_self. rewrite trace_addrs_world_snd. simpl.
      rewrite bool_decide_eq_true_2 by done. by rewrite orb_true_r.
    + unfold mret, ST_ret. rewrite trace_addrs_world_snd.
      rewrite bool_decide_eq_false_2 by tauto. by rewrite orb_false_r.
  - unfold mret, ST_ret. rewrite trace_addrs_world_snd.
    rewrite bool_decide_eq_false_2 by tauto. by rewrite orb_false_r.
Qed.

Lemma init_crash_mode bin inp pre st w' :
  __init__ bin inp pre st = (Returns tt, w') →
  let ret := (qemu_exec_trace
                (driller_qemu (new_tracer bin inp pre))
                bin inp).1 in
  crash_mode (self w')
  = bool_decide (ret < 0 ∧ (Z.abs ret = SIGSEGV ∨ Z.abs ret = SIGILL)).
Proof.
  unfold __init__, init_body. intros Hinit.
  apply bind_returns_inv in Hinit as (t & w0 & [= <- <-] & Hinit).
  apply bind_returns_inv in Hinit as ([] & w1 & Hsane & Hinit).
  assert (w1 = {| self := new_tracer bin inp pre; store := st |})
    as ->.
  { revert Hsane. cbn [self]. by destruct (negb _); intros [= <-]. }
  clear Hsane.
  apply bind_returns_inv in Hinit as ([] & w1 & [= <-] & Hinit).
  apply bind_returns_inv in Hinit as (tr & w2 & Htrace & Hinit).
  pose proof (dynamic_trace_crash_mode
                {| self := set_crash_mode false
                             (new_tracer bin inp pre);
                   store := st |}) as Hcrash.
  rewrite Htrace in Hcrash.
  cbn [self crash_mode set_crash_mode driller_qemu binary input
       orb fst snd] in Hcrash.
  apply bind_returns_inv in Hinit as ([] & w3 & [= <-] & Hinit).
  apply bind_returns_inv in Hinit as ([] & w4 & [= <-] & Hinit).
  apply bind_returns_inv in Hinit as ([] & w5 & [= <-] & Hinit).
  apply bind_returns_inv in Hinit as ([] & w6 & [= <-] & Hinit).
  apply bind_returns_inv in Hinit as (pg & w7 & Hprep & Hinit).
  injection Hinit as <-.
  pose proof (advances_prepare_paths
                {| self := set_previous None
                             (set_bb_cnt 0
                                (set_preconstraints [] (set_trace tr (self w2))));
                   store := store w2 |}) as (Hkeep & _).
  rewrite Hprep in Hkeep.
  cbn [self crash_mode set_path_group set_previous set_bb_cnt
       set_preconstraints set_trace snd] in Hkeep |- *.
  rewrite Hkeep. exact Hcrash.
Qed.

(** C5: the flag is false when the object is made; when [__init__] is
    done it is true exactly when the exit status of the emulator is
    negative with absolute value SIGSEGV or SIGILL; trace capture only
    ever sets it; and no method of the tracer changes it afterwards,
    whatever the method's outcome. *)
Theorem crash_mode_spec bin inp pre st w' :
  __init__ bin inp pre st = (Returns tt, w') →
  let ret := (qemu_exec_trace
                (driller_qemu (new_tracer bin inp pre))
                bin inp).1 in
  crash_mode (new_tracer bin inp pre) = false
  ∧ (crash_mode (self w') = true
     ↔ ret < 0 ∧ (Z.abs ret = SIGSEGV ∨ Z.abs ret = SIGILL))
  ∧ (∀ w, crash_mode (self w) = true →
          crash_mode (self (_dynamic_trace w).2) = true)
  ∧ (∀ w, crash_mode (self (_prepare_paths w).2) = crash_mode (self w))
  ∧ (∀ fuel w, crash_mode (self (next_branch fuel w).2) = crash_mode (self w))
  ∧ (∀ fuel w, crash_mode (self (run fuel w).2) = crash_mode (self w))
  ∧ (∀ path w,
       crash_mode (self (remove_preconstraints path w).2) = crash_mode (self w))
  ∧ (∀ w, crash_mode (self (_current_bb w).2) = crash_mode (self w)).
Proof.
  intros Hinit ret. split_and!.
  - done.
  - rewrite (init_crash_mode _ _ _ _ _ Hinit). apply bool_decide_eq_true.
  - intros w Hset. by rewrite dynamic_trace_crash_mode, Hset.
  - intros w. apply advances_prepare_paths.
  - intros fuel w. apply advances_next_branch.
  - intros fuel w. apply advances_run.
  - intros path w. apply advances_remove_preconstraints.
  - intros w. apply advances_current_bb.
Qed.

End CrashMode.

(** At the toy host the emulator exits with -11: crash mode is on once
    the tracer is built. *)
Lemma crash_mode_spec_witness :
  let w' := (@__init__ Toy.host (Toy.engine Toy.cfg_boot)
               "bin" [Byte.x41; Byte.x42] true Toy.empty_store).2 in
  crash_mode (self w') = true
  ∧ trace (self w') = [0x08048000; 0x08048080; 0x08048100]
  ∧ bb_cnt (self w') = 1.
Proof.
  intros w'.
  destruct (crash_mode_spec (H := Toy.host) (E := Toy.engine Toy.cfg_boot)
              "bin" [Byte.x41; Byte.x42] true Toy.empty_store w')
    as (_ & Hiff & _).
  { vm_compute. reflexivity. }
  split_and!.
  - apply Hiff. vm_compute. split; [reflexivity|left; reflexivity].
  - vm_compute. reflexivity.
  - vm_compute. reflexivity.
Defined.

(** *** The predump file *)

Section Predump.
Implicit Types (f rest bs : list byte) (regs : Regs) (memory : Memory).

Lemma f_read_app bs rest n :
  n = Z.of_nat (length bs) → f_read n (bs ++ rest) = (Returns bs, rest).
Proof.
  intros ->. unfold f_read. rewrite Nat2Z.id.
  by rewrite take_app_length, drop_app_length.
Qed.

Lemma unpack_bytes size bs f :
  length bs = size → unpack size bs f = (Returns (le_combine bs), f).
Proof. intros Hlen. unfold unpack. by rewrite decide_True. Qed.

(** Reading a word where at least [size] bytes are left. *)
Lemma read_unpack_at size f k :
  (k + size ≤ length f)%nat →
  read_unpack size (drop k f)
  = (Returns (le_combine (take size (drop k f))), drop (k + size) f).
Proof.
  intros Hlen. unfold read_unpack, mbind, ST_bind, f_read.
  rewrite Nat2Z.id, drop_drop.
  apply unpack_bytes. rewrite length_take, length_drop. lia.
Qed.

(** Reading back a word that was written with [le_split]. *)
Lemma read_unpack_split size v rest :
  0 ≤ v < 2 ^ (Z.of_nat size * 8) →
  read_unpack size (le_split size v ++ rest) = (Returns v, rest).
Proof.
  intros Hv. unfold read_unpack, mbind, ST_bind.
  rewrite f_read_app by (by rewrite length_le_split).
  rewrite unpack_bytes by apply length_le_split.
  by rewrite le_combine_split, Z.mod_small.
Qed.

Lemma read_unpack_split_wrap size v rest :
  read_unpack size (le_split size v ++ rest)
  = (Returns (v `mod` 2 ^ (Z.of_nat size * 8)), rest).
Proof.
  unfold read_unpack, mbind, ST_bind.
  rewrite f_read_app by (by rewrite length_le_split).
  rewrite unpack_bytes by apply length_le_split.
  by rewrite le_combine_split.
Qed.

Lemma reg_I_at name regs f k :
  (k + 4 ≤ length f)%nat →
  reg_I name regs (drop k f)
  = (Returns (<[name := le_combine (take 4 (drop k f))]> regs), drop (k + 4) f).
Proof.
  intros Hlen. unfold reg_I.
  by rewrite (bind_returns _ _ _ _ _ (read_unpack_at 4 f k Hlen)).
Qed.

Lemma reg_B_at name regs f k :
  (k + 1 ≤ length f)%nat →
  reg_B name regs (drop k f)
  = (Returns (<[name := le_combine (take 1 (drop k f))]> regs), drop (k + 1) f).
Proof.
  intros Hlen. unfold reg_B.
  by rewrite (bind_returns _ _ _ _ _ (read_unpack_at 1 f k Hlen)).
Qed.

Lemma reg_QQ_at name regs f k :
  (k + 16 ≤ length f)%nat →
  reg_QQ name regs (drop k f)
  = (Returns (<[name := Z.lor (le_combine (take 8 (drop k f)))
                           (Z.shiftl (le_combine (take 8 (drop (k + 8) f))) 64)]>
                regs),
     drop (k + 16) f).
Proof.
  intros Hlen. unfold reg_QQ.
  rewrite (bind_returns _ _ _ _ _ (read_unpack_at 8 f k ltac:(lia))).
  rewrite (bind_returns _ _ _ _ _ (read_unpack_at 8 f (k + 8) ltac:(lia))).
  unfold mret, ST_ret.
  rewrite lookup_total_insert_eq, insert_insert_eq.
  do 2 f_equal. lia.
Qed.

(** The register block, read from 312 bytes or more: the instruction
    pointer is the tenth word less 2. *)
Lemma read_regs_spec regs rb :
  (regs_size ≤ length rb)%nat →
  ∃ regs',
    read_regs regs rb = (Returns regs', drop regs_size rb)
    ∧ regs' !! "eax" = Some (le_combine (take 4 rb))
    ∧ regs' !! "eip" = Some (le_combine (take 4 (drop 36 rb)) - 2).
Proof.
  unfold regs_size. intros Hlen. eexists. split.
  - change rb with (drop 0 rb) at 1. unfold read_regs.
    repeat (erewrite bind_returns;
            [|first [apply reg_I_at | apply reg_B_at | apply reg_QQ_at
                    | apply read_unpack_at]; lia];
            cbv beta zeta).
    apply reg_QQ_at. lia.
  - split.
    + rewrite !lookup_insert_ne by done. by rewrite lookup_insert_eq.
    + rewrite !lookup_insert_ne by done. by rewrite lookup_insert_eq.
Qed.

Lemma parse_predump_unfold fuel memory regs f :
  parse_predump fuel memory regs f
  = if decide (size regs = 0%nat) then
      match fuel with
      | O => (OutOfFuel, f)
      | S fuel' =>
          (tag ← f_read 4;
           if decide (tag ≠ REGS) then
             start ← unpack 4 tag;
             end_ ← read_unpack 4;
             length ← read_unpack 4;
             content ← f_read length;
             parse_predump fuel' (<[start := content]> memory) regs
           else
             regs ← read_regs regs;
             parse_predump fuel' memory regs) f
      end
    else (Returns (memory, regs), f).
Proof. destruct fuel; simpl; by destruct (decide _). Qed.

Lemma le_split_start_not_REGS (start : Z) :
  0 ≤ start < 2 ^ 32 → start ≠ le_combine REGS → le_split 4 start ≠ REGS.
Proof.
  intros Hrange Hne Heq. apply Hne.
  rewrite <-Heq, le_combine_split. by rewrite Z.mod_small.
Qed.

(** The loop over the memory records of a file. *)
Lemma parse_predump_entries es fuel memory rest :
  Forall entry_ok es →
  parse_predump (length es + fuel) memory ∅ (flat_map encode_entry es ++ rest)
  = parse_predump fuel (overlay memory es) ∅ rest.
Proof.
  intros Hok. revert memory.
  induction Hok as [|e es (Hstart & Hregs & Hlen) Hok IH]; intros memory;
    [done|].
  cbn [length flat_map Nat.add]. rewrite parse_predump_unfold.
  rewrite decide_True by apply map_size_empty.
  unfold encode_entry. rewrite <-!app_assoc.
  rewrite (bind_returns _ _ _ _ _
             (f_read_app (le_split 4 (me_start e)) _ 4 eq_refl)).
  rewrite decide_True by by apply le_split_start_not_REGS.
  rewrite (bind_returns _ _ _ _ _
             (unpack_bytes 4 (le_split 4 (me_start e)) _ eq_refl)).
  rewrite le_combine_split, Z.mod_small by done.
  rewrite (bind_returns _ _ _ _ _ (read_unpack_split_wrap 4 _ _)).
  assert (0 ≤ Z.of_nat (length (me_content e)) < 2 ^ (Z.of_nat 4 * 8))
    as Hword by (change (Z.of_nat 4 * 8) with 32; lia).
  rewrite (bind_returns _ _ _ _ _ (read_unpack_split 4 _ _ Hword)).
  rewrite (bind_returns _ _ _ _ _ (f_read_app _ _ _ eq_refl)).
  apply IH.
Qed.

(** The register block ends the loop. *)
Lemma parse_predump_regs fuel memory rb :
  (regs_size ≤ length rb)%nat →
  ∃ regs,
    parse_predump (S fuel) memory ∅ (REGS ++ rb)
    = (Returns (memory, regs), drop regs_size rb)
    ∧ regs !! "eax" = Some (le_combine (take 4 rb))
    ∧ regs !! "eip" = Some (le_combine (take 4 (drop 36 rb)) - 2).
Proof.
  intros Hlen.
  destruct (read_regs_spec ∅ rb Hlen) as (regs & Hread & Heax & Heip).
  exists regs. split; [|done].
  rewrite parse_predump_unfold.
  rewrite decide_True by apply map_size_empty.
  rewrite (bind_returns _ _ _ _ _ (f_read_app REGS _ 4 eq_refl)).
  rewrite decide_False by (by intros Hne; apply Hne).
  rewrite (bind_returns _ _ _ _ _ Hread).
  rewrite parse_predump_unfold. rewrite decide_False; [done|].
  intros Hsize%map_size_empty_iff. by rewrite Hsize in Heip.
Qed.

Lemma length_encode_entries es :
  (length es ≤ length (flat_map encode_entry es))%nat.
Proof.
  induction es as [|e es IH]; [done|].
  cbn [flat_map length]. unfold encode_entry in IH |- *.
  rewrite !length_app, !length_le_split. lia.
Qed.

Lemma overlay_lookup memory es e :
  NoDup (me_start <$> es) → e ∈ es →
  overlay memory es !! me_start e = Some (me_content e).
Proof.
  unfold overlay. revert memory.
  induction es as [|e' es IH]; intros memory Hnd Hin; simpl.
  { by apply elem_of_nil in Hin. }
  apply list.NoDup_cons in Hnd as [Hfresh Hnd].
  apply elem_of_cons in Hin as [->|Hin]; [|by apply IH].
  clear IH. revert memory Hfresh.
  induction es as [|e2 es IH]; intros memory Hfresh; simpl.
  - apply lookup_insert_eq.
  - apply not_elem_of_cons in Hfresh as [Hne Hfresh].
    apply list.NoDup_cons in Hnd as [_ Hnd].
    rewrite insert_insert_ne by done. by apply IH.
Qed.

(** Every reader of the file only moves forward. *)
Lemma forward_bind {A B : Type} (m : Reader A) (k : A → Reader B) :
  forward m → (∀ a, forward (k a)) → forward (m ≫= k).
Proof.
  intros Hm Hk f. unfold mbind, ST_bind. destruct (Hm f) as [Hlen Hfuel].
  destruct (m f) as [[a| |] f1]; simpl in *; [|done..].
  destruct (Hk a f1) as [Hlen' Hfuel']. split; [lia|done].
Qed.

Lemma forward_ret {A : Type} (a : A) : forward (mret a : Reader A).
Proof. by intros f. Qed.

Lemma forward_f_read n : forward (f_read n).
Proof. intros f. unfold f_read. simpl. rewrite length_drop. split; [lia|done]. Qed.

Lemma forward_unpack size bs : forward (unpack size bs).
Proof. intros f. unfold unpack. by destruct (decide _). Qed.

Lemma forward_read_unpack size : forward (read_unpack size).
Proof.
  apply forward_bind; [apply forward_f_read|]. intros bs. apply forward_unpack.
Qed.

Lemma forward_reg_I name regs : forward (reg_I name regs).
Proof.
  apply forward_bind; [apply forward_read_unpack|]. intros v. apply forward_ret.
Qed.

Lemma forward_reg_B name regs : forward (reg_B name regs).
Proof.
  apply forward_bind; [apply forward_read_unpack|]. intros v. apply forward_ret.
Qed.

Lemma forward_reg_QQ name regs : forward (reg_QQ name regs).
Proof.
  apply forward_bind; [apply forward_read_unpack|]. intros lo.
  apply forward_bind; [apply forward_read_unpack|]. intros hi.
  apply forward_ret.
Qed.

Lemma forward_read_regs regs : forward (read_regs regs).
Proof.
  unfold read_regs.
  repeat lazymatch goal with
         | |- forward (_ ≫= _) => apply forward_bind; [|intros ?]
         | |- forward (reg_I _ _) => apply forward_reg_I
         | |- forward (reg_B _ _) => apply forward_reg_B
         | |- forward (reg_QQ _ _) => apply forward_reg_QQ
         | |- forward (read_unpack _) => apply forward_read_unpack
         end.
Qed.

(** A tag that is read and unpacked takes four bytes from the file. *)
Lemma f_read_tag f tag f1 :
  f_read 4 f = (Returns tag, f1) → length tag = 4%nat →
  (length f1 < length f)%nat.
Proof.
  unfold f_read. intros [= <- <-]. rewrite length_take, length_drop. lia.
Qed.

(** The loop of the parse ends: a file shorter than the fuel is parsed
    to the end or to an error. *)
Lemma parse_predump_total fuel memory regs f :
  (length f < fuel)%nat → (parse_predump fuel memory regs f).1 ≠ OutOfFuel.
Proof.
  revert memory regs f. induction fuel as [|fuel IH]; intros memory regs f Hf;
    [lia|].
  rewrite parse_predump_unfold. destruct (decide _); [|done].
  unfold mbind at 1, ST_bind at 1.
  destruct (f_read 4 f) as [[tag| |] f1] eqn:Hread; try done.
  destruct (decide (tag ≠ REGS)) as [Hne|Heq].
  - unfold mbind at 1, ST_bind at 1. unfold unpack at 1.
    destruct (decide (length tag = 4%nat)) as [Htag|]; [|done].
    pose proof (f_read_tag _ _ _ Hread Htag) as Hlt. cbn [mret ST_ret].
    unfold mbind at 1, ST_bind at 1.
    destruct (forward_read_unpack 4 f1) as [H1 H1'].
    destruct (read_unpack 4 f1) as [[end_| |] f2];
      cbv beta iota; cbn [fst snd] in *; try done.
    unfold mbind at 1, ST_bind at 1.
    destruct (forward_read_unpack 4 f2) as [H2 H2'].
    destruct (read_unpack 4 f2) as [[len| |] f3];
      cbv beta iota; cbn [fst snd] in *; try done.
    unfold mbind at 1, ST_bind at 1.
    destruct (forward_f_read len f3) as [H3 H3'].
    destruct (f_read len f3) as [[content| |] f4];
      cbv beta iota; cbn [fst snd] in *; try done.
    apply IH. lia.
  - apply dec_stable in Heq as ->.
    pose proof (f_read_tag _ _ _ Hread eq_refl) as Hlt.
    unfold mbind at 1, ST_bind at 1.
    destruct (forward_read_regs regs f1) as [H1 H1'].
    destruct (read_regs regs f1) as [[regs'| |] f2];
      cbv beta iota; cbn [fst snd] in *; try done.
    apply IH. lia.
Qed.

(** [load_predump] gives its file enough fuel. *)
Lemma load_predump_total file : load_predump file ≠ OutOfFuel.
Proof. unfold load_predump. apply parse_predump_total. lia. Qed.

(** C8: a predump file made of memory records and the register block is
    decoded to the overlay that maps the start of each record, read as a
    32-bit little-endian word, to the bytes of the record, exactly as many
    as its length word says, and to registers whose instruction pointer is
    the raw 32-bit word less 2. *)
Theorem load_predump_spec es rb :
  Forall entry_ok es →
  (regs_size ≤ length rb)%nat →
  ∃ regs,
    load_predump (flat_map encode_entry es ++ REGS ++ rb)
    = Returns (overlay ∅ es, regs)
    ∧ regs !! "eip" = Some (le_combine (take 4 (drop 36 rb)) - 2)
    ∧ (NoDup (me_start <$> es) →
       ∀ e, e ∈ es →
         overlay ∅ es !! me_start e = Some (me_content e)
         ∧ le_combine (take 4 (encode_entry e)) = me_start e
         ∧ le_combine (take 4 (drop 8 (encode_entry e)))
           = Z.of_nat (length (me_content e))).
Proof.
  intros Hok Hlen.
  pose proof (length_encode_entries es) as Hes.
  set (file := flat_map encode_entry es ++ REGS ++ rb).
  assert (∃ fuel, S (length file) = (length es + S fuel)%nat) as [fuel Hfuel].
  { exists (length file - length es)%nat. unfold file.
    rewrite length_app. lia. }
  destruct (parse_predump_regs fuel (overlay ∅ es) rb Hlen)
    as (regs & Hregs & _ & Heip).
  exists regs. split_and!.
  - unfold load_predump. fold file. rewrite Hfuel. unfold file.
    rewrite parse_predump_entries by done. by rewrite Hregs.
  - done.
  - intros Hnd e He. split_and!.
    + by apply overlay_lookup.
    + destruct (proj1 (List.Forall_forall _ _) Hok e
                  (proj1 (list_elem_of_In _ _) He)) as (Hstart & _ & _).
      unfold encode_entry.
      rewrite take_app_length' by (by rewrite length_le_split).
      by rewrite le_combine_split, Z.mod_small.
    + destruct (proj1 (List.Forall_forall _ _) Hok e
                  (proj1 (list_elem_of_In _ _) He)) as (_ & _ & Hcontent).
      unfold encode_entry. rewrite !app_assoc, <-(app_assoc _ _ (me_content e)).
      rewrite drop_app_length' by (rewrite length_app, !length_le_split; lia).
      rewrite take_app_length' by (by rewrite length_le_split).
      rewrite le_combine_split, Z.mod_small; [done|].
      change (Z.of_nat 4 * 8) with 32. lia.
Qed.

End Predump.

(** The file of the example: one record at 0x1000 holding the bytes 90 90,
    and a register block whose raw instruction pointer is 0x08048080. *)
Lemma load_predump_spec_witness :
  ∃ regs,
    load_predump Toy.dump
    = Returns ({[0x1000 := [Byte.x90; Byte.x90]]}, regs)
    ∧ regs !! "eip" = Some 0x0804807e.
Proof.
  destruct (load_predump_spec
              [mkMemEntry 0x1000 0x1002 [Byte.x90; Byte.x90]]
              (repeat Byte.x00 36 ++ le_split 4 0x08048080
               ++ repeat Byte.x00 272))
    as (regs & Hload & Heip & _).
  - repeat constructor; vm_compute; congruence.
  - vm_compute. lia.
  - exists regs. split.
    + exact Hload.
    + rewrite Heip. vm_compute. reflexivity.
Defined.

(** *** Construction: the tracer that is built *)

Section Built.
Context `{H : Host} `{E : Engine}.
Implicit Types (w : World).

(** What the windup leaves: only the cursor has moved, forward, to a block
    of the trace that is the target. *)
Lemma windup_returns fuel target w w' :
  windup fuel target w = (Returns tt, w') →
  ∃ n, w' = {| self := set_bb_cnt n (self w); store := store w |}
       ∧ bb_cnt (self w) ≤ n
       ∧ index (trace (self w)) n = Some target.
Proof.
  revert w. induction fuel as [|fuel IH]; intros w; rewrite windup_unfold;
    destruct (index _ _) as [a|] eqn:Hi; try done;
    destruct (decide (a ≠ target)) as [Hne|Heq]; try done.
  - intros [= <-]. apply dec_stable in Heq as ->.
    exists (bb_cnt (self w)). split_and!; [by destruct w as [[] ?]|lia|done].
  - intros (n & -> & Hle & Hn)%IH. simpl in *.
    exists n. split_and!; [done|lia|done].
  - intros [= <-]. apply dec_stable in Heq as ->.
    exists (bb_cnt (self w)). split_and!; [by destruct w as [[] ?]|lia|done].
Qed.

Lemma engine_returns {A : Type} (f : Store → A * Store) w :
  ∃ a st, engine f w = (Returns a, {| self := self w; store := st |}).
Proof. unfold engine. destruct (f (store w)) as [a st]. by exists a, st. Qed.

(** What [_prepare_paths] does to the tracer: the cursor is wound up to
    the block after the entry point, and the input is preconstrained when
    that was asked for. *)
Lemma prepare_paths_returns w pg w' :
  _prepare_paths w = (Returns pg, w') →
  ∃ n added,
    self w'
    = set_preconstraints (preconstraints (self w) ++ added)
        (set_bb_cnt n (self w))
    ∧ bb_cnt (self w) ≤ n
    ∧ is_Some (index (trace (self w)) n)
    ∧ length added
      = (if preconstrain (self w) then length (input (self w)) else 0%nat).
Proof.
  unfold _prepare_paths.
  intros (project & w1 & Hload & Hrest)%bind_returns_inv.
  pose proof (load_backed_world w) as Hw1. rewrite Hload in Hw1.
  simpl in Hw1. subst w1. clear Hload.
  apply bind_returns_inv in Hrest as (entry_state & w1 & Hstate & Hrest).
  destruct (engine_returns (factory_entry_state project) w)
    as (? & st1 & Hst1).
  rewrite Hst1 in Hstate. injection Hstate as -> <-. clear Hst1.
  apply bind_returns_inv in Hrest as (t & w1 & [= <- <-] & Hrest).
  apply bind_returns_inv in Hrest as ([] & w1 & Hwind & Hrest).
  apply windup_returns in Hwind as (n & -> & Hle & Hn). simpl in *.
  apply bind_returns_inv in Hrest as (t & w1 & [= <- <-] & Hrest).
  apply bind_returns_inv in Hrest as ([] & w1 & Hpre & Hrest).
  apply bind_returns_inv in Hrest as (pg0 & w2 & Hgroup & Hrest).
  destruct (engine_returns (factory_path_group project entry_state) w1)
    as (? & st2 & Hst2).
  rewrite Hst2 in Hgroup. injection Hgroup as -> <-. clear Hst2.
  destruct (engine_returns (pg_step pg0) {| self := self w1; store := st2 |})
    as (? & st3 & Hst3).
  rewrite Hst3 in Hrest. injection Hrest as -> <-. clear Hst3.
  simpl in *. exists n.
  destruct (preconstrain (self w)) eqn:Hflag.
  - unfold _preconstrain_state in Hpre.
    apply bind_returns_inv in Hpre as (t & w3 & [= <- <-] & Hpre).
    apply bind_returns_inv in Hpre as ([] & w3 & Hbytes & Hseek).
    destruct (preconstrain_bytes_spec entry_state (input (self w))
                {| self := set_bb_cnt n (self w); store := st1 |})
      as (w4 & Hrun & Hself & _).
    simpl in Hbytes, Hrun. rewrite Hrun in Hbytes. injection Hbytes as <-.
    unfold stdin_seek in Hseek. injection Hseek as <-. simpl.
    eexists. split_and!; [exact Hself|lia|done|apply length_imap].
  - injection Hpre as <-. exists []. simpl. rewrite app_nil_r.
    split_and!; [by destruct w as [[] ?]|lia|done|done].
Qed.

(** The tracer that [__init__] builds. *)
Lemma init_returns bin inp pre st w' :
  __init__ bin inp pre st = (Returns tt, w') →
  tracer_ok w'
  ∧ input (self w') = inp
  ∧ preconstrain (self w') = pre
  ∧ previous (self w') = None
  ∧ length (preconstraints (self w'))
    = (if pre then length inp else 0%nat).
Proof.
  unfold __init__, init_body. intros Hinit.
  apply bind_returns_inv in Hinit as (t & w0 & [= <- <-] & Hinit).
  apply bind_returns_inv in Hinit as ([] & w1 & Hsane & Hinit).
  assert (w1 = {| self := new_tracer bin inp pre; store := st |}) as ->.
  { revert Hsane. cbn [self]. by destruct (negb _); intros [= <-]. }
  clear Hsane.
  apply bind_returns_inv in Hinit as ([] & w1 & [= <-] & Hinit).
  apply bind_returns_inv in Hinit as (tr & w2 & Htrace & Hinit).
  assert (self w2 = set_crash_mode (crash_mode (self w2))
                      (new_tracer bin inp pre)) as Hw2.
  { revert Htrace. unfold _dynamic_trace.
    unfold mbind at 1, ST_bind at 1, get_self at 1.
    destruct (qemu_exec_trace _ _ _) as [ret log].
    intros ([] & w3 & Hflag & Haddrs)%bind_returns_inv.
    rewrite trace_addrs_world_snd in Haddrs. injection Haddrs as _ <-.
    revert Hflag. destruct (decide (ret < 0)); [destruct (decide _)|];
      by intros [= <-]. }
  apply bind_returns_inv in Hinit as ([] & w3 & [= <-] & Hinit).
  apply bind_returns_inv in Hinit as ([] & w4 & [= <-] & Hinit).
  apply bind_returns_inv in Hinit as ([] & w5 & [= <-] & Hinit).
  apply bind_returns_inv in Hinit as ([] & w6 & [= <-] & Hinit).
  apply bind_returns_inv in Hinit as (pg & w7 & Hprep & Hinit).
  injection Hinit as <-.
  apply prepare_paths_returns in Hprep as (n & added & Hself & Hle & Hn & Hlen).
  cbn [self set_previous set_bb_cnt set_preconstraints set_trace
       bb_cnt trace preconstraints input preconstrain app] in Hself, Hle, Hn, Hlen.
  rewrite Hw2 in Hself, Hlen.
  unfold tracer_ok. cbn [self]. rewrite Hself.
  cbn [set_path_group set_preconstraints set_bb_cnt set_crash_mode new_tracer
       set_previous set_trace
       bb_cnt trace previous input preconstrain preconstraints] in Hlen |- *.
  destruct Hn as [a Hn]. pose proof (index_Some_lt _ _ _ Hn) as Hlt.
  split_and!; try done; [lia..|].
  intros ->. by rewrite index_nonneg in Hn by lia.
Qed.

(** Construction has no loop that can run on: it returns or raises. *)
Lemma prepare_paths_total w : (_prepare_paths w).1 ≠ OutOfFuel.
Proof.
  unfold _prepare_paths. unfold mbind at 1, ST_bind at 1.
  pose proof (load_backed_world w) as Hw1.
  destruct (_load_backed w) as [[project| |] w1] eqn:Hload;
    simpl in Hw1; subst w1; [|done|].
  - unfold mbind at 1, ST_bind at 1.
    destruct (engine_returns (factory_entry_state project) w)
      as (entry_state & st1 & ->).
    unfold mbind at 1, ST_bind at 1, get_self at 1. cbn [self].
    unfold mbind at 1, ST_bind at 1.
    pose proof (windup_total
                  (Z.to_nat (Z.of_nat (length (trace (self w))) - bb_cnt (self w)))
                  (entry project + 2) {| self := self w; store := st1 |}) as Hw.
    destruct (windup _ _ _) as [[[]| |] w2] eqn:Hwind; [|done|].
    + apply windup_returns in Hwind as (n & -> & _). cbn [self store] in *.
      unfold mbind at 1, ST_bind at 1, get_self at 1. cbn [self].
      unfold mbind at 1, ST_bind at 1.
      assert (∃ w3, (if preconstrain (set_bb_cnt n (self w))
                     then _preconstrain_state entry_state else mret ())
                      {| self := set_bb_cnt n (self w); store := st1 |}
                    = (Returns tt, w3)) as [w3 ->].
      { destruct (preconstrain _); [|by eexists].
        unfold _preconstrain_state, stdin_seek.
        unfold mbind at 1, ST_bind at 1, get_self at 1.
        destruct (preconstrain_bytes_spec entry_state
                    (input (self {| self := set_bb_cnt n (self w); store := st1 |}))
                    {| self := set_bb_cnt n (self w); store := st1 |})
          as (w4 & Hrun & _).
        rewrite (bind_returns _ _ _ _ _ Hrun). by eexists. }
      unfold mbind at 1, ST_bind at 1.
      destruct (engine_returns (factory_path_group project entry_state) w3)
        as (pg0 & st2 & ->).
      by destruct (engine_returns (pg_step pg0) {| self := self w3; store := st2 |})
        as (pg & st3 & ->).
    + exfalso. apply Hw; [|done]. simpl. lia.
  - revert Hload. unfold _load_backed.
    unfold mbind at 1, ST_bind at 1, get_self at 1.
    pose proof (load_predump_total
                  (qemu_predump (driller_qemu (self w)) (binary (self w)))).
    by destruct (load_predump _) as [[? ?]| |].
Qed.

Lemma init_total bin inp pre st : (__init__ bin inp pre st).1 ≠ OutOfFuel.
Proof.
  unfold __init__, init_body.
  unfold mbind at 1, ST_bind at 1, get_self at 1. cbn [self].
  unfold mbind at 1, ST_bind at 1.
  destruct (negb (_sane _)); [done|]. cbn [mret ST_ret].
  unfold mbind at 1, ST_bind at 1, modify_self at 1.
  unfold mbind at 1, ST_bind at 1.
  destruct (_dynamic_trace _) as [[tr| |] w2] eqn:Htrace; [|done|].
  - unfold mbind at 1 2 3 4, ST_bind at 1 2 3 4, modify_self at 1 2 3 4.
    unfold mbind at 1, ST_bind at 1.
    pose proof (prepare_paths_total
                  {| self := set_previous None
                               (set_bb_cnt 0
                                  (set_preconstraints []
                                     (set_trace tr (self w2))));
                     store := store w2 |}) as Hprep.
    cbn [self store] in *.
    by destruct (_prepare_paths _) as [[pg| |] w3].
  - exfalso. revert Htrace. unfold _dynamic_trace.
    unfold mbind at 1, ST_bind at 1, get_self at 1.
    destruct (qemu_exec_trace _ _ _) as [ret log].
    unfold mbind at 1, ST_bind at 1.
    assert (∀ lines w, (trace_addrs lines w).1 ≠ OutOfFuel) as Haddrs.
    { clear. induction lines as [|v lines IH]; intros w; simpl; [done|].
      destruct (String.prefix _ _); [|done].
      unfold mbind at 1, ST_bind at 1.
      pose proof (trace_line_addr_world v w) as Hline.
      destruct (trace_line_addr v w) as [[a| |] w1] eqn:Hv; simpl in Hline;
        subst w1; [|done|].
      - unfold mbind, ST_bind. specialize (IH w).
        by destruct (trace_addrs lines w) as [[addrs| |] w1].
      - revert Hv. unfold trace_line_addr. unfold_monad.
        destruct (index _ 1); [|done]. simpl.
        destruct (index _ 0); [|done]. simpl.
        by destruct (int_base16 _). }
    destruct (decide (ret < 0)); [destruct (decide _)|];
      cbn [modify_self mret ST_ret];
      intros Hout; eapply Haddrs; by rewrite Hout.
Qed.

End Built.

(** ** Part III: further properties of the methods *)

(** *** The loop of next_branch: unsat paths, repeats, branches off the trace *)

Section LoopTurn.
Context `{E : Engine}.
Implicit Types (w : World) (current : Path) (pg : PathGroup).

(** A turn of the loop that goes on leaves the world that
    [after_compare] describes, on the tracer with or without the cursor
    moved. *)
Lemma sync_step_returns current w w' :
  sync_step current w = (Returns tt, w') →
  ∃ t, w' = after_compare current t (store w)
       ∧ path_group t = path_group (self w)
       ∧ preconstrain t = preconstrain (self w)
       ∧ (t = self w ∨ t = set_bb_cnt (bb_cnt (self w) + 1) (self w)).
Proof.
  destruct (index (trace (self w)) (bb_cnt (self w))) as [expected|] eqn:Hi.
  - destruct (decide (addr current = expected)) as [<-|Hne].
    { rewrite sync_step_match by done. intros [= <-]. eexists. eauto. }
    destruct (decide (previous (self w) = Some (addr current))).
    + erewrite sync_step_repeat by done. intros [= <-]. eexists. eauto.
    + by erewrite sync_step_misfollow.
  - by rewrite sync_step_oob.
Qed.

Lemma active_stash_unsat pg :
  PG.active (PG.stash "unsat" "active" pg) = PG.active pg ++ PG.unsat pg.
Proof.
  unfold PG.active, PG.unsat, PG.stash. rewrite stash_of_move_to by done.
  by rewrite filter_all.
Qed.

(** X1: after a turn of the loop of [next_branch] that goes on, the tracer's
    'unsat' stash is empty.  With preconstraining no path that the step
    judged unsatisfiable is lost: the active paths are those of the step
    followed by its unsat paths; without it the unsat paths are dropped.
    The other stashes are those of the step. *)
Theorem unsat_after_turn current w w' :
  sync_step current w = (Returns tt, w') →
  let stepped := (pg_step (path_group (self w)) (store w)).1 in
  PG.unsat (path_group (self w')) = []
  ∧ PG.active (path_group (self w'))
    = PG.active stepped
      ++ (if preconstrain (self w) then PG.unsat stepped else [])
  ∧ (∀ k, k ≠ "active" → k ≠ "unsat" →
       PG.stash_of (path_group (self w')) k = PG.stash_of stepped k)
  ∧ store w' = (pg_step (path_group (self w)) (store w)).2.
Proof.
  intros (t & -> & Hpg & Hpre & _)%sync_step_returns. simpl.
  unfold after_compare. simpl. rewrite Hpg, Hpre.
  destruct (pg_step (path_group (self w)) (store w)) as [pg st]. simpl.
  split_and!.
  - apply stash_of_drop.
  - unfold PG.active at 1. rewrite stash_of_drop_ne by done.
    destruct (preconstrain (self w)).
    + apply active_stash_unsat.
    + by rewrite app_nil_r.
  - intros k Ha Hu. rewrite stash_of_drop_ne by done.
    destruct (preconstrain (self w)); [|done].
    unfold PG.stash. by rewrite stash_of_move_other.
  - done.
Qed.

(** X2: the loop does not count the visits of a block: as long as the engine
    keeps the one path on the block that the tracer saw last,
    [next_branch] goes round without moving the cursor and never
    returns. *)
Theorem repeats_unbounded current w :
  (∀ w0, repeating current w0 →
         repeating current (after_compare current (self w0) (store w0))) →
  repeating current w →
  ∀ fuel, (next_branch fuel w).1 = OutOfFuel
          ∧ bb_cnt (self (next_branch fuel w).2) = bb_cnt (self w)
          ∧ previous (self (next_branch fuel w).2) = Some (addr current).
Proof.
  intros Hkeep Hw fuel. revert w Hw.
  induction fuel as [|fuel IH]; intros w Hw.
  - destruct Hw as (Hact & _ & Hprev & _).
    unfold next_branch, mbind, ST_bind. rewrite sync_loop_unfold, Hact. done.
  - pose proof Hw as (Hact & _ & Hprev & expected & Hi & Hne).
    rewrite (next_branch_unfold _ _ _ Hact).
    rewrite (sync_step_repeat _ _ _ Hi Hne Hprev).
    destruct (IH _ (Hkeep _ Hw)) as (Hout & Hcnt & Hp).
    split_and!; [done| |done].
    rewrite Hcnt. apply after_compare_bb_cnt.
Qed.

(** X3: a branch none of whose paths is on the trace is no misfollow: all the
    active paths go to 'missed', [next_branch] returns a group without
    active paths and [run], when this is its first call, returns that
    group as its result, with no path deadended or crashed by it. *)
Theorem branch_off_trace fuel w w1 target :
  sync_loop fuel w = (Returns tt, w1) →
  index (trace (self w1)) (bb_cnt (self w1)) = Some target →
  (∀ p, p ∈ PG.active (path_group (self w1)) → addr p ≠ target) →
  ∃ rpg w',
    next_branch fuel w = (Returns rpg, w')
    ∧ run fuel w = (Returns rpg, w')
    ∧ PG.active rpg = []
    ∧ PG.missed rpg
      = PG.missed (path_group (self w1)) ++ PG.active (path_group (self w1))
    ∧ PG.active (path_group (self w')) = []
    ∧ PG.missed (path_group (self w')) = []
    ∧ PG.crashed rpg = PG.crashed (path_group (self w1))
    ∧ bb_cnt (self w') = bb_cnt (self w1).
Proof.
  intros Hloop Hi Hoff.
  pose proof (next_branch_exit _ _ _ _ Hloop Hi) as Hnb. simpl in Hnb.
  assert (PG.active (PG.stash_not_addr target "missed" (path_group (self w1)))
          = []) as Hnone.
  { rewrite active_stash_not_addr.
    induction (PG.active (path_group (self w1))) as [|p l IH]; [done|].
    simpl. rewrite bool_decide_eq_false_2.
    - apply IH. intros q Hq. apply Hoff. by apply list_elem_of_further.
    - apply Hoff. apply list_elem_of_here. }
  eexists _, _. split; [exact Hnb|]. split_and!.
  - unfold run. rewrite (bind_returns _ _ _ _ _ Hnb).
    rewrite run_loop_unfold. by rewrite Hnone.
  - done.
  - rewrite missed_stash_not_addr. f_equal.
    induction (PG.active (path_group (self w1))) as [|p l IH]; [done|].
    simpl. rewrite bool_decide_eq_false_2.
    + simpl. f_equal. apply IH. intros q Hq. apply Hoff.
      by apply list_elem_of_further.
    + apply Hoff. apply list_elem_of_here.
  - simpl. unfold PG.active. rewrite stash_of_drop_ne by done. exact Hnone.
  - simpl. apply stash_of_drop.
  - unfold PG.crashed, PG.stash_not_addr. by rewrite stash_of_move_other.
  - done.
Qed.

End LoopTurn.

(** A turn on a toy engine that judges the successor 0x410 of 0x200
    unsatisfiable: with preconstraining its path is active again after the
    turn. *)
Lemma unsat_after_turn_witness :
  let E := ToyX.engine_unsat ToyX.cfg_fork [0x410] in
  let w := Toy.world false [0x200; 0x400] 0 None (Toy.at_addrs [0x200]) in
  let w' := (sync_step (mkPath 0x200 1%positive) w).2 in
  PG.unsat (path_group (self w')) = []
  ∧ PG.active (path_group (self w'))
    = [mkPath 0x400 1%positive; mkPath 0x410 1%positive].
Proof.
  intros E w w'.
  destruct (unsat_after_turn (mkPath 0x200 1%positive) w w')
    as (Hunsat & Hact & _).
  { vm_compute. reflexivity. }
  split; [exact Hunsat|].
  rewrite Hact. vm_compute. reflexivity.
Defined.

(** The toy engine with a block that is its own successor. *)
Lemma repeats_unbounded_witness :
  let E := Toy.engine ToyX.cfg_loop in
  (next_branch 100 ToyX.w_loop).1 = OutOfFuel
  ∧ bb_cnt (self (next_branch 100 ToyX.w_loop).2) = 1.
Proof.
  intros E.
  destruct (repeats_unbounded (mkPath 0x100 1%positive) ToyX.w_loop) with 100%nat
    as (Hout & Hcnt & _).
  - intros w0 (Hact & Hunsat & Hprev & expected & Hi & Hne).
    unfold repeating, after_compare. simpl.
    unfold Toy.step. rewrite Hact. simpl.
    assert (PG.unsat (<["active":=[mkPath 256 1%positive]]>
                        (<["deadended":=PG.stash_of (path_group (self w0)) "deadended" ++ []]>
                           (path_group (self w0)))) = []) as Hu.
    { unfold PG.unsat. by rewrite !stash_of_insert_ne. }
    split_and!.
    + unfold PG.active. rewrite stash_of_drop_ne by done.
      destruct (preconstrain (self w0)).
      * fold (PG.active (PG.stash "unsat" "active"
                (<["active":=[mkPath 256 1%positive]]>
                   (<["deadended":=PG.stash_of (path_group (self w0)) "deadended" ++ []]>
                      (path_group (self w0)))))).
        rewrite active_stash_unsat, Hu. unfold PG.active.
        by rewrite stash_of_insert.
      * by rewrite stash_of_insert.
    + apply stash_of_drop.
    + done.
    + by exists expected.
  - unfold repeating. simpl. split_and!; [done..|].
    exists 0x200. by split.
  - by split.
Defined.

(** The branch at 0x100 of the toy graph, with a trace that goes to none
    of its three successors. *)
Lemma branch_off_trace_witness :
  let E := Toy.engine Toy.cfg in
  ∃ rpg w',
    run 2 ToyX.w_off_trace = (Returns rpg, w')
    ∧ PG.active rpg = []
    ∧ PG.missed rpg
      = [mkPath 0x200 1%positive; mkPath 0x300 1%positive;
         mkPath 0x500 1%positive]
    ∧ bb_cnt (self w') = 1.
Proof.
  intros E.
  destruct (branch_off_trace 2 ToyX.w_off_trace
              (sync_loop 2 ToyX.w_off_trace).2 0x999)
    as (rpg & w' & _ & Hrun & Hnone & Hmissed & _ & _ & _ & Hcnt).
  - vm_compute. reflexivity.
  - vm_compute. reflexivity.
  - intros p Hp Heq. vm_compute in Hp.
    apply list_elem_of_In in Hp. simpl in Hp.
    destruct Hp as [<-|[<-|[<-|[]]]]; discriminate Heq.
  - exists rpg, w'. split_and!; [done..| |].
    + rewrite Hmissed. vm_compute. reflexivity.
    + rewrite Hcnt. vm_compute. reflexivity.
Defined.

(** *** Construction: where the cursor starts *)

Section Cursor.
Context `{H : Host} `{E : Engine}.
Implicit Types (w : World).

(** The windup stops at the first block of the trace, from the cursor on,
    that is the target. *)
Lemma windup_first fuel target w w' :
  windup fuel target w = (Returns tt, w') →
  w' = {| self := set_bb_cnt (bb_cnt (self w')) (self w); store := store w |}
  ∧ bb_cnt (self w) ≤ bb_cnt (self w')
  ∧ index (trace (self w)) (bb_cnt (self w')) = Some target
  ∧ ∀ j, bb_cnt (self w) ≤ j < bb_cnt (self w') →
         index (trace (self w)) j ≠ Some target.
Proof.
  revert w. induction fuel as [|fuel IH]; intros w; rewrite windup_unfold;
    destruct (index _ _) as [a|] eqn:Hi; try done;
    destruct (decide (a ≠ target)) as [Hne|Heq]; try done.
  - intros [= <-]. apply dec_stable in Heq as ->.
    split_and!; [by destruct w as [[] ?]|lia|done|lia].
  - intros (Hw' & Hle & Hn & Hfirst)%IH. simpl in *.
    split_and!; [by rewrite Hw' at 1|lia|done|].
    intros j Hj. destruct (decide (j = bb_cnt (self w))) as [->|].
    + rewrite Hi. congruence.
    + apply Hfirst. lia.
  - intros [= <-]. apply dec_stable in Heq as ->.
    split_and!; [by destruct w as [[] ?]|lia|done|lia].
Qed.

(** Without the target in the rest of the trace the windup runs to the
    end of the trace and fails there. *)
Lemma windup_missing fuel target w :
  0 ≤ bb_cnt (self w) ≤ Z.of_nat (length (trace (self w))) →
  Z.of_nat (length (trace (self w))) - bb_cnt (self w) ≤ Z.of_nat fuel →
  (∀ j, bb_cnt (self w) ≤ j → index (trace (self w)) j ≠ Some target) →
  windup fuel target w
  = (Raises IndexError,
     {| self := set_bb_cnt (Z.of_nat (length (trace (self w)))) (self w);
        store := store w |}).
Proof.
  revert w. induction fuel as [|fuel IH]; intros w Hrange Hfuel Hmiss;
    rewrite windup_unfold;
    destruct (index _ _) as [a|] eqn:Hi.
  - apply index_Some_lt in Hi. lia.
  - assert (bb_cnt (self w) = Z.of_nat (length (trace (self w)))) as Hend.
    { destruct (decide (bb_cnt (self w) < Z.of_nat (length (trace (self w)))));
        [|lia].
      rewrite index_nonneg in Hi by lia. apply lookup_ge_None in Hi. lia. }
    rewrite <-Hend. by destruct w as [[] ?].
  - rewrite decide_True.
    + pose proof (index_Some_lt _ _ _ Hi) as Hlt.
      rewrite IH; simpl; [done|lia|lia|].
      intros j Hj. apply Hmiss. lia.
    + intros ->. by apply (Hmiss (bb_cnt (self w))); [lia|].
  - assert (bb_cnt (self w) = Z.of_nat (length (trace (self w)))) as Hend.
    { destruct (decide (bb_cnt (self w) < Z.of_nat (length (trace (self w)))));
        [|lia].
      rewrite index_nonneg in Hi by lia. apply lookup_ge_None in Hi. lia. }
    rewrite <-Hend. by destruct w as [[] ?].
Qed.

(** Where [_prepare_paths] leaves the cursor. *)
Lemma prepare_paths_winds w pg w' :
  _prepare_paths w = (Returns pg, w') →
  ∃ project,
    _load_backed w = (Returns project, w)
    ∧ trace (self w') = trace (self w)
    ∧ bb_cnt (self w) ≤ bb_cnt (self w')
    ∧ index (trace (self w)) (bb_cnt (self w')) = Some (entry project + 2)
    ∧ ∀ j, bb_cnt (self w) ≤ j < bb_cnt (self w') →
           index (trace (self w)) j ≠ Some (entry project + 2).
Proof.
  unfold _prepare_paths.
  intros (project & w1 & Hload & Hrest)%bind_returns_inv.
  pose proof (load_backed_world w) as Hw1. rewrite Hload in Hw1.
  simpl in Hw1. subst w1. exists project. split; [done|].
  apply bind_returns_inv in Hrest as (entry_state & w1 & Hstate & Hrest).
  destruct (engine_returns (factory_entry_state project) w)
    as (? & st1 & Hst1).
  rewrite Hst1 in Hstate. injection Hstate as -> <-. clear Hst1.
  apply bind_returns_inv in Hrest as (t & w1 & [= <- <-] & Hrest).
  apply bind_returns_inv in Hrest as ([] & w1 & Hwind & Hrest).
  apply windup_first in Hwind as (Hw1 & Hle & Hn & Hfirst). simpl in *.
  apply bind_returns_inv in Hrest as (t & w2 & [= <- <-] & Hrest).
  apply bind_returns_inv in Hrest as ([] & w2 & Hpre & Hrest).
  assert (trace (self w2) = trace (self w)
          ∧ bb_cnt (self w2) = bb_cnt (self w1)) as [Htr Hcnt].
  { revert Hpre. destruct (preconstrain (self w1)).
    - unfold _preconstrain_state.
      intros (t & w3 & [= <- <-] & Hpre)%bind_returns_inv.
      apply bind_returns_inv in Hpre as ([] & w3 & Hbytes & Hseek).
      destruct (preconstrain_bytes_spec entry_state (input (self w1)) w1)
        as (w4 & Hrun & Hself & _).
      rewrite Hrun in Hbytes. injection Hbytes as <-.
      unfold stdin_seek in Hseek. injection Hseek as <-. simpl.
      rewrite Hself. simpl. by rewrite Hw1.
    - intros [= <-]. by rewrite Hw1. }
  apply bind_returns_inv in Hrest as (pg0 & w3 & Hgroup & Hrest).
  destruct (engine_returns (factory_path_group project entry_state) w2)
    as (? & st2 & Hst2).
  rewrite Hst2 in Hgroup. injection Hgroup as -> <-. clear Hst2.
  destruct (engine_returns (pg_step pg0) {| self := self w2; store := st2 |})
    as (? & st3 & Hst3).
  rewrite Hst3 in Hrest. injection Hrest as -> <-. clear Hst3.
  simpl. rewrite Htr, Hcnt. by split_and!.
Qed.

(** X4: what [_prepare_paths] does to the tracer when it returns.  The
    cursor is at the first block of the trace, counted from where the
    cursor was, that is the entry point of the loaded project plus 2; one
    preconstraint for each byte of the input has been appended when the
    tracer preconstrains, none otherwise; every other attribute, the trace
    among them, is as it was. *)
Theorem prepare_paths_cursor w pg w' :
  _prepare_paths w = (Returns pg, w') →
  ∃ project added,
    _load_backed w = (Returns project, w)
    ∧ self w'
      = set_preconstraints (preconstraints (self w) ++ added)
          (set_bb_cnt (bb_cnt (self w')) (self w))
    ∧ length added
      = (if preconstrain (self w) then length (input (self w)) else 0%nat)
    ∧ bb_cnt (self w) ≤ bb_cnt (self w')
    ∧ index (trace (self w)) (bb_cnt (self w')) = Some (entry project + 2)
    ∧ ∀ j, bb_cnt (self w) ≤ j < bb_cnt (self w') →
           index (trace (self w)) j ≠ Some (entry project + 2).
Proof.
  intros Hprep.
  destruct (prepare_paths_winds _ _ _ Hprep)
    as (project & Hload & _ & Hle & Hi & Hfirst).
  destruct (prepare_paths_returns _ _ _ Hprep)
    as (n & added & Hself & _ & _ & Hlen).
  exists project, added. split_and!; try done.
  rewrite Hself at 1. by rewrite Hself.
Qed.

(** X5: when the trace, from the cursor on, has no block that is the entry
    point plus 2, [_prepare_paths] raises [IndexError] with the cursor at
    the end of the trace; nothing else of the tracer has changed, and no
    preconstraint has been added. *)
Theorem prepare_paths_no_entry w project :
  _load_backed w = (Returns project, w) →
  0 ≤ bb_cnt (self w) ≤ Z.of_nat (length (trace (self w))) →
  (∀ j, bb_cnt (self w) ≤ j →
        index (trace (self w)) j ≠ Some (entry project + 2)) →
  ∃ st,
    _prepare_paths w
    = (Raises IndexError,
       {| self := set_bb_cnt (Z.of_nat (length (trace (self w)))) (self w);
          store := st |}).
Proof.
  intros Hload Hrange Hmiss. unfold _prepare_paths.
  rewrite (bind_returns _ _ _ _ _ Hload).
  destruct (engine_returns (factory_entry_state project) w)
    as (entry_state & st1 & Hst1).
  rewrite (bind_returns _ _ _ _ _ Hst1). exists st1.
  unfold mbind at 1, ST_bind at 1, get_self at 1. cbn [self].
  apply bind_raises.
  apply (windup_missing _ _ {| self := self w; store := st1 |});
    simpl; [done|lia|done].
Qed.

End Cursor.

Section InStepAlways.
Context `{H : Host} `{E : Engine}.

(** The steps of a construction that succeeds. *)
Lemma init_steps bin inp pre st w' :
  __init__ bin inp pre st = (Returns tt, w') →
  ∃ tr w2 pg w7,
    _sane (new_tracer bin inp pre) = true
    ∧ _dynamic_trace
        {| self := set_crash_mode false (new_tracer bin inp pre); store := st |}
      = (Returns tr, w2)
    ∧ self w2 = set_crash_mode (crash_mode (self w2)) (new_tracer bin inp pre)
    ∧ _prepare_paths
        {| self := set_previous None
                     (set_bb_cnt 0 (set_preconstraints [] (set_trace tr (self w2))));
           store := store w2 |}
      = (Returns pg, w7)
    ∧ w' = {| self := set_path_group pg (self w7); store := store w7 |}.
Proof.
  unfold __init__, init_body. intros Hinit.
  apply bind_returns_inv in Hinit as (t & w0 & [= <- <-] & Hinit).
  apply bind_returns_inv in Hinit as ([] & w1 & Hsane & Hinit).
  assert (w1 = {| self := new_tracer bin inp pre; store := st |}
          ∧ _sane (new_tracer bin inp pre) = true) as [-> Hok].
  { revert Hsane. cbn [self].
    by destruct (_sane (new_tracer bin inp pre)); intros [= <-]. }
  clear Hsane.
  apply bind_returns_inv in Hinit as ([] & w1 & [= <-] & Hinit).
  apply bind_returns_inv in Hinit as (tr & w2 & Htrace & Hinit).
  assert (self w2 = set_crash_mode (crash_mode (self w2))
                      (new_tracer bin inp pre)) as Hw2.
  { revert Htrace. unfold _dynamic_trace.
    unfold mbind at 1, ST_bind at 1, get_self at 1.
    destruct (qemu_exec_trace _ _ _) as [ret log].
    intros ([] & w3 & Hflag & Haddrs)%bind_returns_inv.
    rewrite trace_addrs_world_snd in Haddrs. injection Haddrs as _ <-.
    revert Hflag. destruct (decide (ret < 0)); [destruct (decide _)|];
      by intros [= <-]. }
  apply bind_returns_inv in Hinit as ([] & w3 & [= <-] & Hinit).
  apply bind_returns_inv in Hinit as ([] & w4 & [= <-] & Hinit).
  apply bind_returns_inv in Hinit as ([] & w5 & [= <-] & Hinit).
  apply bind_returns_inv in Hinit as ([] & w6 & [= <-] & Hinit).
  apply bind_returns_inv in Hinit as (pg & w7 & Hprep & Hinit).
  injection Hinit as <-. by exists tr, w2, pg, w7.
Qed.

(** X6: the cursor and [previous] stay in step with the trace.  A tracer that
    [__init__] has built has its cursor on a block of the trace and has
    no [previous]; from then on, whatever the outcome of [next_branch] and
    [run], the cursor is inside the trace or just past its end, and
    [previous], once set, is the block of the trace just before the
    cursor. *)
Theorem tracer_in_step :
  (∀ bin inp pre st w',
     __init__ bin inp pre st = (Returns tt, w') →
     tracer_ok w'
     ∧ 0 ≤ bb_cnt (self w') < Z.of_nat (length (trace (self w')))
     ∧ previous (self w') = None)
  ∧ (∀ fuel w, tracer_ok w → tracer_ok (next_branch fuel w).2)
  ∧ (∀ fuel w, tracer_ok w → tracer_ok (run fuel w).2).
Proof.
  split_and!.
  - intros bin inp pre st w' Hinit.
    destruct (init_returns _ _ _ _ _ Hinit) as (Hok & _ & _ & Hprev & _).
    split_and!; [done| | |done].
    + apply Hok.
    + destruct (init_steps _ _ _ _ _ Hinit)
        as (tr & w2 & pg & w7 & _ & _ & _ & Hprep & ->).
      destruct (prepare_paths_winds _ _ _ Hprep)
        as (project & _ & Htr & _ & Hi & _).
      simpl in *. rewrite Htr. by apply index_Some_lt in Hi.
  - intros fuel w. apply tracer_ok_next_branch.
  - intros fuel w. apply tracer_ok_run.
Qed.

(** X7: what [__init__] leaves in the object: the arguments as given, the
    trace that the emulator's log gave, no [previous], crash mode as the
    exit status says, the cursor on the first block of the trace that is
    the entry point of the loaded project plus 2, and one preconstraint
    for each byte of the input when preconstraining was asked for, none
    otherwise. *)
Theorem init_object bin inp pre st w' :
  __init__ bin inp pre st = (Returns tt, w') →
  binary (self w') = bin
  ∧ input (self w') = inp
  ∧ preconstrain (self w') = pre
  ∧ previous (self w') = None
  ∧ length (preconstraints (self w')) = (if pre then length inp else 0%nat)
  ∧ ∃ tr w2 project,
      _dynamic_trace
        {| self := set_crash_mode false (new_tracer bin inp pre); store := st |}
      = (Returns tr, w2)
      ∧ trace (self w') = tr
      ∧ crash_mode (self w') = crash_mode (self w2)
      ∧ load_predump (qemu_predump (driller_qemu (new_tracer bin inp pre)) bin)
        = Returns (memory_backer project, register_backer project)
      ∧ entry project
        = project_entry bin (memory_backer project) (register_backer project)
      ∧ index tr (bb_cnt (self w')) = Some (entry project + 2)
      ∧ ∀ j, 0 ≤ j < bb_cnt (self w') → index tr j ≠ Some (entry project + 2).
Proof.
  intros Hinit.
  destruct (init_returns _ _ _ _ _ Hinit) as (_ & Hinp & Hpre & Hprev & Hlen).
  destruct (init_steps _ _ _ _ _ Hinit)
    as (tr & w2 & pg & w7 & _ & Htrace & Hw2 & Hprep & ->).
  destruct (prepare_paths_winds _ _ _ Hprep)
    as (project & Hload & Htr & _ & Hi & Hfirst).
  destruct (prepare_paths_returns _ _ _ Hprep) as (n & added & Hself & _).
  pose proof (advances_prepare_paths
                {| self := set_previous None
                             (set_bb_cnt 0 (set_preconstraints [] (set_trace tr (self w2))));
                   store := store w2 |}) as (Hcrash & _).
  rewrite Hprep in Hcrash.
  assert (load_predump (qemu_predump (driller_qemu (new_tracer bin inp pre)) bin)
          = Returns (memory_backer project, register_backer project)
          ∧ entry project
            = project_entry bin (memory_backer project) (register_backer project))
    as [Hdump Hentry].
  { revert Hload. unfold _load_backed.
    unfold mbind at 1, ST_bind at 1, get_self at 1.
    cbn [self set_previous set_bb_cnt set_preconstraints set_trace
         driller_qemu binary].
    rewrite Hw2. cbn [set_crash_mode driller_qemu binary].
    change (binary (new_tracer bin inp pre)) with bin.
    destruct (load_predump _) as [[memory regs]| |]; [|done..].
    by intros [= <-]. }
  cbn [self store set_path_group set_previous set_bb_cnt set_preconstraints
       set_trace binary input preconstrain previous trace crash_mode bb_cnt
       preconstraints snd] in *.
  split_and!; try done.
  { rewrite Hself. cbn. by rewrite Hw2. }
  exists tr, w2, project. by split_and!.
Qed.

End InStepAlways.

(** The toy host: the log names 0x08048000 before the block 0x08048080
    that follows the entry point 0x0804807e, so the cursor starts at 1. *)
Lemma prepare_paths_cursor_witness :
  let w := {| self := Toy.tracer true [0x08048000; 0x08048080; 0x08048100]
                        0 None ∅;
              store := Toy.empty_store |} in
  let r := @_prepare_paths Toy.host (Toy.engine Toy.cfg_boot) w in
  bb_cnt (self r.2) = 1
  ∧ index (trace (self w)) 1 = Some 0x08048080
  ∧ index (trace (self w)) 0 ≠ Some 0x08048080.
Proof.
  intros w r.
  destruct (prepare_paths_cursor (H := Toy.host) (E := Toy.engine Toy.cfg_boot)
              w (match r.1 with Returns pg => pg | _ => ∅ end) r.2)
    as (project & added & Hload & _ & _ & _ & Hi & Hfirst).
  { vm_compute. reflexivity. }
  assert (entry project = 0x0804807e) as Hentry.
  { assert (project = match (@_load_backed Toy.host (Toy.engine Toy.cfg_boot) w).1
                      with Returns p => p | _ => mkProject 0 ∅ ∅ end) as ->
      by (by rewrite Hload).
    vm_compute. reflexivity. }
  clear Hload.
  assert (bb_cnt (self r.2) = 1) as Hcnt by (vm_compute; reflexivity).
  rewrite Hentry, Hcnt in Hi, Hfirst.
  split_and!; [done|exact Hi|]. apply Hfirst.
  cbn [w self Toy.tracer bb_cnt]. lia.
Defined.

(** The same host with a log that never names 0x08048080. *)
Lemma prepare_paths_no_entry_witness :
  let w := {| self := Toy.tracer true [0x08048000; 0x08048100] 0 None ∅;
              store := Toy.empty_store |} in
  (@_prepare_paths Toy.host (Toy.engine Toy.cfg_boot) w).1 = Raises IndexError
  ∧ bb_cnt (self (@_prepare_paths Toy.host (Toy.engine Toy.cfg_boot) w).2) = 2.
Proof.
  intros w.
  set (project :=
         match (@_load_backed Toy.host (Toy.engine Toy.cfg_boot) w).1 with
         | Returns p => p
         | _ => mkProject 0 ∅ ∅
         end).
  assert (entry project = 0x0804807e) as Hentry by (vm_compute; reflexivity).
  destruct (prepare_paths_no_entry (H := Toy.host)
              (E := Toy.engine Toy.cfg_boot) w project)
    as (st & Hprep).
  - vm_compute. reflexivity.
  - cbn [w self Toy.tracer trace bb_cnt length]. lia.
  - intros j Hj. rewrite Hentry. clearbody project. clear Hentry.
    cbn [w self Toy.tracer trace bb_cnt] in Hj |- *.
    clearbody w.
    rewrite index_nonneg by lia.
    destruct (Z.to_nat j) as [|[|n]]; simpl; try discriminate;
      intros [= Heq]; lia.
  - rewrite Hprep. split; [reflexivity|]. vm_compute. reflexivity.
Defined.

(** The tracer built at the toy host, and its crash run. *)
Lemma tracer_in_step_witness :
  let H := Toy.host in
  let E := Toy.engine Toy.cfg_boot in
  let w' := (__init__ "bin" [Byte.x41; Byte.x42] true Toy.empty_store).2 in
  tracer_ok w' ∧ bb_cnt (self w') = 1 ∧ tracer_ok (run 5 w').2.
Proof.
  intros H E w'.
  destruct (tracer_in_step (H := H) (E := E)) as (Hbuilt & _ & Hrun).
  destruct (Hbuilt "bin" [Byte.x41; Byte.x42] true Toy.empty_store w')
    as (Hok & _ & _).
  { vm_compute. reflexivity. }
  split_and!; [done|vm_compute; reflexivity|by apply Hrun].
Defined.

Lemma init_object_witness :
  let H := Toy.host in
  let E := Toy.engine Toy.cfg_boot in
  let w' := (__init__ "bin" [Byte.x41; Byte.x42] true Toy.empty_store).2 in
  input (self w') = [Byte.x41; Byte.x42]
  ∧ length (preconstraints (self w')) = 2%nat
  ∧ previous (self w') = None.
Proof.
  intros H E w'.
  destruct (init_object (H := H) (E := E)
              "bin" [Byte.x41; Byte.x42] true Toy.empty_store w')
    as (_ & Hinp & _ & Hprev & Hlen & _).
  { vm_compute. reflexivity. }
  by split_and!.
Defined.

(** *** What the exposed methods write *)

Section WrittenAttributes.
Context `{E : Engine}.
Implicit Types (w : World) (current : Path).

Lemma setup_bind {A B : Type} (m : M A) (k : A → M B) :
  (∀ w, setup (self (m w).2) = setup (self w)) →
  (∀ a w, setup (self (k a w).2) = setup (self w)) →
  ∀ w, setup (self ((m ≫= k) w).2) = setup (self w).
Proof.
  intros Hm Hk w. unfold mbind, ST_bind. specialize (Hm w).
  destruct (m w) as [[a| |] w1]; simpl in *; try done.
  by rewrite Hk.
Qed.

Lemma setup_try_except {A : Type} (m handler : M A) e :
  (∀ w, setup (self (m w).2) = setup (self w)) →
  (∀ w, setup (self (handler w).2) = setup (self w)) →
  ∀ w, setup (self (try_except m e handler w).2) = setup (self w).
Proof.
  intros Hm Hh w. unfold try_except. specialize (Hm w).
  destruct (m w) as [[a|e'|] w1]; simpl in *; try done.
  destruct (decide (e' = e)); [|done]. by rewrite Hh.
Qed.

Lemma setup_getitem {A : Type} (l : list A) i w :
  setup (self (getitem l i w).2) = setup (self w).
Proof. unfold getitem. by destruct (index l i). Qed.

Lemma setup_after_compare current t st :
  setup (self (after_compare current t st)) = setup t.
Proof. unfold after_compare. simpl. by destruct (pg_step _ _). Qed.

Lemma setup_sync_step current w :
  setup (self (sync_step current w).2) = setup (self w).
Proof.
  destruct (index (trace (self w)) (bb_cnt (self w))) as [expected|] eqn:Hi.
  - destruct (decide (addr current = expected)) as [<-|Hne].
    { rewrite sync_step_match by done. simpl.
      by rewrite setup_after_compare. }
    destruct (decide (previous (self w) = Some (addr current))).
    + erewrite sync_step_repeat by done. simpl.
      by rewrite setup_after_compare.
    + by erewrite sync_step_misfollow.
  - by rewrite sync_step_oob.
Qed.

Lemma setup_sync_loop fuel w :
  setup (self (sync_loop fuel w).2) = setup (self w).
Proof.
  revert w. induction fuel as [|fuel IH]; intros w; simpl;
    unfold mbind at 1, ST_bind at 1, get_self at 1;
    destruct (PG.active _) as [|current [|]]; try done.
  apply setup_bind; [apply setup_sync_step|auto].
Qed.

Lemma setup_take_branch w :
  setup (self (take_branch w).2) = setup (self w).
Proof.
  unfold take_branch. unfold_monad. by destruct (index _ _).
Qed.

Lemma setup_next_branch fuel w :
  setup (self (next_branch fuel w).2) = setup (self w).
Proof.
  unfold next_branch. apply setup_bind.
  - apply setup_sync_loop.
  - intros _. apply setup_take_branch.
Qed.

Lemma setup_run_turn fuel branches w :
  setup (self (run_turn fuel branches w).2) = setup (self w).
Proof.
  unfold run_turn. apply setup_try_except.
  - apply setup_bind; [apply setup_next_branch|done].
  - clear w. intros w. unfold mbind at 1, ST_bind at 1, get_self at 1.
    destruct (crash_mode (self w)); [|done].
    apply setup_bind; [apply setup_getitem|done].
Qed.

Lemma setup_run_loop fuel calls branches w :
  setup (self (run_loop fuel calls branches w).2) = setup (self w).
Proof.
  revert branches w. induction calls as [|calls IH]; intros branches w; simpl;
    destruct (PG.active branches); try done.
  apply setup_bind; [apply setup_run_turn|].
  intros [b|b] w'; [apply IH|done].
Qed.

(** X18: the exposed methods write the cursor, [previous] and the path
    group of the tracer and nothing else.  Whatever their outcome (a
    return, an exception, a loop still running), [next_branch], [run],
    [remove_preconstraints] and [_current_bb] leave the binary, the input,
    the preconstrain flag, the two paths, crash mode, the trace and the
    list of preconstraints as [__init__] made them; the last two also
    leave the cursor, [previous] and the path group. *)
Theorem methods_keep_setup :
  (∀ fuel w, setup (self (next_branch fuel w).2) = setup (self w))
  ∧ (∀ fuel w, setup (self (run fuel w).2) = setup (self w))
  ∧ (∀ path w, self (remove_preconstraints path w).2 = self w)
  ∧ (∀ w, (_current_bb w).2 = w).
Proof.
  split_and!.
  - apply setup_next_branch.
  - intros fuel. unfold run. apply setup_bind; [apply setup_next_branch|].
    intros b w'. apply setup_run_loop.
  - intros path w. unfold remove_preconstraints.
    by destruct (preconstrain (self w)).
  - intros w. unfold _current_bb. unfold_monad.
    destruct (index _ _); simpl; [done|].
    by destruct (crash_mode (self w)).
Qed.

End WrittenAttributes.

(** *** The predump file: layout, errors, truncation *)

Section PredumpMore.
Implicit Types (f g rest bs rb extra : list byte) (regs : Regs)
  (memory : Memory).

Lemma consumes_ret {A : Type} (a : A) : consumes 0 (mret a : Reader A).
Proof.
  intros f. rewrite decide_True by lia. exists a. by rewrite drop_0.
Qed.

Lemma consumes_bind {A B : Type} (n k total : nat)
    (m : Reader A) (g : A → Reader B) :
  consumes n m → (∀ a, consumes k (g a)) → total = (n + k)%nat →
  consumes total (m ≫= g).
Proof.
  intros Hm Hg -> f. unfold mbind, ST_bind. specialize (Hm f).
  destruct (decide (n ≤ length f)%nat) as [Hn|Hn].
  - destruct Hm as [a ->]. specialize (Hg a (drop n f)).
    rewrite length_drop in Hg.
    destruct (decide (n + k ≤ length f)%nat).
    + rewrite decide_True in Hg by lia. destruct Hg as [b ->].
      exists b. by rewrite drop_drop.
    + by rewrite decide_False in Hg by lia.
  - rewrite decide_False by lia.
    destruct (m f) as [[a| |] f1]; simpl in *; congruence.
Qed.

Lemma consumes_read_unpack size : consumes size (read_unpack size).
Proof.
  intros f. unfold read_unpack, mbind, ST_bind, f_read, unpack.
  rewrite Nat2Z.id, length_take.
  destruct (decide (size ≤ length f)%nat).
  - rewrite decide_True by lia. by eexists.
  - by rewrite decide_False by lia.
Qed.

Lemma consumes_reg_I name regs : consumes 4 (reg_I name regs).
Proof.
  eapply consumes_bind; [apply consumes_read_unpack| |done].
  intros v. apply consumes_ret.
Qed.

Lemma consumes_reg_B name regs : consumes 1 (reg_B name regs).
Proof.
  eapply consumes_bind; [apply consumes_read_unpack| |done].
  intros v. apply consumes_ret.
Qed.

Lemma consumes_reg_QQ name regs : consumes 16 (reg_QQ name regs).
Proof.
  eapply consumes_bind; [apply consumes_read_unpack| |done].
  intros lo. eapply consumes_bind; [apply consumes_read_unpack| |done].
  intros hi. apply consumes_ret.
Qed.

(** The register block is read whole or not at all. *)
Lemma consumes_read_regs regs : consumes regs_size (read_regs regs).
Proof.
  unfold read_regs, regs_size.
  repeat lazymatch goal with
         | |- consumes _ (_ ≫= _) => eapply consumes_bind; [| intros ? |]
         | |- consumes _ (reg_I _ _) => apply consumes_reg_I
         | |- consumes _ (reg_B _ _) => apply consumes_reg_B
         | |- consumes _ (reg_QQ _ _) => apply consumes_reg_QQ
         | |- consumes _ (read_unpack _) => apply consumes_read_unpack
         end.
  all: reflexivity.
Qed.

(** The two halves of a 16-byte register are the little-endian number in
    its 16 bytes. *)
Lemma reg_QQ_le f k :
  (k + 16 ≤ length f)%nat →
  Z.lor (le_combine (take 8 (drop k f)))
        (Z.shiftl (le_combine (take 8 (drop (k + 8) f))) 64)
  = le_combine (take 16 (drop k f)).
Proof.
  intros Hlen.
  assert (take 16 (drop k f) = take 8 (drop k f) ++ take 8 (drop (k + 8) f))
    as ->.
  { rewrite <-drop_drop. by rewrite (take_take_drop (drop k f) 8 8). }
  rewrite le_combine_app. do 2 f_equal.
  rewrite length_take, length_drop. lia.
Qed.

Lemma reg_QQ_at16 name regs f k :
  (k + 16 ≤ length f)%nat →
  reg_QQ name regs (drop k f)
  = (Returns (<[name := le_combine (take 16 (drop k f))]> regs),
     drop (k + 16) f).
Proof. intros Hlen. rewrite reg_QQ_at by done. by rewrite reg_QQ_le. Qed.

(** The reads of [_load_backed], one after the other, give the
    registers of the layout. *)
Lemma read_regs_fields rb :
  (regs_size ≤ length rb)%nat →
  read_regs ∅ rb = (Returns (regs_of rb), drop regs_size rb).
Proof.
  unfold regs_size. intros Hlen.
  assert (∃ regs, read_regs ∅ rb = (Returns regs, drop 312 rb)
                  ∧ regs = regs_of rb) as (regs & -> & ->); [|done].
  eexists. split.
  - change rb with (drop 0 rb) at 1. unfold read_regs.
    repeat (erewrite bind_returns;
            [|first [apply reg_I_at | apply reg_B_at | apply reg_QQ_at16
                    | apply read_unpack_at]; lia];
            cbv beta zeta).
    apply reg_QQ_at16. lia.
  - clear Hlen. vm_compute. reflexivity.
Qed.

Lemma reg_names_NoDup : NoDup (reg_layout.*1.*1).
Proof. apply (bool_decide_unpack _). vm_compute. exact I. Qed.

Lemma regs_of_keys rb :
  ((λ '(name, off, size), (name, reg_value rb name off size)) <$> reg_layout).*1
  = reg_layout.*1.*1.
Proof. reflexivity. Qed.

Lemma regs_of_lookup rb name off size :
  (name, off, size) ∈ reg_layout →
  regs_of rb !! name = Some (reg_value rb name off size).
Proof.
  intros Hin. unfold regs_of. apply elem_of_list_to_map_1.
  - rewrite regs_of_keys. apply reg_names_NoDup.
  - apply list_elem_of_fmap. by exists (name, off, size).
Qed.

Lemma regs_of_dom rb : dom (regs_of rb) = list_to_set (reg_layout.*1.*1).
Proof. unfold regs_of. by rewrite dom_list_to_map_L, regs_of_keys. Qed.

Lemma regs_of_not_empty rb : size (regs_of rb) ≠ 0%nat.
Proof.
  intros Hsize%map_size_empty_iff.
  pose proof (regs_of_lookup rb "eip" 36 4) as Heip.
  rewrite Hsize in Heip. rewrite lookup_empty in Heip.
  assert (("eip", 36%nat, 4%nat) ∈ reg_layout) as Hin.
  { unfold reg_layout. apply list_elem_of_In. simpl. tauto. }
  by specialize (Heip Hin).
Qed.

Lemma read_unpack_returns size f v f1 :
  read_unpack size f = (Returns v, f1) →
  (size ≤ length f)%nat ∧ v = le_combine (take size f) ∧ f1 = drop size f.
Proof.
  intros Hread. pose proof (consumes_read_unpack size f) as Hc.
  destruct (decide (size ≤ length f)%nat) as [Hlen|Hlen].
  - pose proof (read_unpack_at size f 0 Hlen) as Hat.
    rewrite drop_0 in Hat. rewrite Hat in Hread. by injection Hread as <- <-.
  - by rewrite Hread in Hc.
Qed.

Lemma read_regs_returns f regs f1 :
  read_regs ∅ f = (Returns regs, f1) →
  (regs_size ≤ length f)%nat ∧ regs = regs_of f ∧ f1 = drop regs_size f.
Proof.
  intros Hread. pose proof (consumes_read_regs ∅ f) as Hc.
  destruct (decide (regs_size ≤ length f)%nat) as [Hlen|Hlen].
  - rewrite read_regs_fields in Hread by done. by injection Hread as <- <-.
  - by rewrite Hread in Hc.
Qed.

Lemma f_read_4 f : f_read 4 f = (Returns (take 4 f), drop 4 f).
Proof. done. Qed.

(** A file that is decoded is made of records and a register block. *)
Lemma parse_predump_inv fuel memory f mem regs f' :
  parse_predump fuel memory ∅ f = (Returns (mem, regs), f') →
  ∃ es rb,
    f = flat_map encode_entry es ++ REGS ++ rb
    ∧ Forall entry_ok es
    ∧ mem = overlay memory es
    ∧ (regs_size ≤ length rb)%nat
    ∧ regs = regs_of rb
    ∧ f' = drop regs_size rb.
Proof.
  revert memory f. induction fuel as [|fuel IH]; intros memory f;
    rewrite parse_predump_unfold;
    rewrite decide_True by apply map_size_empty; [done|].
  rewrite (bind_returns _ _ _ _ _ (f_read_4 f)).
  destruct (decide (take 4 f ≠ REGS)) as [Hne|Heq].
  - unfold mbind at 1, ST_bind at 1. unfold unpack at 1.
    destruct (decide (length (take 4 f) = 4%nat)) as [Htag|]; [|done].
    cbn [mret ST_ret].
    intros (end_ & f2 & (Hl1 & -> & ->)%read_unpack_returns & Hrest)%bind_returns_inv.
    apply bind_returns_inv in Hrest
      as (len & f3 & (Hl2 & -> & ->)%read_unpack_returns & Hrest).
    apply bind_returns_inv in Hrest as (content & f4 & [= <- <-] & Hrest).
    apply IH in Hrest as (es & rb & Hf4 & Hok & -> & Hlen & -> & ->).
    set (f1 := drop 4 f) in *. set (f2 := drop 4 f1) in *.
    set (f3 := drop 4 f2) in *.
    set (n := Z.to_nat (le_combine (take 4 f2))) in *.
    assert (n < length f3)%nat as Hn.
    { destruct (decide (n < length f3)%nat); [done|].
      rewrite drop_ge in Hf4 by lia. by destruct (flat_map encode_entry es). }
    assert (Z.of_nat (length (take n f3)) = le_combine (take 4 f2)) as Hcontent.
    { rewrite length_take, Nat.min_l by lia. unfold n.
      pose proof (le_combine_bound (take 4 f2)). lia. }
    exists (mkMemEntry (le_combine (take 4 f)) (le_combine (take 4 f1))
              (take n f3) :: es), rb.
    split_and!; [| |done..].
    + cbn [flat_map]. unfold encode_entry at 1. cbn [me_start me_end me_content].
      rewrite Hcontent.
      rewrite !split_le_combine' by (first [exact Htag | rewrite length_take; lia]).
      rewrite <-!app_assoc, <-Hf4.
      rewrite (take_drop n f3). unfold f3. rewrite (take_drop 4 f2).
      unfold f2. rewrite (take_drop 4 f1). unfold f1. by rewrite take_drop.
    + apply Forall_cons_2; [|done]. unfold entry_ok.
      cbn [me_start me_end me_content].
      pose proof (le_combine_bound (take 4 f)) as Hb. rewrite Htag in Hb.
      pose proof (le_combine_bound (take 4 f2)) as Hb2.
      rewrite length_take, Nat.min_l in Hb2 by (unfold f2, f1 in *; lia).
      split_and!; [lia|lia| |lia].
      intros Heq. apply Hne. by apply le_combine_inj.
  - apply dec_stable in Heq.
    intros (regs1 & f2 & (Hlen & -> & ->)%read_regs_returns & Hrest)%bind_returns_inv.
    rewrite parse_predump_unfold in Hrest.
    rewrite decide_False in Hrest by apply regs_of_not_empty.
    injection Hrest as <- <- <-.
    exists [], (drop 4 f). split_and!; try done.
    cbn [flat_map app]. by rewrite <-Heq, take_drop.
Qed.

Lemma bind_raises_inv {S A B : Type} (m : ST S A) (k : A → ST S B) s e :
  ((m ≫= k) s).1 = Raises e →
  (m s).1 = Raises e ∨ ∃ a s1, m s = (Returns a, s1) ∧ (k a s1).1 = Raises e.
Proof.
  unfold mbind, ST_bind. destruct (m s) as [[a|e'|] s1]; simpl; intros Hk.
  - right. exists a, s1. by split.
  - left. by injection Hk as ->.
  - discriminate Hk.
Qed.

Lemma consumes_raises {A : Type} (n : nat) (m : Reader A) f e :
  consumes n m → (m f).1 = Raises e → e = StructError.
Proof.
  intros Hc Hm. specialize (Hc f). destruct (decide _).
  - destruct Hc as [a Ha]. by rewrite Ha in Hm.
  - rewrite Hc in Hm. by injection Hm.
Qed.

(** The only error of the loop is [struct.error]. *)
Lemma parse_predump_raises fuel memory regs f e :
  (parse_predump fuel memory regs f).1 = Raises e → e = StructError.
Proof.
  revert memory regs f. induction fuel as [|fuel IH]; intros memory regs f;
    rewrite parse_predump_unfold; destruct (decide (size regs = _)); try done.
  intros [Hread|(tag & f1 & _ & Hrest)]%bind_raises_inv; [done|].
  destruct (decide (tag ≠ REGS)).
  - apply bind_raises_inv in Hrest as [Hunpack|(start & f1' & _ & Hrest)].
    { unfold unpack in Hunpack. destruct (decide _); [done|].
      by injection Hunpack. }
    apply bind_raises_inv in Hrest as [Hend|(end_ & f2 & _ & Hrest)].
    { by eapply consumes_raises; [apply consumes_read_unpack|]. }
    apply bind_raises_inv in Hrest as [Hlen|(len & f3 & _ & Hrest)].
    { by eapply consumes_raises; [apply consumes_read_unpack|]. }
    apply bind_raises_inv in Hrest as [Hcontent|(content & f4 & _ & Hrest)];
      [done|].
    by eapply IH.
  - apply bind_raises_inv in Hrest as [Hregs|(regs' & f2 & _ & Hrest)].
    { by eapply consumes_raises; [apply consumes_read_regs|]. }
    by eapply IH.
Qed.

Lemma load_predump_raises file e :
  load_predump file = Raises e → e = StructError.
Proof. apply parse_predump_raises. Qed.

(** The parse of a file of records and a register block. *)
Lemma parse_predump_file es rb fuel memory :
  Forall entry_ok es → (regs_size ≤ length rb)%nat →
  parse_predump (length es + S fuel) memory ∅
    (flat_map encode_entry es ++ REGS ++ rb)
  = (Returns (overlay memory es, regs_of rb), drop regs_size rb).
Proof.
  intros Hok Hlen. rewrite parse_predump_entries by done.
  rewrite parse_predump_unfold, decide_True by apply map_size_empty.
  rewrite (bind_returns _ _ _ _ _ (f_read_app REGS _ 4 eq_refl)).
  rewrite decide_False by (by intros Hne; apply Hne).
  rewrite (bind_returns _ _ _ _ _ (read_regs_fields rb Hlen)).
  rewrite parse_predump_unfold. rewrite decide_False; [done|].
  apply regs_of_not_empty.
Qed.

Lemma load_predump_file es rb :
  Forall entry_ok es → (regs_size ≤ length rb)%nat →
  load_predump (flat_map encode_entry es ++ REGS ++ rb)
  = Returns (overlay ∅ es, regs_of rb).
Proof.
  intros Hok Hlen.
  pose proof (length_encode_entries es) as Hes.
  set (file := flat_map encode_entry es ++ REGS ++ rb).
  assert (∃ fuel, S (length file) = (length es + S fuel)%nat) as [fuel Hfuel].
  { exists (length file - length es)%nat. unfold file.
    rewrite length_app. lia. }
  unfold load_predump. rewrite Hfuel. unfold file.
  by rewrite parse_predump_file.
Qed.

Lemma load_predump_inv file mem regs :
  load_predump file = Returns (mem, regs) →
  ∃ es rb,
    file = flat_map encode_entry es ++ REGS ++ rb
    ∧ Forall entry_ok es
    ∧ mem = overlay ∅ es
    ∧ (regs_size ≤ length rb)%nat
    ∧ regs = regs_of rb.
Proof.
  unfold load_predump.
  destruct (parse_predump _ _ _ _) as [r f'] eqn:Hparse. cbn [fst].
  intros ->. apply parse_predump_inv in Hparse
    as (es & rb & ? & ? & ? & ? & ? & _).
  by exists es, rb.
Qed.

(** The registers are read from the first 312 bytes of the block. *)
Lemma reg_layout_fits :
  Forall (λ r : string * nat * nat, (r.1.2 + r.2 ≤ regs_size)%nat) reg_layout.
Proof. apply (bool_decide_unpack _). vm_compute. exact I. Qed.

Lemma regs_of_app rb extra :
  (regs_size ≤ length rb)%nat → regs_of (rb ++ extra) = regs_of rb.
Proof.
  intros Hlen. unfold regs_of. f_equal.
  apply Forall_fmap_ext_1. eapply list.Forall_impl; [apply reg_layout_fits|].
  intros [[name off] size]. cbn [fst snd]. intros Hfit.
  unfold reg_value. by rewrite drop_app_le, take_app_le
    by (rewrite ?length_drop; lia).
Qed.

Lemma take_encode_entry e rest :
  take 4 (encode_entry e ++ rest) = le_split 4 (me_start e).
Proof.
  unfold encode_entry. rewrite <-!app_assoc.
  by rewrite take_app_length' by (by rewrite length_le_split).
Qed.

(** Two files with the same bytes have the same bytes of records. *)
Lemma encode_entries_inj es es' rb rb' :
  Forall entry_ok es → Forall entry_ok es' →
  flat_map encode_entry es ++ REGS ++ rb
  = flat_map encode_entry es' ++ REGS ++ rb' →
  flat_map encode_entry es = flat_map encode_entry es' ∧ rb = rb'.
Proof.
  intros Hok. revert es'.
  induction Hok as [|e es (Hstart & Hregs & Hlen) Hok IH];
    intros [|e' es'] Hok' Heq.
  - cbn [flat_map app] in Heq. by apply app_inv_head in Heq.
  - apply Forall_cons_1 in Hok' as [(Hstart' & Hregs' & _) _].
    exfalso. apply (le_split_start_not_REGS (me_start e')); [done..|].
    apply (f_equal (take 4)) in Heq. cbn [flat_map] in Heq.
    by rewrite <-app_assoc, take_encode_entry in Heq.
  - exfalso. apply (le_split_start_not_REGS (me_start e)); [done..|].
    apply (f_equal (take 4)) in Heq. cbn [flat_map] in Heq.
    by rewrite <-app_assoc, take_encode_entry in Heq.
  - apply Forall_cons_1 in Hok' as [(Hstart' & Hregs' & Hlen') Hok'].
    cbn [flat_map] in Heq |- *. unfold encode_entry at 1 3 in Heq.
    rewrite <-!app_assoc in Heq.
    apply app_inj_1 in Heq as [Hs Heq]; [|by rewrite !length_le_split].
    apply app_inj_1 in Heq as [He Heq]; [|by rewrite !length_le_split].
    apply app_inj_1 in Heq as [Hl Heq]; [|by rewrite !length_le_split].
    assert (length (me_content e) = length (me_content e')) as Hlen_eq.
    { apply (f_equal le_combine) in Hl. rewrite !le_combine_split in Hl.
      change (Z.of_nat 4 * 8) with 32 in Hl.
      rewrite !Z.mod_small in Hl by lia. lia. }
    apply app_inj_1 in Heq as [Hc Heq]; [|done].
    destruct (IH es' Hok' Heq) as [Hes ->].
    split; [|done]. f_equal; [|exact Hes].
    unfold encode_entry. by rewrite Hs, He, Hl, Hc.
Qed.

(** The overlay holds, for each start, the bytes of the last record with
    that start. *)
Lemma overlay_last memory es (start : Z) :
  overlay memory es !! start
  = match list.last (filter (λ e, me_start e = start) es) with
    | Some e => Some (me_content e)
    | None => memory !! start
    end.
Proof.
  unfold overlay. revert memory.
  induction es as [|e es IH]; intros memory; [done|].
  cbn [foldl]. rewrite IH. rewrite filter_cons.
  destruct (decide (me_start e = start)) as [<-|Hne].
  - rewrite last_cons. destruct (list.last _); [done|]. apply lookup_insert_eq.
  - destruct (list.last _); [done|]. by apply lookup_insert_ne.
Qed.

End PredumpMore.

Section PredumpProperties.
Context `{H : Host} `{E : Engine}.
Implicit Types (f g rest bs rb extra : list byte) (regs : Regs)
  (memory : Memory).

(** X8: every register of a decoded predump file is the little-endian
    number held by its bytes of the register block, at the offset that the
    order of the reads gives it: eight 32-bit general registers from offset
    0, the d flag at 32, the instruction pointer at 36 (and 2 is taken off
    this one only), eight 128-bit st registers from 40, eight one-byte tags
    from 168, ftop at 176, mxcsr at 180 and eight 128-bit xmm registers
    from 184 to the end at 312.  The dictionary has these 36 registers and
    no other, each within the range of its width; the instruction pointer
    alone can be negative. *)
Theorem predump_registers es rb :
  Forall entry_ok es →
  (regs_size ≤ length rb)%nat →
  ∃ regs,
    load_predump (flat_map encode_entry es ++ REGS ++ rb)
    = Returns (overlay ∅ es, regs)
    ∧ size regs = 36%nat
    ∧ ∀ name off size, (name, off, size) ∈ reg_layout →
        ∃ v, regs !! name = Some v
          ∧ v = le_combine (take size (drop off rb))
                - (if decide (name = "eip") then 2 else 0)
          ∧ (off + size ≤ regs_size)%nat
          ∧ (if decide (name = "eip") then -2 ≤ v < 2 ^ 32 - 2
             else 0 ≤ v < 2 ^ (8 * Z.of_nat size)).
Proof.
  intros Hok Hlen. exists (regs_of rb). split_and!.
  - by apply load_predump_file.
  - rewrite <-size_dom, regs_of_dom.
    by rewrite size_list_to_set by apply reg_names_NoDup.
  - intros name off size Hin. exists (reg_value rb name off size).
    pose proof (proj1 (List.Forall_forall _ _) reg_layout_fits _
                  (proj1 (list_elem_of_In _ _) Hin)) as Hfit.
    cbn [fst snd] in Hfit.
    pose proof (le_combine_bound (take size (drop off rb))) as Hb.
    rewrite length_take, length_drop, Nat.min_l in Hb by lia.
    split_and!; [by apply regs_of_lookup| |done|];
      unfold reg_value; destruct (decide (name = "eip")) as [->|Hne];
      [lia|lia| |lia].
    assert (Forall (λ r : string * nat * nat, r.1.1 = "eip" → r.2 = 4%nat)
              reg_layout) as Heip
      by (apply (bool_decide_unpack _); vm_compute; exact I).
    pose proof (proj1 (List.Forall_forall _ _) Heip _
                  (proj1 (list_elem_of_In _ _) Hin) eq_refl) as Hsize.
    cbn [snd] in Hsize. subst size. lia.
Qed.

(** X9: the files that [_load_backed] decodes are exactly the files made
    of memory records, the word "REGS" and at least 312 bytes of registers;
    what it builds from such a file is the overlay of the records and the
    registers of the block.  Of a record the start word and the length
    word are used; the end word is read and dropped. *)
Theorem load_predump_accepts file mem regs :
  load_predump file = Returns (mem, regs)
  ↔ ∃ es rb,
      file = flat_map encode_entry es ++ REGS ++ rb
      ∧ Forall entry_ok es
      ∧ (regs_size ≤ length rb)%nat
      ∧ mem = overlay ∅ es
      ∧ regs = regs_of rb.
Proof.
  split.
  - intros (es & rb & ? & ? & ? & ? & ?)%load_predump_inv. by exists es, rb.
  - intros (es & rb & -> & Hok & Hlen & -> & ->). by apply load_predump_file.
Qed.

(** X10: the decoding loop of [_load_backed] comes to an end on every
    file.  Given the bytes of the predump file, it does not go on looking
    for a register block that is not there: it ends with the memory and
    the registers, and the file then has 316 bytes or more, or it ends
    with [struct.error], raised where an unpack gets fewer bytes than its
    format asks for.  An empty file is of the second kind.  What the
    emulator, the operating system and the loader do around the loop is
    no part of this statement. *)
Theorem load_predump_ends file :
  ((∃ mem regs,
      load_predump file = Returns (mem, regs) ∧ (316 ≤ length file)%nat)
   ∨ load_predump file = Raises StructError)
  ∧ load_predump [] = Raises StructError.
Proof.
  split; [|reflexivity].
  destruct (load_predump file) as [[mem regs]|e|] eqn:Hload.
  - left. exists mem, regs. split; [done|].
    apply load_predump_inv in Hload as (es & rb & -> & _ & _ & Hlen & _).
    rewrite !length_app. unfold regs_size in Hlen. simpl length. lia.
  - right. by rewrite (load_predump_raises _ _ Hload).
  - by apply load_predump_total in Hload.
Qed.

(** X11: a predump file that is cut short is refused.  Whatever the place
    of the cut before the end of the register block, in a record or in
    the block, the decoder raises [struct.error]: it never builds a
    project from a part of the memory or from a part of the registers. *)
Theorem load_predump_truncated es rb n :
  Forall entry_ok es →
  (n < length (flat_map encode_entry es) + 4 + regs_size)%nat →
  load_predump (take n (flat_map encode_entry es ++ REGS ++ rb))
  = Raises StructError.
Proof.
  intros Hok Hn.
  set (file := flat_map encode_entry es ++ REGS ++ rb).
  destruct (load_predump (take n file)) as [[mem regs]|e|] eqn:Hload.
  - exfalso.
    apply load_predump_inv in Hload as (es' & rb' & Hcut & Hok' & _ & Hlen & _).
    assert (file = flat_map encode_entry es' ++ REGS ++ rb' ++ drop n file)
      as Hfile.
    { rewrite <-(take_drop n file) at 1. rewrite Hcut.
      by rewrite <-!app_assoc. }
    unfold file in Hfile at 1.
    apply encode_entries_inj in Hfile as [Hes _]; [|done..].
    apply (f_equal length) in Hcut. rewrite length_take in Hcut.
    rewrite !length_app, <-Hes in Hcut. simpl length in Hcut. lia.
  - by rewrite (load_predump_raises _ _ Hload).
  - by apply load_predump_total in Hload.
Qed.

(** X12: what follows the register block is not read: a file that is
    decoded is decoded to the same memory and registers whatever bytes are
    put after it. *)
Theorem load_predump_trailing file extra r :
  load_predump file = Returns r →
  load_predump (file ++ extra) = Returns r.
Proof.
  destruct r as [mem regs].
  intros (es & rb & -> & Hok & -> & Hlen & ->)%load_predump_inv.
  rewrite <-!app_assoc.
  rewrite load_predump_file; [|done|rewrite length_app; lia].
  by rewrite regs_of_app.
Qed.

(** X13: the memory of a decoded file holds, at each address, the bytes of
    the last record of the file that starts there, whatever records with
    the same start come before it, and nothing at an address where no
    record starts. *)
Theorem predump_memory_last_record es rb (start : Z) :
  Forall entry_ok es →
  (regs_size ≤ length rb)%nat →
  ∃ mem regs,
    load_predump (flat_map encode_entry es ++ REGS ++ rb) = Returns (mem, regs)
    ∧ mem !! start
      = me_content <$> list.last (filter (λ e, me_start e = start) es).
Proof.
  intros Hok Hlen. exists (overlay ∅ es), (regs_of rb).
  split; [by apply load_predump_file|].
  rewrite overlay_last. by destruct (list.last _).
Qed.

End PredumpProperties.

Lemma predump_registers_witness :
  ∃ regs,
    load_predump Toy.dump
    = Returns ({[0x1000 := [Byte.x90; Byte.x90]]}, regs)
    ∧ size regs = 36%nat
    ∧ regs !! "eip" = Some 0x0804807e
    ∧ regs !! "xmm7" = Some 0.
Proof.
  destruct (predump_registers
              [mkMemEntry 0x1000 0x1002 [Byte.x90; Byte.x90]]
              (repeat Byte.x00 36 ++ le_split 4 0x08048080
               ++ repeat Byte.x00 272))
    as (regs & Hload & Hsize & Hregs).
  - repeat constructor; vm_compute; congruence.
  - vm_compute. lia.
  - exists regs. split_and!; [exact Hload|exact Hsize| |].
    + destruct (Hregs "eip" 36%nat 4%nat) as (v & -> & -> & _).
      { apply (bool_decide_unpack _). vm_compute. exact I. }
      vm_compute. reflexivity.
    + destruct (Hregs "xmm7" 296%nat 16%nat) as (v & -> & -> & _).
      { apply (bool_decide_unpack _). vm_compute. exact I. }
      vm_compute. reflexivity.
Defined.

Lemma load_predump_truncated_witness :
  load_predump (take 100 Toy.dump) = Raises StructError.
Proof.
  apply (load_predump_truncated
           [mkMemEntry 0x1000 0x1002 [Byte.x90; Byte.x90]]
           (repeat Byte.x00 36 ++ le_split 4 0x08048080
            ++ repeat Byte.x00 272) 100).
  - repeat constructor; vm_compute; congruence.
  - vm_compute. lia.
Defined.

Lemma load_predump_trailing_witness :
  load_predump (Toy.dump ++ [Byte.xff; Byte.xff])
  = Returns ({[0x1000 := [Byte.x90; Byte.x90]]},
             regs_of (repeat Byte.x00 36 ++ le_split 4 0x08048080
                      ++ repeat Byte.x00 272)).
Proof.
  apply (load_predump_trailing Toy.dump [Byte.xff; Byte.xff]).
  vm_compute. reflexivity.
Defined.

Lemma predump_memory_last_record_witness :
  ∃ mem regs,
    load_predump
      (le_split 4 0x1000 ++ le_split 4 0x1001 ++ le_split 4 1 ++ [Byte.x90]
       ++ le_split 4 0x1000 ++ le_split 4 0x1002 ++ le_split 4 2
       ++ [Byte.xcc; Byte.xcc]
       ++ REGS ++ repeat Byte.x00 312)
    = Returns (mem, regs)
    ∧ mem !! 0x1000 = Some [Byte.xcc; Byte.xcc].
Proof.
  destruct (predump_memory_last_record
              [mkMemEntry 0x1000 0x1001 [Byte.x90];
               mkMemEntry 0x1000 0x1002 [Byte.xcc; Byte.xcc]]
              (repeat Byte.x00 312) 0x1000)
    as (mem & regs & Hload & Hmem).
  - repeat constructor; vm_compute; congruence.
  - vm_compute. lia.
  - exists mem, regs. split; [exact Hload|]. rewrite Hmem.
    vm_compute. reflexivity.
Defined.

(** *** The log of the emulator: which addresses are read *)

Section LogFacts.
Context `{H : Host}.
Implicit Types (s a b : string) (c sep : ascii) (w : World).

Lemma str_split_not_nil sep s : str_split sep s ≠ [].
Proof.
  induction s as [|c s IH]; simpl; [done|].
  destruct (decide (c = sep)); [done|]. by destruct (str_split sep s).
Qed.

Lemma str_split_none sep s : occurs sep s = false → str_split sep s = [s].
Proof.
  induction s as [|c s IH]; simpl; [done|].
  intros [Hc Hs]%orb_false_elim. apply bool_decide_eq_false in Hc.
  rewrite decide_False by done. by rewrite IH.
Qed.

Lemma str_split_sep sep a b :
  occurs sep a = false →
  str_split sep (a +:+ String sep b) = a :: str_split sep b.
Proof.
  induction a as [|c a IH]; simpl.
  - intros _. by rewrite decide_True.
  - intros [Hc Ha]%orb_false_elim. apply bool_decide_eq_false in Hc.
    rewrite decide_False by done. by rewrite IH.
Qed.

Lemma str_split_app sep a b :
  occurs sep a = false →
  str_split sep (a +:+ b)
  = match str_split sep b with
    | h :: t => (a +:+ h)%string :: t
    | [] => [a]
    end.
Proof.
  induction a as [|c a IH]; simpl.
  - intros _. destruct (str_split sep b) as [|h t] eqn:Hb; [|done].
    by apply str_split_not_nil in Hb.
  - intros [Hc Ha]%orb_false_elim. apply bool_decide_eq_false in Hc.
    rewrite decide_False by done. rewrite IH by done.
    by destruct (str_split sep b).
Qed.

Lemma str_split_lines lines tail :
  Forall (λ l, occurs newline l = false) lines →
  str_split newline (lines_then lines tail)
  = lines ++ str_split newline tail.
Proof.
  induction 1 as [|l lines Hl Hlines IH]; [done|].
  unfold lines_then in IH |- *. cbn [foldr].
  rewrite str_split_sep by done. by rewrite IH.
Qed.

Lemma occurs_app c a b : occurs c (a +:+ b) = occurs c a || occurs c b.
Proof.
  induction a as [|c' a IH]; simpl; [done|]. by rewrite IH, orb_assoc.
Qed.

Lemma getitem_fst {A : Type} (l : list A) i w :
  getitem l i w
  = (match index l i with Some x => Returns x | None => Raises IndexError end, w).
Proof. unfold getitem. by destruct (index l i). Qed.

(** The address of a block line is read between its first brackets. *)
Lemma trace_line_addr_render pre inside post w :
  occurs "["%char pre = false →
  occurs "["%char inside = false →
  occurs "]"%char inside = false →
  trace_line_addr (render (TraceLine pre inside post)) w
  = (match int_base16 inside with
     | Some a => Returns a
     | None => Raises ValueError
     end, w).
Proof.
  intros Hpre Hin1 Hin2. unfold trace_line_addr, render.
  assert (("Trace" +:+ pre +:+ "[" +:+ inside +:+ "]" +:+ post)%string
          = (("Trace" +:+ pre) +:+ String "["%char (inside +:+ String "]"%char post))%string)
    as -> by done.
  rewrite str_split_sep by (by rewrite occurs_app, Hpre).
  assert (∃ h t, str_split "["%char (inside +:+ String "]"%char post)
                 = (inside +:+ String "]"%char h)%string :: t)
    as (h & t & ->).
  { rewrite str_split_app by done. cbn [str_split].
    rewrite decide_False by done.
    destruct (str_split "["%char post) as [|h t]; by eexists _, _. }
  unfold mbind at 1, ST_bind at 1. rewrite getitem_fst.
  change (index (_ :: _ :: t) 1) with (Some (inside +:+ String "]"%char h)%string).
  cbv beta iota.
  rewrite str_split_sep by done.
  unfold mbind at 1, ST_bind at 1. rewrite getitem_fst.
  change (index (inside :: _) 0) with (Some inside). cbv beta iota.
  by destruct (int_base16 inside).
Qed.

(** A line that starts with "Trace" and has no opening bracket. *)
Lemma trace_line_addr_no_bracket v w :
  occurs "["%char v = false → trace_line_addr v w = (Raises IndexError, w).
Proof.
  intros Hv. unfold trace_line_addr. rewrite str_split_none by done.
  unfold mbind at 1, ST_bind at 1. by rewrite getitem_fst.
Qed.

Lemma prefix_render pre inside post :
  String.prefix "Trace" (render (TraceLine pre inside post)) = true.
Proof. unfold render. by destruct pre. Qed.

(** The addresses of the lines of a log, and then of what follows. *)
Lemma trace_addrs_lines (ls : list LogLine) rest addrs w :
  Forall line_ok ls →
  Forall2 (λ hex addr, int_base16 hex = Some addr) (ls ≫= hex_of) addrs →
  trace_addrs ((render <$> ls) ++ rest) w
  = (addrs' ← trace_addrs rest; mret (addrs ++ addrs')) w.
Proof.
  intros Hok. revert addrs.
  induction Hok as [|l ls Hl Hok IH]; intros addrs Haddrs.
  - cbn in Haddrs. apply Forall2_nil_inv_l in Haddrs as ->.
    cbn [fmap list_fmap app]. unfold mbind, ST_bind.
    by destruct (trace_addrs rest w) as [[?| |] ?].
  - destruct l as [pre inside post|text].
    + destruct Hl as (Hpre & Hin1 & Hin2 & _).
      cbn in Haddrs. apply Forall2_cons_inv_l in Haddrs
        as (a & addrs1 & Ha & Haddrs & ->).
      cbn [fmap list_fmap app]. cbn [trace_addrs].
      rewrite prefix_render.
      unfold mbind at 1, ST_bind at 1.
      rewrite trace_line_addr_render, Ha by done.
      unfold mbind at 1, ST_bind at 1.
      change (list_fmap _ _ render ls) with (render <$> ls).
      rewrite (IH _ Haddrs). unfold mbind, ST_bind.
      by destruct (trace_addrs rest w) as [[?| |] ?].
    + destruct Hl as (Hprefix & _).
      cbn [fmap list_fmap app]. cbn [trace_addrs render]. rewrite Hprefix.
      change (list_fmap _ _ render ls) with (render <$> ls).
      by apply IH.
Qed.

(** The parse of the log does not look at the tracer. *)
Lemma trace_line_addr_indep v w w' :
  (trace_line_addr v w).1 = (trace_line_addr v w').1.
Proof.
  unfold trace_line_addr, mbind, ST_bind. rewrite !getitem_fst.
  destruct (index _ 1) as [after|]; [|done]. rewrite !getitem_fst.
  destruct (index _ 0) as [inside|]; [|done].
  by destruct (int_base16 inside).
Qed.

Lemma trace_addrs_indep lines w w' :
  (trace_addrs lines w).1 = (trace_addrs lines w').1.
Proof.
  induction lines as [|v lines IH]; cbn [trace_addrs]; [done|].
  destruct (String.prefix _ _); [|done].
  unfold mbind, ST_bind.
  pose proof (trace_line_addr_indep v w w') as Hline.
  rewrite (surjective_pairing (trace_line_addr v w)),
    (surjective_pairing (trace_line_addr v w')).
  rewrite !trace_line_addr_world, <-Hline.
  destruct (trace_line_addr v w).1; [|done..].
  rewrite (trace_addrs_world_snd lines w), (trace_addrs_world_snd lines w').
  rewrite <-IH. by destruct (trace_addrs lines w).1.
Qed.

Lemma dynamic_trace_fst w :
  (_dynamic_trace w).1
  = (trace_addrs
       (str_split newline
          (qemu_exec_trace (driller_qemu (self w)) (binary (self w))
             (input (self w))).2) w).1.
Proof.
  unfold _dynamic_trace. unfold mbind at 1, ST_bind at 1, get_self at 1.
  destruct (qemu_exec_trace _ _ _) as [ret log]. cbn [snd].
  unfold mbind, ST_bind.
  destruct (decide (ret < 0)) as [Hneg|Hpos];
    [destruct (decide (Z.abs ret = SIGSEGV ∨ Z.abs ret = SIGILL))|];
    unfold modify_self, mret, ST_ret;
    rewrite trace_addrs_world_snd; cbn [fst];
    apply trace_addrs_indep.
Qed.

Lemma render_lines_ok (ls : list LogLine) :
  Forall line_ok ls →
  Forall (λ l, occurs newline l = false) (render <$> ls).
Proof.
  intros Hok. apply Forall_fmap. eapply list.Forall_impl; [exact Hok|].
  intros [pre inside post|text]; [by intros (_ & _ & _ & ?)|by intros [_ ?]].
Qed.

(** The errors of the parse of the log. *)
Lemma trace_line_addr_raises v w e :
  (trace_line_addr v w).1 = Raises e → e = IndexError ∨ e = ValueError.
Proof.
  unfold trace_line_addr.
  intros [Hget|(after & w1 & _ & Hrest)]%bind_raises_inv.
  { rewrite getitem_fst in Hget. cbn [fst] in Hget.
    destruct (index _ _); [done|]. left. by injection Hget. }
  apply bind_raises_inv in Hrest as [Hget|(inside & w2 & _ & Hrest)].
  { rewrite getitem_fst in Hget. cbn [fst] in Hget.
    destruct (index _ _); [done|]. left. by injection Hget. }
  destruct (int_base16 inside); [done|]. right. by injection Hrest.
Qed.

Lemma trace_addrs_raises lines w e :
  (trace_addrs lines w).1 = Raises e → e = IndexError ∨ e = ValueError.
Proof.
  revert w. induction lines as [|v lines IH]; intros w; cbn [trace_addrs];
    [done|].
  destruct (String.prefix _ _); [|by apply IH].
  intros [Hline|(a & w1 & _ & Hrest)]%bind_raises_inv.
  { by eapply trace_line_addr_raises. }
  apply bind_raises_inv in Hrest as [Hrest|(addrs & w2 & _ & Hrest)]; [|done].
  by eapply IH.
Qed.

Lemma dynamic_trace_raises w e :
  (_dynamic_trace w).1 = Raises e → e = IndexError ∨ e = ValueError.
Proof. rewrite dynamic_trace_fst. apply trace_addrs_raises. Qed.

End LogFacts.

Section LogProperties.
Context `{H : Host}.
Implicit Types (w : World).

(** X14: the trace is read off the log of the emulator line by line: each
    line that starts with "Trace" gives one address, the number written in
    base 16 between the first opening bracket of the line and the closing
    bracket after it, when no other opening bracket stands between them;
    the addresses come in the order of the lines, and the lines that do
    not start with "Trace" give nothing. *)
Theorem dynamic_trace_addresses w ret (ls : list LogLine) addrs :
  qemu_exec_trace (driller_qemu (self w)) (binary (self w)) (input (self w))
  = (ret, lines_then (render <$> ls) "") →
  Forall line_ok ls →
  Forall2 (λ hex addr, int_base16 hex = Some addr) (ls ≫= hex_of) addrs →
  (_dynamic_trace w).1 = Returns addrs
  ∧ length addrs = length (ls ≫= hex_of).
Proof.
  intros Hlog Hok Haddrs. split; [|by apply Forall2_length in Haddrs].
  rewrite dynamic_trace_fst, Hlog. cbn [snd].
  rewrite str_split_lines by by apply render_lines_ok.
  rewrite (trace_addrs_lines _ _ _ _ Hok Haddrs).
  change (str_split newline "") with [""%string].
  unfold mbind, ST_bind, mret, ST_ret. cbn [trace_addrs].
  change (String.prefix "Trace" "") with false. cbv beta iota.
  unfold mret, ST_ret. cbn [fst]. by rewrite app_nil_r.
Qed.

(** X15: a line of the log that starts with "Trace" and cannot be read
    stops the capture of the trace at that line, whatever follows it: with
    [IndexError] when the line has no opening bracket, with [ValueError]
    when the text between its brackets is not a number in base 16.  The
    lines before it do not matter, as long as they can be read. *)
Theorem dynamic_trace_bad_line w ret (ls : list LogLine) addrs bad tail :
  qemu_exec_trace (driller_qemu (self w)) (binary (self w)) (input (self w))
  = (ret, lines_then ((render <$> ls) ++ [bad]) tail) →
  Forall line_ok ls →
  Forall2 (λ hex addr, int_base16 hex = Some addr) (ls ≫= hex_of) addrs →
  occurs newline bad = false →
  String.prefix "Trace" bad = true →
  (occurs "["%char bad = false → (_dynamic_trace w).1 = Raises IndexError)
  ∧ (∀ pre inside post,
       bad = render (TraceLine pre inside post) →
       line_ok (TraceLine pre inside post) →
       int_base16 inside = None →
       (_dynamic_trace w).1 = Raises ValueError).
Proof.
  intros Hlog Hok Haddrs Hnl Hprefix.
  assert ((_dynamic_trace w).1
          = ((addrs' ← trace_addrs (bad :: str_split newline tail);
              mret (addrs ++ addrs')) w).1) as Hrun.
  { rewrite dynamic_trace_fst, Hlog. cbn [snd].
    rewrite str_split_lines.
    2:{ apply Forall_app. split; [by apply render_lines_ok|].
        by apply Forall_singleton. }
    rewrite <-app_assoc. by rewrite (trace_addrs_lines _ _ _ _ Hok Haddrs). }
  split.
  - intros Hbracket. rewrite Hrun. cbn [trace_addrs]. rewrite Hprefix.
    unfold mbind, ST_bind. by rewrite trace_line_addr_no_bracket.
  - intros pre inside post -> (Hpre & Hin1 & Hin2 & _) Hhex.
    rewrite Hrun. cbn [trace_addrs]. rewrite Hprefix.
    unfold mbind, ST_bind. by rewrite trace_line_addr_render, Hhex.
Qed.

End LogProperties.

(** *** Preconstraining and its removal *)

Section RoundTrip.
Context `{H : Host} `{E : Engine}.
Implicit Types (w : World) (entry_state : loc).

Lemma map_const {A B : Type} (f : A → B) (l : list A) (c : B) :
  (∀ x, x ∈ l → f x = c) → map f l = replicate (length l) c.
Proof.
  induction l as [|x l IH]; intros Hf; [done|]. cbn [map length replicate].
  rewrite Hf by apply list_elem_of_here. f_equal. apply IH.
  intros y Hy. apply Hf. by apply list_elem_of_further.
Qed.

Lemma imap_byte_equality fd pos (bs : list byte) :
  Forall is_byte_equality
    (imap (λ i b, Eq (FileLoad fd (pos + Z.of_nat i) 1)
                     (BVV (byte.unsigned b) 8)) bs).
Proof.
  apply Forall_lookup_2. intros i c. rewrite list_lookup_imap.
  destruct (bs !! i) as [b|]; [|done]. intros [= <-].
  by eexists _, _, _, _, _.
Qed.

(** X16: the preconstraints are taken off again by [remove_preconstraints].
    On a tracer that preconstrains, and whose preconstraints so far are
    equalities on bytes of a file, [_preconstrain_state] followed by
    [remove_preconstraints] on a path of the same state leaves, in the
    place of each of the constraints that were added for the bytes of the
    input, the true value: the state has as many constraints more as the
    input has bytes, and none of them says anything about the input. *)
Theorem preconstrain_then_remove entry_state path w :
  state path = entry_state →
  preconstrain (self w) = true →
  Forall is_byte_equality (preconstraints (self w)) →
  ∃ w1 w2,
    _preconstrain_state entry_state w = (Returns tt, w1)
    ∧ remove_preconstraints path w1 = (Returns tt, w2)
    ∧ se_constraints (store w2 entry_state)
      = map (replace_all (preconstraints (self w1)))
          (se_constraints (store w entry_state))
        ++ replicate (length (input (self w))) se_true
    ∧ self w2 = self w1
    ∧ length (preconstraints (self w1))
      = (length (preconstraints (self w)) + length (input (self w)))%nat.
Proof.
  intros Hpath Hpre Hpcs.
  destruct (preconstrain_bytes_spec entry_state (input (self w)) w)
    as (w0 & Hrun & Hself & Hcs & Hstdin & Hframe).
  cbv zeta in Hself, Hcs.
  set (added := imap _ (input (self w))) in *.
  assert (length added = length (input (self w))) as Hlen
    by apply length_imap.
  eexists _, _. split.
  { unfold _preconstrain_state. unfold mbind at 1, ST_bind at 1, get_self at 1.
    rewrite (bind_returns _ _ _ _ _ Hrun). reflexivity. }
  unfold remove_preconstraints, stdin_seek. cbn [self store].
  rewrite Hself. cbn [preconstrain set_preconstraints]. rewrite Hpre.
  cbn [negb]. split; [reflexivity|]. cbn [self store].
  rewrite Hpath, !fn_lookup_insert, downsize_constraints.
  cbn [se_constraints set_se_constraints set_posix_stdin preconstraints].
  split_and!; [| done |].
  - rewrite Hcs, map_app. f_equal.
    rewrite <-Hlen. apply map_const. intros c Hc.
    rewrite replace_all_byte_equality.
    + rewrite decide_True; [done|]. apply elem_of_app. by right.
    + apply Forall_app. split; [done|]. apply imap_byte_equality.
    + eapply (proj1 (List.Forall_forall _ _) (imap_byte_equality _ _ _)).
      apply list_elem_of_In. exact Hc.
  - cbn [preconstraints set_preconstraints]. by rewrite length_app, Hlen.
Qed.

End RoundTrip.

(** *** Construction: how it can end *)

Section InitOutcome.
Context `{H : Host} `{E : Engine}.
Implicit Types (w : World).

Lemma windup_raises fuel target w e :
  (windup fuel target w).1 = Raises e → e = IndexError.
Proof.
  revert w. induction fuel as [|fuel IH]; intros w; rewrite windup_unfold;
    destruct (index _ _); try (by intros [= <-]);
    destruct (decide _); try done.
  apply IH.
Qed.

Lemma load_backed_raises w e :
  (_load_backed w).1 = Raises e → e = StructError.
Proof.
  unfold _load_backed. unfold mbind at 1, ST_bind at 1, get_self at 1.
  destruct (load_predump _) as [[? ?]|e'|] eqn:Hload; try done.
  intros [= <-]. by eapply load_predump_raises.
Qed.

Lemma engine_no_raise {A : Type} (f : Store → A * Store) w e :
  (engine f w).1 ≠ Raises e.
Proof. unfold engine. by destruct (f (store w)). Qed.

Lemma preconstrain_state_no_raise entry_state w e :
  (_preconstrain_state entry_state w).1 ≠ Raises e.
Proof.
  unfold _preconstrain_state, stdin_seek.
  unfold mbind at 1, ST_bind at 1, get_self at 1.
  destruct (preconstrain_bytes_spec entry_state (input (self w)) w)
    as (w4 & Hrun & _).
  by rewrite (bind_returns _ _ _ _ _ Hrun).
Qed.

Lemma prepare_paths_raises w e :
  (_prepare_paths w).1 = Raises e → e = StructError ∨ e = IndexError.
Proof.
  unfold _prepare_paths.
  intros [Hload|(project & w1 & _ & Hrest)]%bind_raises_inv.
  { left. by eapply load_backed_raises. }
  apply bind_raises_inv in Hrest as [Heng|(entry_state & w2 & _ & Hrest)].
  { by apply engine_no_raise in Heng. }
  apply bind_raises_inv in Hrest as [Hget|(t & w3 & _ & Hrest)]; [done|].
  apply bind_raises_inv in Hrest as [Hwind|([] & w4 & _ & Hrest)].
  { right. by eapply windup_raises. }
  apply bind_raises_inv in Hrest as [Hget|(t' & w5 & _ & Hrest)]; [done|].
  apply bind_raises_inv in Hrest as [Hpre|([] & w6 & _ & Hrest)].
  { destruct (preconstrain _); [|done].
    by apply preconstrain_state_no_raise in Hpre. }
  apply bind_raises_inv in Hrest as [Heng|(pg & w7 & _ & Hrest)].
  { by apply engine_no_raise in Heng. }
  by apply engine_no_raise in Hrest.
Qed.

Lemma sane_executable (t : Tracer) :
  _sane t = os_access_X_OK (binary t) && os_access_X_OK (driller_qemu t).
Proof.
  unfold _sane.
  by destruct (os_access_X_OK (binary t)), (os_access_X_OK (driller_qemu t)),
    (os_path_isfile (binary t)), (os_path_isfile (driller_qemu t)).
Qed.

Lemma init_raises bin inp pre st e :
  (__init__ bin inp pre st).1 = Raises e →
  e = TracerEnvironmentError ∧ _sane (new_tracer bin inp pre) = false
  ∨ _sane (new_tracer bin inp pre) = true
    ∧ (e = IndexError ∨ e = ValueError ∨ e = StructError).
Proof.
  unfold __init__, init_body.
  intros [Hget|(t & w0 & [= <- <-] & Hrest)]%bind_raises_inv; [done|].
  cbn [self] in Hrest.
  destruct (_sane (new_tracer bin inp pre)) eqn:Hsane; cbn [negb] in Hrest.
  2:{ left. apply bind_raises_inv in Hrest as [Hraise|(? & ? & ? & _)];
        [|done]. split; [|done]. by injection Hraise. }
  right. split; [done|].
  apply bind_raises_inv in Hrest as [?|([] & w1 & _ & Hrest)]; [done|].
  apply bind_raises_inv in Hrest as [?|([] & w2 & _ & Hrest)]; [done|].
  apply bind_raises_inv in Hrest as [Htrace|(tr & w3 & _ & Hrest)].
  { apply dynamic_trace_raises in Htrace as [->| ->]; tauto. }
  apply bind_raises_inv in Hrest as [?|([] & w4 & _ & Hrest)]; [done|].
  apply bind_raises_inv in Hrest as [?|([] & w5 & _ & Hrest)]; [done|].
  apply bind_raises_inv in Hrest as [?|([] & w6 & _ & Hrest)]; [done|].
  apply bind_raises_inv in Hrest as [?|([] & w7 & _ & Hrest)]; [done|].
  apply bind_raises_inv in Hrest as [Hprep|(pg & w8 & _ & Hrest)]; [|done].
  apply prepare_paths_raises in Hprep as [->| ->]; tauto.
Qed.

(** X17: [TracerEnvironmentError] and nothing but it tells that the
    environment is not fit.  [_sane] holds exactly when the binary and the
    emulator can both be executed; whether a file that cannot be executed
    exists only changes the message.  When one of them cannot,
    [__init__] raises [TracerEnvironmentError] at once: the object is as
    the first assignments left it, with no trace and no paths.  And
    [__init__] raises [TracerEnvironmentError] in no other case: when it
    does, one of the two cannot be executed and nothing has been run. *)
Theorem init_environment_error bin inp pre st :
  let t0 := new_tracer bin inp pre in
  let executable := os_access_X_OK bin && os_access_X_OK (driller_qemu t0) in
  _sane t0 = executable
  ∧ (executable = false →
     __init__ bin inp pre st
     = (Raises TracerEnvironmentError, {| self := t0; store := st |})
     ∧ trace t0 = [] ∧ path_group t0 = ∅)
  ∧ (∀ w', __init__ bin inp pre st = (Raises TracerEnvironmentError, w') →
           executable = false ∧ w' = {| self := t0; store := st |}).
Proof.
  intros t0 executable.
  assert (_sane t0 = executable) as Hsane by apply sane_executable.
  assert (executable = false →
          __init__ bin inp pre st
          = (Raises TracerEnvironmentError, {| self := t0; store := st |}))
    as Hraise.
  { intros Hex. rewrite Hex in Hsane. unfold __init__, init_body.
    unfold mbind at 1, ST_bind at 1, get_self at 1. cbn [self].
    fold t0. rewrite Hsane. reflexivity. }
  split_and!; [done| |].
  - intros Hex. by split; [apply Hraise|].
  - intros w' Hinit.
    pose proof (init_raises bin inp pre st TracerEnvironmentError) as Hr.
    rewrite Hinit in Hr.
    destruct (Hr eq_refl) as [[_ Hno]|[_ [?|[?|?]]]]; [|done..].
    fold t0 in Hno. rewrite Hsane in Hno. split; [done|].
    rewrite (Hraise Hno) in Hinit. by injection Hinit.
Qed.

End InitOutcome.

(** The log of the example: three block lines and one line about
    linking, which is skipped. *)
Lemma dynamic_trace_addresses_witness :
  (@_dynamic_trace Toy.host Toy.w_exit).1
  = Returns [0x08048000; 0x08048080; 0x08048100]
  ∧ length [0x08048000; 0x08048080; 0x08048100] = 3%nat.
Proof.
  apply (@dynamic_trace_addresses Toy.host Toy.w_exit (-11)
           [TraceLine " 0x7f0000 " "08048000" " ";
            OtherLine "Linking TBs 0x7f0000 [08048000] index 0 -> 0x7f0040 [08048080]";
            TraceLine " 0x7f0040 " "08048080" " ";
            TraceLine " 0x7f0080 " "08048100" " "]).
  - reflexivity.
  - repeat constructor.
  - repeat constructor.
Defined.

(** A block line without brackets, and one with "zz" between them. *)
Lemma dynamic_trace_bad_line_witness :
  (@_dynamic_trace (ToyX.host_log ToyX.log_no_bracket) Toy.w_exit).1
  = Raises IndexError
  ∧ (@_dynamic_trace (ToyX.host_log ToyX.log_bad_hex) Toy.w_exit).1
    = Raises ValueError.
Proof.
  split.
  - destruct (@dynamic_trace_bad_line (ToyX.host_log ToyX.log_no_bracket)
                Toy.w_exit 0 [TraceLine " 0x7f0000 " "08048000" " "]
                [0x08048000] "Trace 0x7f0040"
                ("Trace 0x7f0080 [08048100] " +:+ Toy.nl)%string)
      as [Hindex _].
    + reflexivity.
    + repeat constructor.
    + repeat constructor.
    + reflexivity.
    + reflexivity.
    + apply Hindex. reflexivity.
  - destruct (@dynamic_trace_bad_line (ToyX.host_log ToyX.log_bad_hex)
                Toy.w_exit 0 [TraceLine " 0x7f0000 " "08048000" " "]
                [0x08048000] "Trace 0x7f0040 [zz] "
                ("Trace 0x7f0080 [08048100] " +:+ Toy.nl)%string)
      as [_ Hvalue].
    + reflexivity.
    + repeat constructor.
    + repeat constructor.
    + reflexivity.
    + reflexivity.
    + apply (Hvalue " 0x7f0040 " "zz" " ").
      * reflexivity.
      * repeat constructor.
      * reflexivity.
Defined.

(** The input "AB" on a fresh entry state: two constraints are added and
    both are rewritten to true. *)
Lemma preconstrain_then_remove_witness :
  ∃ w1 w2,
    _preconstrain_state 1%positive Toy.w_input = (Returns tt, w1)
    ∧ @remove_preconstraints (Toy.engine Toy.cfg) (mkPath 0x100 1%positive) w1
      = (Returns tt, w2)
    ∧ se_constraints (store w2 1%positive) = [se_true; se_true].
Proof.
  destruct (@preconstrain_then_remove (Toy.engine Toy.cfg) 1%positive
              (mkPath 0x100 1%positive) Toy.w_input)
    as (w1 & w2 & Hpre & Hremove & Hcs & _).
  - reflexivity.
  - reflexivity.
  - constructor.
  - exists w1, w2. split_and!; [exact Hpre|exact Hremove|exact Hcs].
Defined.

(** A host without the binary. *)
Lemma init_environment_error_witness :
  @__init__ ToyX.host_missing (Toy.engine Toy.cfg_exit)
    "bin" [Byte.x41] true Toy.empty_store
  = (Raises TracerEnvironmentError,
     {| self := @new_tracer ToyX.host_missing "bin" [Byte.x41] true;
        store := Toy.empty_store |})
  ∧ @_sane ToyX.host_missing
      (@new_tracer ToyX.host_missing "bin" [Byte.x41] true) = false.
Proof.
  destruct (@init_environment_error ToyX.host_missing
              (Toy.engine Toy.cfg_exit) "bin" [Byte.x41] true
              Toy.empty_store) as (Hsane & Hraise & _).
  split.
  - apply Hraise. reflexivity.
  - rewrite Hsane. reflexivity.
Defined.
